(** * proto-client-generator: the generation pipeline and its validators

    A shallow embedding of [util/util.go] and [cmd/root.go].

    The operating system is a finite map from absolute, cleaned paths
    to nodes; every system call may also fail for a reason the map does not
    show (permissions, a full disk, a dead network), which a script of
    injected faults decides.  [log.Fatalf] ends the process on the spot:
    deferred calls do not run after it. *)

From Stdlib Require Import Ascii.
From Stdlib Require String.
From stdpp Require Import gmap strings list fin_maps sorting.

(** ** Paths: [path/filepath] *)

Module filepath.

(** A path is held as the list of its components below the root. *)
Definition path := list string.

Definition sep : ascii := "/"%char.
Definition dot : ascii := "."%char.

(** [strings.Split(s, "/")] *)
Fixpoint components (s : string) : list string :=
  match s with
  | EmptyString => [""]
  | String c s' =>
      if Ascii.eqb c sep then "" :: components s'
      else match components s' with
           | x :: r => String c x :: r
           | [] => [String c ""]
           end
  end.

(** One step of [Clean] on a rooted path: empty and [.] components vanish,
    [..] drops the last component and is dropped at the root. *)
Definition push (p : path) (c : string) : path :=
  if String.eqb c "" then p
  else if String.eqb c "." then p
  else if String.eqb c ".." then removelast p
  else p ++ [c].

(** [filepath.Join(dir, elems...)] for a rooted, clean [dir]. *)
Definition Join (dir : path) (elems : list string) : path :=
  fold_left push (flat_map components elems) dir.

(** [filepath.Ext]: scanning back from the end, the suffix that starts at the
    first dot met, or the empty string when a separator or the start of the
    string comes first.  [ext_scan s] is [None] while neither was met. *)
Fixpoint ext_scan (s : string) : option string :=
  match s with
  | EmptyString => None
  | String c s' =>
      match ext_scan s' with
      | Some r => Some r
      | None => if Ascii.eqb c dot then Some s
                else if Ascii.eqb c sep then Some ""
                else None
      end
  end.

Definition Ext (s : string) : string := default "" (ext_scan s).

Fixpoint no_sep (s : string) : bool :=
  match s with
  | EmptyString => true
  | String c s' => negb (Ascii.eqb c sep) && no_sep s'
  end.

(** What a directory can hold as an entry name. *)
Definition valid_name (n : string) : bool :=
  no_sep n && negb (String.eqb n "") && negb (String.eqb n ".")
  && negb (String.eqb n "..").

(** The string of a path, as [fmt.Sprintf("%s", dir)] prints it. *)
Definition path_string (p : path) : string :=
  match p with
  | [] => "/"
  | _ => fold_right (fun c acc => "/" +:+ c +:+ acc) "" p
  end.

End filepath.

Import filepath.

(** ** The operating system: [os], [io], [os/exec], [log] *)

Module os.

Inductive node :=
| File (data : string)
| Dir.

Abbreviation fsmap := (gmap path node).

(** A Go [error]: [None] is [nil]. *)
Definition error := option string.

(** The result of a call that returns [(T, error)]. *)
Inductive res (A : Type) :=
| Ok (a : A)
| Err (e : string).
Arguments Ok {A} a.
Arguments Err {A} e.

(** An injected failure of one system call.  [ShortWrite n] is a copy that
    fails after [n] bytes reached the destination. *)
Inductive fault :=
| Fault (errno : string)
| ShortWrite (n : nat) (errno : string).

Definition errno_of (f : fault) : string :=
  match f with Fault e => e | ShortWrite _ e => e end.

(** What running an external program does. *)
Record proc := {
  pr_start : error;       (* the program could not be started *)
  pr_fs : fsmap;          (* the file system it leaves *)
  pr_stdout : string;
  pr_stderr : string;
  pr_wait : error         (* non-zero exit status *)
}.

Inductive event :=
| EvMkdirTemp (r : res path)
| EvMkdir (p : path) (e : error)
| EvRemoveAll (p : path) (e : error)
| EvReadDir (p : path) (e : error)
| EvOpen (p : path) (e : error)
| EvCreate (p : path) (e : error)
| EvCopy (dst src : path) (e : error)
| EvGetwd (e : error)
| EvPipe (e : error)
| EvStart (argv : list string) (e : error)
| EvReadAll (e : error)
| EvWait (argv : list string) (e : error)
| EvLog (msg : string).

Record world := {
  w_fs : fsmap;
  w_script : list (option fault);   (* one decision per system call to come *)
  w_rand : list string;             (* the random suffixes MkdirTemp draws *)
  w_tempdir : path;                 (* os.TempDir() *)
  w_cwd : path;                     (* os.Getwd() *)
  w_spawn : list string → fsmap → proc;
  w_trace : list event
}.

Definition set_fs (m : fsmap) (w : world) : world :=
  {| w_fs := m; w_script := w_script w; w_rand := w_rand w;
     w_tempdir := w_tempdir w; w_cwd := w_cwd w; w_spawn := w_spawn w;
     w_trace := w_trace w |}.

Definition set_rand (r : list string) (w : world) : world :=
  {| w_fs := w_fs w; w_script := w_script w; w_rand := r;
     w_tempdir := w_tempdir w; w_cwd := w_cwd w; w_spawn := w_spawn w;
     w_trace := w_trace w |}.

Definition emit (e : event) (w : world) : world :=
  {| w_fs := w_fs w; w_script := w_script w; w_rand := w_rand w;
     w_tempdir := w_tempdir w; w_cwd := w_cwd w; w_spawn := w_spawn w;
     w_trace := w_trace w ++ [e] |}.

(** The decision for the next system call. *)
Definition pop_fault (w : world) : option fault * world :=
  match w_script w with
  | [] => (None, w)
  | f :: rest =>
      (f, {| w_fs := w_fs w; w_script := rest; w_rand := w_rand w;
             w_tempdir := w_tempdir w; w_cwd := w_cwd w;
             w_spawn := w_spawn w; w_trace := w_trace w |})
  end.

(** How a computation ends: it returns, or the process has exited. *)
Inductive outcome (A : Type) :=
| Done (a : A)
| Fatal (msg : string).
Arguments Done {A} a.
Arguments Fatal {A} msg.

Definition M (A : Type) : Type := world → outcome A * world.

Definition ret {A} (a : A) : M A := fun w => (Done a, w).

Definition bind {A B} (m : M A) (k : A → M B) : M B :=
  fun w => match m w with
           | (Done a, w') => k a w'
           | (Fatal msg, w') => (Fatal msg, w')
           end.

(** [defer d] before [body]: [d] runs when [body] returns, and does not when
    the process has exited inside [body]. *)
Definition defer {A} (d : M unit) (body : M A) : M A :=
  fun w => match body w with
           | (Done a, w') =>
               match d w' with
               | (Done _, w'') => (Done a, w'')
               | (Fatal msg, w'') => (Fatal msg, w'')
               end
           | (Fatal msg, w') => (Fatal msg, w')
           end.

(** The node at a path; the root is always a directory. *)
Definition node_at (m : fsmap) (p : path) : option node :=
  match p with
  | [] => Some Dir
  | _ => m !! p
  end.

(** The name under which [p] is an entry of [d], if it is one. *)
Definition child_name (d p : path) : option string :=
  match last p with
  | Some n => if decide (p = d ++ [n]) then Some n else None
  | None => None
  end.

(** The entry names of directory [d], sorted by name as [os.ReadDir] gives
    them. *)
Definition entries (d : path) (m : fsmap) : list string :=
  merge_sort String.le
    (filter (fun n => valid_name n = true)
            (omap (fun kv => child_name d kv.1) (map_to_list m))).

(** [os.RemoveAll]'s effect: the path and everything below it are gone. *)
Definition remove_tree (d : path) (m : fsmap) : fsmap :=
  filter (fun kv => ¬ d `prefix_of` kv.1) m.

Definition log_Printf (msg : string) : M unit :=
  fun w => (Done tt, emit (EvLog msg) w).

(** [log.Fatalf]: print, then [os.Exit(1)]. *)
Definition log_Fatalf {A} (msg : string) : M A :=
  fun w => (Fatal msg, emit (EvLog msg) w).

Definition TempDir : M path := fun w => (Done (w_tempdir w), w).

Definition Getwd : M (res path) :=
  fun w =>
    let (f, w1) := pop_fault w in
    match f with
    | Some flt => (Done (Err (errno_of flt)), emit (EvGetwd (Some (errno_of flt))) w1)
    | None => (Done (Ok (w_cwd w1)), emit (EvGetwd None) w1)
    end.

(** The first random suffix whose name is free; Go draws again while the
    name exists. *)
Fixpoint fresh_name (m : fsmap) (dir : path) (pattern : string)
    (rand : list string) : option (path * list string) :=
  match rand with
  | [] => None
  | r :: rest =>
      let p := dir ++ [pattern +:+ r] in
      match m !! p with
      | None => Some (p, rest)
      | Some _ => fresh_name m dir pattern rest
      end
  end.

Definition MkdirTemp (dir : path) (pattern : string) : M (res path) :=
  fun w =>
    let (f, w1) := pop_fault w in
    let finish (r : res path) (w2 : world) := (Done r, emit (EvMkdirTemp r) w2) in
    match f with
    | Some flt => finish (Err (errno_of flt)) w1
    | None =>
        match node_at (w_fs w1) dir with
        | Some Dir =>
            match fresh_name (w_fs w1) dir pattern (w_rand w1) with
            | Some (p, rest) =>
                finish (Ok p) (set_rand rest (set_fs (<[p := Dir]> (w_fs w1)) w1))
            | None => finish (Err "file exists") (set_rand [] w1)
            end
        | Some (File _) => finish (Err "not a directory") w1
        | None => finish (Err "no such file or directory") w1
        end
    end.

(** [os.Mkdir]: the parent must be a directory and the name free.  Permission
    bits are not part of the model; a refusal on their account is an injected
    fault. *)
Definition Mkdir (p : path) : M error :=
  fun w =>
    let (f, w1) := pop_fault w in
    let finish (e : error) (w2 : world) := (Done e, emit (EvMkdir p e) w2) in
    match f with
    | Some flt => finish (Some (errno_of flt)) w1
    | None =>
        match p, node_at (w_fs w1) (removelast p), w_fs w1 !! p with
        | [], _, _ => finish (Some "file exists") w1
        | _, Some Dir, None => finish None (set_fs (<[p := Dir]> (w_fs w1)) w1)
        | _, Some Dir, Some _ => finish (Some "file exists") w1
        | _, Some (File _), _ => finish (Some "not a directory") w1
        | _, None, _ => finish (Some "no such file or directory") w1
        end
    end.

(** [os.RemoveAll]: no error when the path does not exist. *)
Definition RemoveAll (p : path) : M error :=
  fun w =>
    let (f, w1) := pop_fault w in
    match f with
    | Some flt => (Done (Some (errno_of flt)),
                   emit (EvRemoveAll p (Some (errno_of flt))) w1)
    | None => (Done None,
               emit (EvRemoveAll p None) (set_fs (remove_tree p (w_fs w1)) w1))
    end.

(** [os.ReadDir]: the entries sorted by name.  The error is held as the bare
    reason; Go wraps it as [open <dir>: <reason>], a text no statement below
    depends on. *)
Definition ReadDir (d : path) : M (res (list string)) :=
  fun w =>
    let (f, w1) := pop_fault w in
    let finish (r : res (list string)) (e : error) :=
      (Done r, emit (EvReadDir d e) w1) in
    match f with
    | Some flt => finish (Err (errno_of flt)) (Some (errno_of flt))
    | None =>
        match node_at (w_fs w1) d with
        | Some Dir => finish (Ok (entries d (w_fs w1))) None
        | Some (File _) => finish (Err "not a directory") (Some "not a directory")
        | None => finish (Err "no such file or directory")
                         (Some "no such file or directory")
        end
    end.

(** An open file is known by the path it was opened at. *)
Definition handle := path.

(** [os.Open]: a directory opens too; reading it is what fails. *)
Definition Open (p : path) : M (res handle) :=
  fun w =>
    let (f, w1) := pop_fault w in
    let finish (r : res handle) (e : error) := (Done r, emit (EvOpen p e) w1) in
    match f with
    | Some flt => finish (Err (errno_of flt)) (Some (errno_of flt))
    | None =>
        match node_at (w_fs w1) p with
        | Some _ => finish (Ok p) None
        | None => finish (Err "no such file or directory")
                         (Some "no such file or directory")
        end
    end.

(** [os.Create]: the file is created, or truncated when it exists. *)
Definition Create (p : path) : M (res handle) :=
  fun w =>
    let (f, w1) := pop_fault w in
    let fail (e : string) := (Done (Err e), emit (EvCreate p (Some e)) w1) in
    match f with
    | Some flt => fail (errno_of flt)
    | None =>
        match node_at (w_fs w1) p, node_at (w_fs w1) (removelast p) with
        | Some Dir, _ => fail "is a directory"
        | _, Some Dir =>
            (Done (Ok p),
             emit (EvCreate p None) (set_fs (<[p := File ""]> (w_fs w1)) w1))
        | _, Some (File _) => fail "not a directory"
        | _, None => fail "no such file or directory"
        end
    end.

(** [io.Copy(dst, src)]: the bytes of [src] are written to [dst] until the
    end of [src] or the first failure. *)
Definition Copy (dst src : handle) : M error :=
  fun w =>
    let (f, w1) := pop_fault w in
    let finish (e : error) (w2 : world) := (Done e, emit (EvCopy dst src e) w2) in
    match node_at (w_fs w1) src with
    | Some (File data) =>
        match f with
        | Some (ShortWrite n e) =>
            finish (Some e)
              (set_fs (<[dst := File (String.substring 0 n data)]> (w_fs w1)) w1)
        | Some (Fault e) => finish (Some e) w1
        | None => finish None (set_fs (<[dst := File data]> (w_fs w1)) w1)
        end
    | Some Dir => finish (Some (default "is a directory" (errno_of <$> f))) w1
    | None => finish (Some (default "bad file descriptor" (errno_of <$> f))) w1
    end.

End os.

Import os.

Declare Scope go_scope.
Delimit Scope go_scope with go.
Notation "x <- m ;; k" := (bind m (fun x => k))
  (at level 100, m at next level, k at level 200, right associativity) : go_scope.
Notation "m ;; k" := (bind m (fun _ => k))
  (at level 100, k at level 200, right associativity) : go_scope.
Local Open Scope go_scope.

(** ** External commands: [os/exec] *)

Module exec.

(** [cmd.StdoutPipe()] and [cmd.StderrPipe()]. *)
Definition Pipe : M error :=
  fun w =>
    let (f, w1) := pop_fault w in
    (Done (errno_of <$> f), emit (EvPipe (errno_of <$> f)) w1).

(** [cmd.Start()]: the program runs on the file system; what it printed and
    how it ended are read later from the started process.  The run of the
    program is taken as one step: that a program may never exit, or block on
    a full pipe, is outside the model: what is stated of a function that
    waits for a program holds when that function returns. *)
Definition Start (argv : list string) : M (res proc) :=
  fun w =>
    let (f, w1) := pop_fault w in
    match f with
    | Some flt => (Done (Err (errno_of flt)),
                   emit (EvStart argv (Some (errno_of flt))) w1)
    | None =>
        let p := w_spawn w1 argv (w_fs w1) in
        match pr_start p with
        | Some e => (Done (Err e), emit (EvStart argv (Some e)) w1)
        | None => (Done (Ok p), emit (EvStart argv None) (set_fs (pr_fs p) w1))
        end
    end.

(** [io.ReadAll] on a pipe of the started process. *)
Definition ReadAll (stream : string) : M (res string) :=
  fun w =>
    let (f, w1) := pop_fault w in
    match f with
    | Some flt => (Done (Err (errno_of flt)), emit (EvReadAll (Some (errno_of flt))) w1)
    | None => (Done (Ok stream), emit (EvReadAll None) w1)
    end.

(** [cmd.Wait()] *)
Definition Wait (argv : list string) (p : proc) : M error :=
  fun w =>
    let (f, w1) := pop_fault w in
    let e := match f with Some flt => Some (errno_of flt) | None => pr_wait p end in
    (Done e, emit (EvWait argv e) w1).

(** [cmd.Run()] is [Start] followed by [Wait]. *)
Definition Run (argv : list string) : M error :=
  r <- Start argv;;
  match r with
  | Err e => ret (Some e)
  | Ok p => Wait argv p
  end.

End exec.

(** ** Package [util] *)

Module util.

Definition LanguageGo := "golang".
Definition LanguageRuby := "ruby".
Definition LanguagePython := "python".
Definition LanguageJava := "java".
Definition LanguageJavascript := "javascript".

Definition ServiceAudit := "audit".
Definition ServiceAuthorization := "authorization".
Definition ServiceCatalog := "catalog".
Definition ServiceCategory := "category".
Definition ServiceDataspec := "dataspec".
Definition ServiceExports := "exports".
Definition ServiceGrants := "grants".
Definition ServiceJabba := "jabba".
Definition ServiceOrganizations := "organizations".
Definition ServiceParser := "parser".
Definition ServiceQuery := "query".
Definition ServiceReferences := "references".
Definition ServiceSearch := "search".
Definition ServiceSources := "sources".
Definition ServiceTaskrunner := "taskrunner".
Definition ServiceUploads := "uploads".
Definition ServiceWarehouses := "warehouses".

(** A [case a, b, c:] clause of a [switch] on a string. *)
Definition case_of (s : string) (labels : list string) : bool :=
  existsb (String.eqb s) labels.

Definition IsValidLanguage (lang : string) : bool :=
  if case_of lang [LanguageGo; LanguageRuby; LanguagePython; LanguageJava;
                   LanguageJavascript]
  then true
  else false.

Definition IsValidPublicService (s : string) : bool :=
  if case_of s [ServiceAuthorization; ServiceCatalog; ServiceCategory;
                ServiceDataspec; ServiceExports; ServiceGrants;
                ServiceOrganizations; ServiceQuery; ServiceReferences;
                ServiceSearch; ServiceSources; ServiceUploads;
                ServiceWarehouses]
  then true
  else false.

Definition IsValidPrivateService (s : string) : bool :=
  if case_of s [ServiceAudit; ServiceJabba; ServiceParser; ServiceCatalog;
                ServiceCategory; ServiceExports; ServiceGrants;
                ServiceOrganizations; ServiceQuery; ServiceReferences;
                ServiceSources; ServiceWarehouses; ServiceTaskrunner]
  then true
  else false.

Definition CleanUpDirectories (dir : path) : M unit :=
  err <- RemoveAll dir;;
  match err with
  | Some e =>
      log_Fatalf ("Error: Could not remove directory '" +:+ path_string dir
                  +:+ "': " +:+ e)
  | None => ret tt
  end.

Definition CloneService (service : string) (dir : path) : M (res path) :=
  let src := Join dir [service] in
  err <- exec.Run ["git"; "clone";
                   "git@github.com:asmahood/" +:+ service +:+ ".git";
                   path_string src];;
  match err with
  | Some e => ret (Err ("failed to clone service: " +:+ e))
  | None => ret (Ok src)
  end.

(** The [for _, f := range files] loop of [CopyProtobuf].  The deferred
    [Close] calls change no file content and are left out; the source
    discards their results. *)
Fixpoint CopyProtobuf_range (service : string) (serviceProtoDir protoDir : path)
    (files : list string) : M error :=
  match files with
  | [] => ret None
  | f :: rest =>
      if negb (String.eqb (Ext f) ".proto")
      then CopyProtobuf_range service serviceProtoDir protoDir rest
      else
        r <- Open (Join serviceProtoDir [f]);;
        match r with
        | Err e => ret (Some ("cannot open source protobuf file: " +:+ e))
        | Ok src =>
            r <- Create (Join protoDir [service +:+ ".proto"]);;
            match r with
            | Err e => ret (Some ("cannot create protobuf file: " +:+ e))
            | Ok dst =>
                err <- Copy dst src;;
                match err with
                | Some e => ret (Some ("cannot copy protobuf file: " +:+ e))
                | None =>
                    CopyProtobuf_range service serviceProtoDir protoDir rest
                end
            end
        end
  end.

Definition CopyProtobuf (service : string) (serviceDir protoDir : path)
    (private : bool) : M error :=
  let serviceProtoDir :=
    if private then Join serviceDir ["proto"; "private"]
    else Join serviceDir ["proto"; "public"] in
  r <- ReadDir serviceProtoDir;;
  match r with
  | Err e => ret (Some ("failed to read service protobuf directory: " +:+ e))
  | Ok files => CopyProtobuf_range service serviceProtoDir protoDir files
  end.

Definition goGenerateCmd (service : string) (dir : path) : list string :=
  ["protoc";
   "--twirp_out=paths=source_relative:" +:+ path_string dir;
   "--go_out=paths=source_relative:" +:+ path_string dir;
   "--proto_path=" +:+ path_string dir;
   path_string (Join dir [service +:+ ".proto"])].

Definition rubyGenerateCmd (service : string) (dir : path) : list string :=
  ["protoc";
   "--proto_path=" +:+ path_string dir;
   "--twirp_ruby_out=" +:+ path_string dir;
   "--ruby_out=" +:+ path_string dir;
   path_string (Join dir [service +:+ ".proto"])].

Definition pythonGenerateCmd (service : string) (dir : path) : list string :=
  ["protoc";
   "--proto_path=" +:+ path_string dir;
   "--twirpy_out=" +:+ path_string dir;
   "--python_out=" +:+ path_string dir;
   path_string (Join dir [service +:+ ".proto"])].

Definition javascriptGenerateCmd (service : string) (dir : path) : list string :=
  ["protoc";
   "--proto_path=" +:+ path_string dir;
   "--twirp_js_out=" +:+ path_string dir;
   "--js_out=import_style=commonjs,binary:" +:+ path_string dir;
   path_string (Join dir [service +:+ ".proto"])].

(** The [switch language] of [GenerateCode]; [None] is its [default]. *)
Definition protocCmd_of (language service : string) (dir : path)
    : option (list string) :=
  if case_of language [LanguageGo] then Some (goGenerateCmd service dir)
  else if case_of language [LanguageRuby] then Some (rubyGenerateCmd service dir)
  else if case_of language [LanguagePython] then Some (pythonGenerateCmd service dir)
  else if case_of language [LanguageJavascript]
       then Some (javascriptGenerateCmd service dir)
  else None.

Definition nl : string := String (ascii_of_nat 10) "".

Definition GenerateCode (language service : string) (dir : path) : M error :=
  match protocCmd_of language service dir with
  | None => ret (Some "no command has been implemented for this language")
  | Some protocCmd =>
      err <- exec.Pipe;;
      match err with
      | Some e => ret (Some ("failed to pipe command output: " +:+ e))
      | None =>
      err <- exec.Pipe;;
      match err with
      | Some e => ret (Some ("failed to pipe command error output: " +:+ e))
      | None =>
      r <- exec.Start protocCmd;;
      match r with
      | Err e => ret (Some ("failed to start client generator: " +:+ e))
      | Ok p =>
      r <- exec.ReadAll (pr_stdout p);;
      match r with
      | Err e => ret (Some ("failed to read output from command: " +:+ e))
      | Ok logs =>
      (if 0 <? String.length logs
       then log_Printf (nl +:+ nl +:+ logs +:+ nl +:+ nl)
       else ret tt);;
      r <- exec.ReadAll (pr_stderr p);;
      match r with
      | Err e => ret (Some ("failed to read error from command: " +:+ e))
      | Ok logs =>
      (if 0 <? String.length logs
       then log_Printf ("Generator encountered error:" +:+ nl +:+ nl +:+ logs +:+ nl)
       else ret tt);;
      err <- exec.Wait protocCmd p;;
      match err with
      | Some e => ret (Some ("failed to run generator command: " +:+ e))
      | None => ret None
      end end end end end end
  end.

(** The [for _, f := range files] loop of [CopyGeneratedFiles]. *)
Fixpoint CopyGeneratedFiles_range (cwd protoDir : path) (outputPath : string)
    (files : list string) : M error :=
  match files with
  | [] => ret None
  | f :: rest =>
      if String.eqb (Ext f) ".proto"
      then CopyGeneratedFiles_range cwd protoDir outputPath rest
      else
        r <- Open (Join protoDir [f]);;
        match r with
        | Err e => ret (Some ("failed to open generated file: " +:+ e))
        | Ok src =>
            r <- Create (Join cwd [outputPath; f]);;
            match r with
            | Err e =>
                ret (Some ("failed to create generated file in output: " +:+ e))
            | Ok dst =>
                err <- Copy dst src;;
                match err with
                | Some e =>
                    ret (Some ("failed to copy generated file to output: " +:+ e))
                | None =>
                    CopyGeneratedFiles_range cwd protoDir outputPath rest
                end
            end
        end
  end.

Definition CopyGeneratedFiles (protoDir : path) (outputPath : string) : M error :=
  r <- Getwd;;
  match r with
  | Err e => ret (Some ("cannot locate current working directory: " +:+ e))
  | Ok cwd =>
      r <- ReadDir protoDir;;
      match r with
      | Err e => ret (Some ("failed to read protobuf directory: " +:+ e))
      | Ok files => CopyGeneratedFiles_range cwd protoDir outputPath files
      end
  end.

End util.

(** ** Package [cmd] *)

Module cmd.

Import util.

(** The [Run] function of [rootCmd], over the four flag variables. *)
Definition Run (language service : string) (private : bool)
    (outputPath : string) : M unit :=
  (if negb (IsValidLanguage language)
   then log_Fatalf ("Error: Client code generation is not supported for '"
                    +:+ language +:+ "'" +:+ nl)
   else ret tt);;
  (if negb private && negb (IsValidPublicService service)
   then log_Fatalf ("Error: The service '" +:+ service
                    +:+ "' does not have a public protobuf defined" +:+ nl)
   else ret tt);;
  (if private && negb (IsValidPrivateService service)
   then log_Fatalf ("Error: The service '" +:+ service
                    +:+ "' does not have a private protobuf defined" +:+ nl)
   else ret tt);;
  tmp <- TempDir;;
  r <- MkdirTemp tmp "client-generation-";;
  match r with
  | Err e => log_Fatalf ("Error: Cannot create temporary directory: " +:+ e +:+ nl)
  | Ok tmpDir =>
      defer (CleanUpDirectories tmpDir)
        (log_Printf ("Created temporary directory " +:+ path_string tmpDir);;
         let protoDir := Join tmpDir ["proto"] in
         err <- Mkdir protoDir;;
         match err with
         | Some e =>
             CleanUpDirectories tmpDir;;
             log_Fatalf ("Error: Cannot create protobuf directory: " +:+ e)
         | None =>
         r <- CloneService service tmpDir;;
         match r with
         | Err e => CleanUpDirectories tmpDir;; log_Fatalf ("Error: " +:+ e)
         | Ok serviceDir =>
         err <- CopyProtobuf service serviceDir protoDir private;;
         match err with
         | Some e => CleanUpDirectories tmpDir;; log_Fatalf ("Error: " +:+ e)
         | None =>
         err <- GenerateCode language service protoDir;;
         match err with
         | Some e => CleanUpDirectories tmpDir;; log_Fatalf ("Error: " +:+ e)
         | None =>
         err <- CopyGeneratedFiles protoDir outputPath;;
         match err with
         | Some e => CleanUpDirectories tmpDir;; log_Fatalf ("Error: " +:+ e)
         | None => ret tt
         end end end end end)
  end.

(** One run of the program from an operating-system state: the trace starts
    empty. *)
Definition boot (m : fsmap) (script : list (option fault)) (rand : list string)
    (tempdir cwd : path) (spawn : list string → fsmap → proc) : world :=
  {| w_fs := m; w_script := script; w_rand := rand; w_tempdir := tempdir;
     w_cwd := cwd; w_spawn := spawn; w_trace := [] |}.

End cmd.

Import util cmd.

(** * Vocabulary of the specification *)

(** The workspaces a trace shows created, and the trees it shows removed. *)
Definition created (evs : list event) : list path :=
  omap (fun e => match e with EvMkdirTemp (Ok p) => Some p | _ => None end) evs.

Definition removed (evs : list event) : list path :=
  omap (fun e => match e with EvRemoveAll p _ => Some p | _ => None end) evs.

(** From [w] a computation only appends to the trace; [P] holds of how it
    ends, of what it appended and of the world it leaves. *)
Definition appends_at {A} (m : M A) (w : world)
    (P : outcome A → list event → world → Prop) : Prop :=
  ∃ evs, w_trace (m w).2 = w_trace w ++ evs ∧ P (m w).1 evs (m w).2.

Definition appends {A} (m : M A) (P : outcome A → list event → world → Prop)
    : Prop :=
  ∀ w, appends_at m w P.

(** Neither a workspace creation nor a removal. *)
Definition plain (evs : list event) : Prop :=
  created evs = [] ∧ removed evs = [].

(** A computation that returns and neither creates nor removes a workspace. *)
Definition quiet {A} (m : M A) : Prop :=
  appends m (fun o evs _ => (∃ a, o = Done a) ∧ plain evs).

(** When the events show [tmpDir] removed without error, the world has
    nothing at or below it. *)
Definition swept (tmpDir : path) (evs : list event) (w : world) : Prop :=
  EvRemoveAll tmpDir None ∈ evs →
  ∀ p, tmpDir `prefix_of` p → w_fs w !! p = None.

(** What the stages between creation and the deferred call leave: no removal
    when they return, one removal of the workspace when the process exits. *)
Definition staged (tmpDir : path) (o : outcome unit) (evs : list event)
    (w : world) : Prop :=
  created evs = [] ∧
  match o with
  | Done _ => removed evs = []
  | Fatal _ => removed evs = [tmpDir] ∧ swept tmpDir evs w
  end.

(** Rejected by validation: the process ends with a message and has done
    nothing else. *)
Definition rejected (language service : string) (private : bool)
    (outputPath : string) (w : world) : Prop :=
  ∃ msg, Run language service private outputPath w
         = (Fatal msg, emit (EvLog msg) w).

(** The run once the three gates are passed. *)
Definition admitted_trace (o : outcome unit) (evs : list event) (w : world)
    : Prop :=
  ∃ r rest, evs = EvMkdirTemp r :: rest
            ∧ created evs = removed evs
            ∧ created evs = match r with Ok t => [t] | Err _ => [] end
            ∧ ∀ t, r = Ok t → swept t evs w.

(** The canonical file is as it was, or a whole copy of a qualifying file. *)
Definition untouched_or_whole (srcdir : path) (names : list string)
    (m m' : fsmap) (canon : path) : Prop :=
  m' !! canon = m !! canon
  ∨ ∃ n data, n ∈ names ∧ Ext n = ".proto"
              ∧ m !! (srcdir ++ [n]) = Some (File data)
              ∧ m' !! canon = Some (File data).

(** [part] is what reached the destination before a copy failed. *)
Definition cut_short (srcdir : path) (names : list string) (m : fsmap)
    (part : string) : Prop :=
  part = ""
  ∨ ∃ n data k, n ∈ names ∧ Ext n = ".proto"
                ∧ m !! (srcdir ++ [n]) = Some (File data)
                ∧ part = String.substring 0 k data.

(** What an error inside the loop of [CopyProtobuf] says about the canonical
    file. *)
Inductive range_failure (srcdir : path) (names : list string)
    (m m' : fsmap) (canon : path) : string → Prop :=
| OpenFailed e :
    untouched_or_whole srcdir names m m' canon →
    range_failure srcdir names m m' canon
      ("cannot open source protobuf file: " +:+ e)
| CreateFailed e :
    untouched_or_whole srcdir names m m' canon →
    range_failure srcdir names m m' canon
      ("cannot create protobuf file: " +:+ e)
| CopyFailed e part :
    m' !! canon = Some (File part) →
    cut_short srcdir names m part →
    range_failure srcdir names m m' canon
      ("cannot copy protobuf file: " +:+ e).

(** What an error of [CopyProtobuf] says about it. *)
Inductive extraction_failure (srcdir : path) (names : list string)
    (m m' : fsmap) (canon : path) : string → Prop :=
| ReadDirFailed e :
    m' = m →
    extraction_failure srcdir names m m' canon
      ("failed to read service protobuf directory: " +:+ e)
| RangeFailed msg :
    range_failure srcdir names m m' canon msg →
    extraction_failure srcdir names m m' canon msg.

(** The next [n] system calls meet no injected fault. *)
Definition no_fault_next (n : nat) (w : world) : bool :=
  forallb (fun f => match f with None => true | Some _ => false end)
          (take n (w_script w)).

(** The paths that collection writes: one per staged entry that is not an
    interface definition. *)
Definition collected (outdir : path) (files : list string) (p : path) : Prop :=
  ∃ n, n ∈ files ∧ Ext n ≠ ".proto" ∧ p = outdir ++ [n].

(** C8 as the specification states it: whenever [CopyProtobuf] returns an
    error, staging shows no canonical file or a whole copy of a qualifying
    file. *)
Definition never_half_written (service : string) (serviceDir protoDir : path)
    (private : bool) (w : world) : Prop :=
  let srcdir := if private then Join serviceDir ["proto"; "private"]
                else Join serviceDir ["proto"; "public"] in
  let canon := Join protoDir [service +:+ ".proto"] in
  let r := CopyProtobuf service serviceDir protoDir private w in
  ∀ msg, r.1 = Done (Some msg) →
         w_fs r.2 !! canon = None
         ∨ ∃ n data, n ∈ entries srcdir (w_fs w) ∧ Ext n = ".proto"
                     ∧ w_fs w !! (srcdir ++ [n]) = Some (File data)
                     ∧ w_fs r.2 !! canon = Some (File data).

(** C9 as the specification states it: whatever the removal reports,
    [CleanUpDirectories] gives control back to its caller, and so does a
    second call on the same path. *)
Definition never_crashes_caller (dir : path) (w : world) : Prop :=
  ∃ w1 w2, CleanUpDirectories dir w = (Done tt, w1)
           ∧ CleanUpDirectories dir w1 = (Done tt, w2).

(** ** A machine to run the pipeline on *)

Module Scenario.

Definition workspace : path := ["tmp"; "client-generation-123"].

(** What [git clone] leaves at [src]. *)
Definition clone_tree (src : path) (m : fsmap) : fsmap :=
  <[src ++ ["proto"; "public"; "types.proto"] :=
      File "syntax = proto3; message Item {}"]>
  (<[src ++ ["proto"; "public"; "catalog.proto"] :=
      File "syntax = proto3; service Catalog {}"]>
  (<[src ++ ["proto"; "public"; "README.md"] := File "# catalog"]>
  (<[src ++ ["proto"; "public"] := Dir]>
  (<[src ++ ["proto"] := Dir]>
  (<[src := Dir]> m))))).

(** What [protoc] writes next to its input. *)
Definition generated (dir : path) (m : fsmap) : fsmap :=
  <[dir ++ ["catalog.twirp.go"] := File "package catalog // twirp"]>
  (<[dir ++ ["catalog.pb.go"] := File "package catalog"]> m).

Definition spawn (argv : list string) (m : fsmap) : proc :=
  match argv with
  | ["git"; "clone"; _; src] =>
      {| pr_start := None; pr_fs := clone_tree (Join [] [src]) m;
         pr_stdout := ""; pr_stderr := "Cloning..."; pr_wait := None |}
  | ["protoc"; _; _; _; input] =>
      {| pr_start := None;
         pr_fs := generated (removelast (Join [] [input])) m;
         pr_stdout := ""; pr_stderr := ""; pr_wait := None |}
  | _ =>
      {| pr_start := Some "executable file not found in $PATH"; pr_fs := m;
         pr_stdout := ""; pr_stderr := ""; pr_wait := None |}
  end.

Definition disk : fsmap :=
  <[["work"; "out"] := Dir]> (<[["work"] := Dir]> (<[["tmp"] := Dir]> ∅)).

(** The machine before a run, with the faults to inject. *)
Definition machine (script : list (option fault)) : world :=
  boot disk script ["123"] ["tmp"] ["work"] spawn.

(** The [k]-th system call of the run fails. *)
Definition failing_at (k : nat) : list (option fault) :=
  replicate k None ++ [Some (Fault "input/output error")].

(** The machine inside a run, after the clone. *)
Definition cloned (script : list (option fault)) : world :=
  boot (clone_tree (workspace ++ ["catalog"])
          (<[workspace ++ ["proto"] := Dir]> (<[workspace := Dir]> disk)))
       script [] ["tmp"] ["work"] spawn.

(** The disk fills up six bytes into the first copy. *)
Definition disk_full : world :=
  cloned [None; None; None; Some (ShortWrite 6 "no space left on device")].

(** A clone whose public directory holds no interface definition. *)
Definition docs_only : world :=
  boot (<[workspace ++ ["catalog"; "proto"; "public"; "README.md"] :=
            File "# catalog"]>
        (<[workspace ++ ["catalog"; "proto"; "public"] := Dir]>
        (<[workspace ++ ["catalog"; "proto"] := Dir]>
        (<[workspace ++ ["catalog"] := Dir]>
        (<[workspace ++ ["proto"] := Dir]> (<[workspace := Dir]> disk))))))
       [] [] ["tmp"] ["work"] spawn.

(** The machine inside a run, after the compiler has run. *)
Definition compiled : world :=
  boot (generated (workspace ++ ["proto"])
          (<[workspace ++ ["proto"; "catalog.proto"] :=
               File "syntax = proto3; message Item {}"]>
           (<[workspace ++ ["proto"] := Dir]> (<[workspace := Dir]> disk))))
       [] [] ["tmp"] ["work"] spawn.

End Scenario.

(** ** Vocabulary of the further properties *)

(** The values a computation can return. *)
Definition returns_in {A} (m : M A) (S : A → Prop) : Prop :=
  ∀ w a w', m w = (Done a, w') → S a.

(** How a run ends: a return right after the removal of the workspace
    reported no error, or an exit right after its message was logged. *)
Definition ending (o : outcome unit) (evs : list event) : Prop :=
  match o with
  | Done _ => ∃ pre tmpDir, evs = pre ++ [EvRemoveAll tmpDir None]
  | Fatal msg => (∃ pre, evs = pre ++ [EvLog msg])
                 ∧ ∃ rest, msg = "Error: " +:+ rest
  end.

(** What the body of [Run] needs before the deferred call. *)
Definition reported (o : outcome unit) (evs : list event) : Prop :=
  match o with
  | Done _ => True
  | Fatal msg => ending (Fatal msg) evs
  end.


(** The part of [Run] that holds the workspace, from the [defer] to the
    end. *)
Definition stages (language service : string) (private : bool)
    (outputPath : string) (tmpDir : path) : M unit :=
  defer (CleanUpDirectories tmpDir)
    (log_Printf ("Created temporary directory " +:+ path_string tmpDir);;
     let protoDir := Join tmpDir ["proto"] in
     err <- Mkdir protoDir;;
     match err with
     | Some e =>
         CleanUpDirectories tmpDir;;
         log_Fatalf ("Error: Cannot create protobuf directory: " +:+ e)
     | None =>
     r <- CloneService service tmpDir;;
     match r with
     | Err e => CleanUpDirectories tmpDir;; log_Fatalf ("Error: " +:+ e)
     | Ok serviceDir =>
     err <- CopyProtobuf service serviceDir protoDir private;;
     match err with
     | Some e => CleanUpDirectories tmpDir;; log_Fatalf ("Error: " +:+ e)
     | None =>
     err <- GenerateCode language service protoDir;;
     match err with
     | Some e => CleanUpDirectories tmpDir;; log_Fatalf ("Error: " +:+ e)
     | None =>
     err <- CopyGeneratedFiles protoDir outputPath;;
     match err with
     | Some e => CleanUpDirectories tmpDir;; log_Fatalf ("Error: " +:+ e)
     | None => ret tt
     end end end end end).

(** A computation that returns and emits only events of a class. *)
Definition emits {A} (ok : event → Prop) (m : M A) : Prop :=
  appends m (fun o evs _ => (∃ a, o = Done a) ∧ Forall ok evs).

(** The system calls of [CopyProtobuf], given the [names] the selected
    directory lists: it lists that directory, opens the child of that
    directory named by a listed name of extension .proto, and creates and
    writes the canonical file. *)
Inductive extraction_event (srcdir canon : path) (names : list string)
    : event → Prop :=
| ExtReadDir e : extraction_event srcdir canon names (EvReadDir srcdir e)
| ExtOpen n e :
    n ∈ names → Ext n = ".proto" →
    extraction_event srcdir canon names (EvOpen (srcdir ++ [n]) e)
| ExtCreate e : extraction_event srcdir canon names (EvCreate canon e)
| ExtCopy n e :
    n ∈ names → Ext n = ".proto" →
    extraction_event srcdir canon names (EvCopy canon (srcdir ++ [n]) e).

(** The system calls of [CopyGeneratedFiles], given the [names] staging
    lists: it asks for the working directory, lists staging, opens the child
    of staging named by a listed name whose extension is not .proto, and
    creates and writes the child of that name of the output directory
    [outdir]. *)
Inductive collection_event (outdir protoDir : path) (names : list string)
    : event → Prop :=
| ColGetwd e : collection_event outdir protoDir names (EvGetwd e)
| ColReadDir e : collection_event outdir protoDir names (EvReadDir protoDir e)
| ColOpen n e :
    n ∈ names → Ext n ≠ ".proto" →
    collection_event outdir protoDir names (EvOpen (protoDir ++ [n]) e)
| ColCreate n e :
    n ∈ names → Ext n ≠ ".proto" →
    collection_event outdir protoDir names (EvCreate (outdir ++ [n]) e)
| ColCopy n e :
    n ∈ names → Ext n ≠ ".proto" →
    collection_event outdir protoDir names
      (EvCopy (outdir ++ [n]) (protoDir ++ [n]) e).

(** No file is created. *)
Definition no_create (ev : event) : Prop :=
  match ev with EvCreate _ _ => False | _ => True end.

(** A file is created at [canon] only. *)
Definition creates_only (canon : path) (ev : event) : Prop :=
  match ev with EvCreate p _ => p = canon | _ => True end.

(** Every creation of a file other than [canon] comes after an event of the
    class [guard]. *)
Definition creates_guarded (canon : path) (guard : event → Prop)
    (evs : list event) : Prop :=
  ∀ pre p e post, evs = pre ++ EvCreate p e :: post →
                  p = canon ∨ ∃ g, guard g ∧ g ∈ pre.

(** The compiler command of the run has exited with status zero. *)
Definition compiled_ok (language service : string) (protoDir : path)
    (ev : event) : Prop :=
  ∃ argv, protocCmd_of language service protoDir = Some argv
          ∧ ev = EvWait argv None.


(** The message [CleanUpDirectories] ends the process with. *)
Definition removal_message (p : path) (e : string) : string :=
  "Error: Could not remove directory '" +:+ path_string p +:+ "': " +:+ e.

(** A removal that failed is what the process exited on. *)
Definition removal_decides {A} (o : outcome A) (evs : list event) : Prop :=
  ∀ p e, EvRemoveAll p (Some e) ∈ evs → o = Fatal (removal_message p e).

(** What the body of [Run] leaves before the deferred call: no removal when
    it returns. *)
Definition removal_pending {A} (o : outcome A) (evs : list event) : Prop :=
  match o with
  | Done _ => removed evs = []
  | Fatal msg => removal_decides (Fatal (A:=A) msg) evs
  end.


(** The error a system call of the trace reported.  The trace records the
    calls whose result the program looks at. *)
Definition event_error (ev : event) : error :=
  match ev with
  | EvMkdirTemp (Ok _) => None
  | EvMkdirTemp (Err e) => Some e
  | EvMkdir _ e | EvRemoveAll _ e | EvReadDir _ e | EvOpen _ e | EvCreate _ e
  | EvCopy _ _ e | EvGetwd e | EvPipe e | EvStart _ e | EvReadAll e
  | EvWait _ e => e
  | EvLog _ => None
  end.

Definition went_well (evs : list event) : Prop :=
  Forall (fun ev => event_error ev = None) evs.

(** When [m] returns a [good] value, the condition [pre] on what it was given
    held and no event it added reports an error. *)
Definition checked {A} (pre : Prop) (good : A → Prop) (m : M A) : Prop :=
  appends m (fun o evs _ => ∀ a, o = Done a → good a → pre ∧ went_well evs).

Definition is_ok {A} (r : res A) : Prop :=
  match r with Ok _ => True | Err _ => False end.

Definition is_nil (e : error) : Prop := e = None.

(** A compiler that looks for its input: [protoc] exits with status 1 when
    the file its last argument names is not there; everything else runs as
    on the scenario machine. *)
Definition strict_spawn (argv : list string) (m : fsmap) : proc :=
  match argv with
  | ["protoc"; _; _; _; input] =>
      match m !! Join [] [input] with
      | Some (File _) => Scenario.spawn argv m
      | _ =>
          {| pr_start := None; pr_fs := m; pr_stdout := "";
             pr_stderr := input +:+ ": No such file or directory";
             pr_wait := Some "exit status 1" |}
      end
  | _ => Scenario.spawn argv m
  end.

(** * Properties *)

(** ** Paths and directory listings *)

Lemma ext_scan_suffix s r :
  ext_scan s = Some r → r ≠ "" → ∃ stem, s = stem +:+ r.
Proof.
  revert r. induction s as [|c s IH]; intros r; simpl; [done|].
  destruct (ext_scan s) as [r'|] eqn:E.
  - intros [= <-] Hr. destruct (IH r' eq_refl Hr) as [stem ->].
    by exists (String c stem).
  - destruct (Ascii.eqb c dot).
    + intros [= <-] _. by exists "".
    + destruct (Ascii.eqb c sep); [by intros [= <-]|done].
Qed.

Lemma ext_scan_proto stem : ext_scan (stem +:+ ".proto") = Some ".proto".
Proof. induction stem as [|c stem IH]; simpl; [done|]. by rewrite IH. Qed.

Lemma Ext_proto_iff n : Ext n = ".proto" ↔ ∃ stem, n = stem +:+ ".proto".
Proof.
  split.
  - unfold Ext. destruct (ext_scan n) as [r|] eqn:E; simpl; [|done].
    intros ->. by apply ext_scan_suffix in E.
  - intros [stem ->]. unfold Ext. by rewrite ext_scan_proto.
Qed.

Lemma components_no_sep n : no_sep n = true → components n = [n].
Proof.
  induction n as [|c n IH]; simpl; [done|].
  destruct (Ascii.eqb c sep); simpl; [done|].
  intros H. by rewrite (IH H).
Qed.

Lemma push_valid p n : valid_name n = true → push p n = p ++ [n].
Proof.
  unfold valid_name, push. intros H.
  repeat (apply andb_prop in H as [H ?]).
  by repeat (destruct (String.eqb n _); simpl in *; try done).
Qed.

Lemma Join_name d n : valid_name n = true → Join d [n] = d ++ [n].
Proof.
  intros H. unfold Join. simpl. rewrite app_nil_r.
  rewrite components_no_sep; [by apply push_valid|].
  unfold valid_name in H. by repeat (apply andb_prop in H as [H ?]).
Qed.

Lemma Join_names d names :
  Forall (fun n => valid_name n = true) names → Join d names = d ++ names.
Proof.
  intros H. revert d. induction H as [|n names Hn _ IH]; intros d.
  - unfold Join. simpl. by rewrite app_nil_r.
  - change (n :: names) with ([n] ++ names) at 1.
    unfold Join in *. rewrite flat_map_app, fold_left_app.
    change (fold_left push (flat_map components [n]) d) with (Join d [n]).
    rewrite (Join_name d n Hn), IH, <- app_assoc. done.
Qed.

Lemma Join_snoc d e n :
  valid_name n = true → Join d [e; n] = Join d [e] ++ [n].
Proof.
  intros H. unfold Join. simpl. rewrite !app_nil_r, fold_left_app.
  rewrite (components_no_sep n); [by apply push_valid|].
  unfold valid_name in H. by repeat (apply andb_prop in H as [H ?]).
Qed.

Lemma child_name_Some (d p : path) (n : string) : child_name d p = Some n ↔ p = d ++ [n].
Proof.
  unfold child_name. split.
  - destruct (last p) as [x|]; [|done]. case_decide; [|done]. by intros [= <-].
  - intros ->. rewrite last_snoc. by rewrite decide_True.
Qed.

Lemma elem_of_entries (d : path) (m : fsmap) (n : string) :
  n ∈ entries d m ↔ valid_name n = true ∧ is_Some (m !! (d ++ [n])).
Proof.
  unfold entries. rewrite merge_sort_Permutation.
  rewrite list_elem_of_filter, list_elem_of_omap. split.
  - intros [Hv [[p x] [Hin Hc]]]. split; [done|].
    apply child_name_Some in Hc. simpl in Hc. subst p.
    apply elem_of_map_to_list in Hin. eauto.
  - intros [Hv [x Hx]]. split; [done|].
    exists (d ++ [n], x). split; [by apply elem_of_map_to_list|].
    by apply child_name_Some.
Qed.

Lemma remove_tree_lookup (d : path) (m : fsmap) (p : path) :
  remove_tree d m !! p = if decide (d `prefix_of` p) then None else m !! p.
Proof.
  unfold remove_tree. case_decide.
  - apply map_lookup_filter_None. right. intros x _. simpl. tauto.
  - destruct (m !! p) as [x|] eqn:E.
    + by apply map_lookup_filter_Some.
    + apply map_lookup_filter_None. by left.
Qed.

(** ** What a computation adds to the trace *)

Lemma created_app e1 e2 : created (e1 ++ e2) = created e1 ++ created e2.
Proof. apply omap_app. Qed.

Lemma removed_app e1 e2 : removed (e1 ++ e2) = removed e1 ++ removed e2.
Proof. apply omap_app. Qed.

Lemma plain_app e1 e2 : plain e1 → plain e2 → plain (e1 ++ e2).
Proof.
  intros [H1 H2] [H3 H4]. split.
  - by rewrite created_app, H1, H3.
  - by rewrite removed_app, H2, H4.
Qed.

Lemma removed_elem (p : path) (e : error) (evs : list event) :
  EvRemoveAll p e ∈ evs → p ∈ removed evs.
Proof.
  intros H. unfold removed. apply list_elem_of_omap.
  by exists (EvRemoveAll p e).
Qed.

Lemma swept_after tmpDir e1 e2 w :
  removed e1 = [] → swept tmpDir e2 w → swept tmpDir (e1 ++ e2) w.
Proof.
  intros Hr Hs Hin. apply Hs. apply elem_of_app in Hin as [Hin|Hin]; [|done].
  apply removed_elem in Hin. rewrite Hr in Hin. inversion Hin.
Qed.

Lemma appends_ret {A} (a : A) (P : outcome A → list event → world → Prop) :
  (∀ w, P (Done a) [] w) → appends (ret a) P.
Proof. intros H w. exists []. simpl. by rewrite app_nil_r. Qed.

Lemma appends_at_weaken {A} (m : M A) w
    (P Q : outcome A → list event → world → Prop) :
  appends_at m w P → (∀ o evs w', P o evs w' → Q o evs w') → appends_at m w Q.
Proof. intros (evs & ? & ?) HPQ. exists evs. eauto. Qed.

Lemma appends_weaken {A} (m : M A)
    (P Q : outcome A → list event → world → Prop) :
  appends m P → (∀ o evs w', P o evs w' → Q o evs w') → appends m Q.
Proof. intros H HPQ w. by apply appends_at_weaken with P. Qed.

(** [k] runs from the world [m] leaves. *)
Lemma appends_bind {A B} (m : M A) (k : A → M B)
    (P : outcome A → list event → world → Prop)
    (Q : outcome B → list event → world → Prop) :
  appends m P →
  (∀ a e1 w1, P (Done a) e1 w1 →
     appends_at (k a) w1 (fun o e2 w2 => Q o (e1 ++ e2) w2)) →
  (∀ msg e1 w1, P (Fatal msg) e1 w1 → Q (Fatal msg) e1 w1) →
  appends (bind m k) Q.
Proof.
  intros Hm Hk Hf w. unfold appends_at, bind.
  destruct (Hm w) as (e1 & Ht & HP). destruct (m w) as [[a|msg] w1]; simpl in *.
  - destruct (Hk a e1 w1 HP) as (e2 & Ht2 & HQ).
    exists (e1 ++ e2). by rewrite Ht2, Ht, app_assoc.
  - exists e1. eauto.
Qed.

Lemma appends_defer {A} (d : M unit) (body : M A)
    (P : outcome A → list event → world → Prop)
    (Q : outcome A → list event → world → Prop) :
  appends body P →
  (∀ a e1 w1, P (Done a) e1 w1 →
     appends_at d w1
       (fun o e2 w2 =>
          Q (match o with Done _ => Done a | Fatal msg => Fatal msg end)
            (e1 ++ e2) w2)) →
  (∀ msg e1 w1, P (Fatal msg) e1 w1 → Q (Fatal msg) e1 w1) →
  appends (defer d body) Q.
Proof.
  intros Hm Hk Hf w. unfold appends_at, defer.
  destruct (Hm w) as (e1 & Ht & HP). destruct (body w) as [[a|msg] w1]; simpl in *.
  - destruct (Hk a e1 w1 HP) as (e2 & Ht2 & HQ).
    exists (e1 ++ e2). destruct (d w1) as [[[]|msg] w2]; simpl in *;
      by rewrite Ht2, Ht, app_assoc.
  - exists e1. eauto.
Qed.

(** A quiet step before [k] leaves what [k] guarantees, when the guarantee
    does not look at plain events. *)
Lemma appends_after_quiet {A B} (m : M A) (k : A → M B)
    (Q : outcome B → list event → world → Prop) :
  quiet m →
  (∀ o e1 e2 w, plain e1 → Q o e2 w → Q o (e1 ++ e2) w) →
  (∀ a, appends (k a) Q) →
  appends (bind m k) Q.
Proof.
  intros Hm HQ Hk. eapply appends_bind; [exact Hm| |].
  - intros a e1 w1 [_ Hp]. eapply appends_at_weaken; [apply Hk|].
    intros o e2 w2. by apply HQ.
  - intros msg e1 w1 [[a [=]] _].
Qed.

Lemma quiet_ret {A} (a : A) : quiet (ret a).
Proof. apply appends_ret. intros _. split; [by eexists|done]. Qed.

Lemma quiet_bind {A B} (m : M A) (k : A → M B) :
  quiet m → (∀ a, quiet (k a)) → quiet (bind m k).
Proof.
  intros Hm Hk. apply appends_after_quiet; [done| |done].
  intros o e1 e2 w Hp [Ho Hp2]. split; [done|by apply plain_app].
Qed.

(** A system call that adds one plain event. *)
Lemma quiet_step {A} (m : M A) :
  (∀ w, ∃ a w1 e, m w = (Done a, emit e w1) ∧ w_trace w1 = w_trace w ∧ plain [e]) →
  quiet m.
Proof.
  intros H w. destruct (H w) as (a & w1 & e & Hm & Ht & Hp).
  exists [e]. rewrite Hm. simpl. rewrite Ht. split; [done|].
  split; [by eexists|done].
Qed.

Lemma pop_fault_trace w : w_trace (pop_fault w).2 = w_trace w.
Proof. unfold pop_fault. by destruct (w_script w). Qed.

Lemma pop_fault_fs w : w_fs (pop_fault w).2 = w_fs w.
Proof. unfold pop_fault. by destruct (w_script w). Qed.

Ltac quiet_syscall :=
  apply quiet_step; intros w;
  pose proof (pop_fault_trace w) as Ht;
  destruct (pop_fault w) as [f w1]; simpl in Ht |- *;
  repeat case_match; simpl;
  eexists _, _, _; (split; [reflexivity|]); split; simpl; done.

Lemma quiet_Printf msg : quiet (log_Printf msg).
Proof. apply quiet_step. intros w. by eexists _, _, _. Qed.

Lemma quiet_TempDir : quiet TempDir.
Proof. intros w. exists []. simpl. rewrite app_nil_r. split; [done|]. split; [by eexists|done]. Qed.

Lemma quiet_Getwd : quiet Getwd.
Proof. unfold Getwd. quiet_syscall. Qed.

Lemma quiet_Mkdir p : quiet (Mkdir p).
Proof. unfold Mkdir. quiet_syscall. Qed.

Lemma quiet_ReadDir d : quiet (ReadDir d).
Proof. unfold ReadDir. quiet_syscall. Qed.

Lemma quiet_Open p : quiet (Open p).
Proof. unfold Open. quiet_syscall. Qed.

Lemma quiet_Create p : quiet (Create p).
Proof. unfold Create. quiet_syscall. Qed.

Lemma quiet_Copy dst src : quiet (Copy dst src).
Proof. unfold Copy. quiet_syscall. Qed.

Lemma quiet_Pipe : quiet exec.Pipe.
Proof. unfold exec.Pipe. quiet_syscall. Qed.

Lemma quiet_Start argv : quiet (exec.Start argv).
Proof. unfold exec.Start. quiet_syscall. Qed.

Lemma quiet_ReadAll s : quiet (exec.ReadAll s).
Proof. unfold exec.ReadAll. quiet_syscall. Qed.

Lemma quiet_Wait argv p : quiet (exec.Wait argv p).
Proof. unfold exec.Wait. quiet_syscall. Qed.

Create HintDb quiet.
#[local] Hint Resolve quiet_ret quiet_Printf quiet_TempDir quiet_Getwd quiet_Mkdir
  quiet_ReadDir quiet_Open quiet_Create quiet_Copy quiet_Pipe quiet_Start
  quiet_ReadAll quiet_Wait : quiet.

(** Go through a body of binds and matches on results. *)
Ltac quiet_body :=
  repeat first
    [ progress auto with quiet
    | apply quiet_bind; [auto with quiet|intros ?; cbv beta]
    | match goal with
      | |- ∀ _, _ => intros ?; cbv beta
      | |- quiet (match ?x with _ => _ end) => destruct x
      | |- quiet (if ?x then _ else _) => destruct x
      end ].

Lemma quiet_Run argv : quiet (exec.Run argv).
Proof. unfold exec.Run. quiet_body. Qed.

Lemma quiet_CloneService service dir : quiet (CloneService service dir).
Proof. unfold CloneService. apply quiet_bind; [apply quiet_Run|]. quiet_body. Qed.

Lemma quiet_CopyProtobuf_range service src dst files :
  quiet (CopyProtobuf_range service src dst files).
Proof. induction files as [|f rest IH]; simpl; quiet_body. Qed.

Lemma quiet_CopyProtobuf service serviceDir protoDir private :
  quiet (CopyProtobuf service serviceDir protoDir private).
Proof.
  unfold CopyProtobuf. apply quiet_bind; [auto with quiet|].
  intros [files|e]; [apply quiet_CopyProtobuf_range|auto with quiet].
Qed.

Lemma quiet_GenerateCode language service dir :
  quiet (GenerateCode language service dir).
Proof. unfold GenerateCode. quiet_body. Qed.

Lemma quiet_CopyGeneratedFiles_range cwd protoDir outputPath files :
  quiet (CopyGeneratedFiles_range cwd protoDir outputPath files).
Proof. induction files as [|f rest IH]; simpl; quiet_body. Qed.

Lemma quiet_CopyGeneratedFiles protoDir outputPath :
  quiet (CopyGeneratedFiles protoDir outputPath).
Proof.
  unfold CopyGeneratedFiles. apply quiet_bind; [auto with quiet|].
  intros [cwd|e]; [|auto with quiet].
  apply quiet_bind; [auto with quiet|].
  intros [files|e]; [apply quiet_CopyGeneratedFiles_range|auto with quiet].
Qed.

(** ** The validators *)

Lemma case_of_elem (s : string) (labels : list string) :
  case_of s labels = true ↔ s ∈ labels.
Proof.
  unfold case_of. rewrite existsb_exists. split.
  - intros (x & Hx & Heq). apply String.eqb_eq in Heq. subst x.
    by apply list_elem_of_In.
  - intros H. exists s. split; [by apply list_elem_of_In|apply String.eqb_refl].
Qed.

Lemma if_bool_id (b : bool) : (if b then true else false) = b.
Proof. by destruct b. Qed.

(** ** The pipeline's trace *)

Lemma bind_ret {A B} (a : A) (k : A → M B) w : bind (ret a) k w = k a w.
Proof. done. Qed.

Lemma appends_CleanUpDirectories dir :
  appends (CleanUpDirectories dir)
          (fun _ evs w' => created evs = [] ∧ removed evs = [dir]
                           ∧ swept dir evs w').
Proof.
  intros w. unfold appends_at, CleanUpDirectories, bind, RemoveAll.
  pose proof (pop_fault_trace w) as Ht.
  destruct (pop_fault w) as [[flt|] w1]; simpl in Ht |- *.
  - eexists [_; _]. rewrite Ht, <- app_assoc. repeat split.
    intros Hin. repeat (apply elem_of_cons in Hin as [Hin|Hin]; [discriminate Hin|]).
    inversion Hin.
  - eexists [_]. rewrite Ht. repeat split.
    intros _ p Hp. simpl. rewrite remove_tree_lookup. by rewrite decide_True.
Qed.

(** An error branch of [Run]: clean up, then [log.Fatalf]. *)
Lemma appends_bail {A} dir msg :
  appends (CleanUpDirectories dir;; log_Fatalf (A:=A) msg)
          (fun o evs w' => (∃ m, o = Fatal m) ∧ created evs = []
                           ∧ removed evs = [dir] ∧ swept dir evs w').
Proof.
  eapply appends_bind; [apply appends_CleanUpDirectories| |].
  - intros [] e1 w1 (Hc & Hr & Hs). exists [EvLog msg]. simpl. split; [done|].
    split; [by eexists|]. rewrite created_app, removed_app, Hc, Hr.
    repeat split. intros Hin p Hp. simpl. apply Hs; [|done].
    apply elem_of_app in Hin as [Hin|Hin]; [done|].
    apply list_elem_of_singleton in Hin. discriminate Hin.
  - intros m e1 w1 (Hc & Hr & Hs). split; [by eexists|done].
Qed.

Lemma staged_after_plain tmpDir o e1 e2 w :
  plain e1 → staged tmpDir o e2 w → staged tmpDir o (e1 ++ e2) w.
Proof.
  intros [H1 H2] [H3 H4]. split.
  - by rewrite created_app, H1, H3.
  - rewrite removed_app, H2. destruct o; [done|].
    destruct H4 as [H4 H5]. split; [done|]. by apply swept_after.
Qed.

Lemma staged_bail tmpDir msg :
  appends (CleanUpDirectories tmpDir;; log_Fatalf (A:=unit) msg) (staged tmpDir).
Proof.
  eapply appends_weaken; [apply appends_bail|].
  intros o evs w' ([m ->] & Hc & Hr & Hs). by split.
Qed.

Ltac staged_step lem :=
  apply appends_after_quiet; [apply lem|apply staged_after_plain|].

Lemma Run_rejects language service private outputPath w :
  IsValidLanguage language = false
  ∨ (private = false ∧ IsValidPublicService service = false)
  ∨ (private = true ∧ IsValidPrivateService service = false) →
  ∃ msg, Run language service private outputPath w
         = (Fatal msg, emit (EvLog msg) w).
Proof.
  intros H. unfold Run.
  destruct (IsValidLanguage language) eqn:Hl.
  - destruct H as [H|[[-> H]|[-> H]]]; [done| |].
    + rewrite H. by eexists.
    + rewrite H. cbn [negb andb]. rewrite bind_ret.
      destruct (IsValidPublicService service); by eexists.
  - by eexists.
Qed.

Lemma Run_admits language service (private : bool) outputPath :
  IsValidLanguage language = true →
  (if private then IsValidPrivateService service
   else IsValidPublicService service) = true →
  appends (Run language service private outputPath) admitted_trace.
Proof.
  intros Hl Hs w. unfold Run. rewrite Hl. cbn [negb].
  assert (negb private && negb (IsValidPublicService service) = false) as ->.
  { destruct private; [done|]. by rewrite Hs. }
  assert (private && negb (IsValidPrivateService service) = false) as ->.
  { destruct private; [|done]. by rewrite Hs. }
  unfold appends_at. rewrite !bind_ret. revert w.
  match goal with |- ∀ w, ∃ evs, w_trace (?m w).2 = _ ∧ _ =>
    change (appends m admitted_trace) end.
  eapply appends_bind with (P := fun o e _ => (∃ a, o = Done a) ∧ e = []).
  { intros w. exists []. simpl. rewrite app_nil_r. split; [done|].
    split; [by eexists|done]. }
  2:{ intros msg e1 w1 [[a [=]] _]. }
  intros tmp e1 w1 [_ ->]. cbn [app]. revert w1.
  eapply appends_bind
    with (P := fun o e _ => ∃ r, o = Done r ∧ e = [EvMkdirTemp r]).
  { intros w. unfold appends_at, MkdirTemp. pose proof (pop_fault_trace w) as Ht.
    destruct (pop_fault w) as [f w1]; simpl in Ht |- *.
    repeat case_match; simpl; rewrite Ht; eexists; split; try done; by eexists. }
  2:{ intros msg e1 w1 [r [[=] _]]. }
  intros r e1 w1 (r' & [= <-] & ->). revert w1. destruct r as [tmpDir|e].
  - eapply appends_weaken
      with (P := fun _ e2 w' => created e2 = [] ∧ removed e2 = [tmpDir]
                                ∧ swept tmpDir e2 w').
    2:{ intros o e2 w' (Hc & Hr & Hsw). exists (Ok tmpDir), e2.
        rewrite created_app, removed_app, Hc, Hr. repeat split.
        intros t [= <-]. by apply swept_after. }
    eapply appends_defer with (P := staged tmpDir).
    + staged_step quiet_Printf. intros _.
      staged_step quiet_Mkdir. intros [e|]; [apply staged_bail|].
      staged_step quiet_CloneService. intros [serviceDir|e]; [|apply staged_bail].
      staged_step quiet_CopyProtobuf. intros [e|]; [apply staged_bail|].
      staged_step quiet_GenerateCode. intros [e|]; [apply staged_bail|].
      staged_step quiet_CopyGeneratedFiles. intros [e|]; [apply staged_bail|].
      by apply appends_ret.
    + intros a e1 w1 [Hc Hr].
      eapply appends_at_weaken; [apply appends_CleanUpDirectories|].
      intros o e2 w2 (Hc2 & Hr2 & Hsw). cbv beta.
      rewrite created_app, removed_app, Hc, Hr, Hc2, Hr2. repeat split.
      by apply swept_after.
    + by intros msg e1 w1 (Hc & Hr & Hsw).
  - intros w.
    exists [EvLog ("Error: Cannot create temporary directory: " +:+ e +:+ nl)].
    split; [done|].
    exists (Err e),
      [EvLog ("Error: Cannot create temporary directory: " +:+ e +:+ nl)].
    repeat split. intros t [=].
Qed.

Lemma elem_of_created tmpDir evs :
  EvMkdirTemp (Ok tmpDir) ∈ evs → tmpDir ∈ created evs.
Proof.
  intros H. unfold created. apply list_elem_of_omap.
  by exists (EvMkdirTemp (Ok tmpDir)).
Qed.

(** C1: in every run that created its workspace, on the success path and on
    every failure path of the later stages, the trace shows exactly one
    removal, and it is the removal of that workspace; when that removal
    reported no error, nothing is left at or below the workspace when the run
    ends. *)
Theorem workspace_destroyed_exactly_once
    language service (private : bool) outputPath m script rand tempdir cwd spawn
    tmpDir :
  let w' := (Run language service private outputPath
               (boot m script rand tempdir cwd spawn)).2 in
  EvMkdirTemp (Ok tmpDir) ∈ w_trace w' →
  created (w_trace w') = [tmpDir]
  ∧ removed (w_trace w') = [tmpDir]
  ∧ (EvRemoveAll tmpDir None ∈ w_trace w' →
     ∀ p, tmpDir `prefix_of` p → w_fs w' !! p = None).
Proof.
  intros w' Hin. subst w'.
  set (w := boot m script rand tempdir cwd spawn) in *.
  assert (∀ msg, EvMkdirTemp (Ok tmpDir) ∉ w_trace (emit (EvLog msg) w)) as Hrej.
  { intros msg Hm. simpl in Hm. apply list_elem_of_singleton in Hm.
    discriminate Hm. }
  destruct (IsValidLanguage language) eqn:Hl.
  2:{ pose proof (Run_rejects language service private outputPath w) as [msg Hr];
        [by left|].
      rewrite Hr in Hin. by apply Hrej in Hin. }
  destruct (if private then IsValidPrivateService service
            else IsValidPublicService service) eqn:Hs.
  - destruct (Run_admits language service private outputPath Hl Hs w)
      as (evs & Ht & r & rest & Hevs & Hcr & Hc & Hsw).
    rewrite Ht in Hin |- *. simpl in Hin |- *.
    apply elem_of_created in Hin. rewrite <- Hcr, Hc. rewrite Hc in Hin.
    destruct r as [t|e]; [|by inversion Hin].
    apply list_elem_of_singleton in Hin. subst t.
    split; [done|]. split; [done|]. by apply Hsw.
  - pose proof (Run_rejects language service private outputPath w) as [msg Hr].
    { right. destruct private; [right|left]; done. }
    rewrite Hr in Hin. by apply Hrej in Hin.
Qed.

(** C2: a request that fails one of the three gates ends the process with its
    message; the world is the one the run started in with one log line added:
    no system call was made, no file touched, no program started. *)
Theorem validation_precedes_io language service (private : bool) outputPath w :
  IsValidLanguage language = false
  ∨ (private = false ∧ IsValidPublicService service = false)
  ∨ (private = true ∧ IsValidPrivateService service = false) →
  rejected language service private outputPath w
  ∧ w_fs (Run language service private outputPath w).2 = w_fs w
  ∧ w_script (Run language service private outputPath w).2 = w_script w
  ∧ created (w_trace (Run language service private outputPath w).2)
    = created (w_trace w).
Proof.
  intros H.
  pose proof (Run_rejects language service private outputPath w H) as [msg Hr].
  split; [by exists msg|]. rewrite Hr. simpl. repeat split.
  rewrite created_app. simpl. apply app_nil_r.
Qed.

(** C3 as stated fails: the validator knows the language as golang, and
    rejects go. *)
Lemma IsValidLanguage_rejects_go :
  ¬ (∀ lang, IsValidLanguage lang = true
             ↔ lang ∈ ["go"; "ruby"; "python"; "javascript"; "java"]).
Proof.
  intros H. destruct (H "go") as [_ H2].
  assert (IsValidLanguage "go" = true) as Hgo by (apply H2; constructor).
  vm_compute in Hgo. discriminate Hgo.
Qed.

(** C3, amended: the validator accepts exactly golang, ruby, python, java and
    javascript. *)
Theorem IsValidLanguage_iff lang :
  IsValidLanguage lang = true
  ↔ lang ∈ ["golang"; "ruby"; "python"; "java"; "javascript"].
Proof. unfold IsValidLanguage. rewrite if_bool_id. apply case_of_elem. Qed.

Lemma IsValidPublicService_iff s :
  IsValidPublicService s = true
  ↔ s ∈ ["authorization"; "catalog"; "category"; "dataspec"; "exports";
         "grants"; "organizations"; "query"; "references"; "search";
         "sources"; "uploads"; "warehouses"].
Proof. unfold IsValidPublicService. rewrite if_bool_id. apply case_of_elem. Qed.

Lemma IsValidPrivateService_iff s :
  IsValidPrivateService s = true
  ↔ s ∈ ["audit"; "jabba"; "parser"; "catalog"; "category"; "exports";
         "grants"; "organizations"; "query"; "references"; "sources";
         "warehouses"; "taskrunner"].
Proof. unfold IsValidPrivateService. rewrite if_bool_id. apply case_of_elem. Qed.

Lemma admitted_not_rejected language service (private : bool) outputPath w :
  IsValidLanguage language = true →
  (if private then IsValidPrivateService service
   else IsValidPublicService service) = true →
  ¬ rejected language service private outputPath w.
Proof.
  intros Hl Hs [msg Hr].
  destruct (Run_admits language service private outputPath Hl Hs w)
    as (evs & Ht & r & rest & -> & _).
  rewrite Hr in Ht. simpl in Ht. apply app_inv_head in Ht. discriminate.
Qed.

(** C4: with a supported language, a public request is rejected by validation
    exactly when the service has no public definition, a private request
    exactly when it has no private one, a service with both is accepted either
    way, and a public request for jabba is rejected with no workspace
    created. *)
Theorem service_gate_by_visibility language service outputPath w :
  IsValidLanguage language = true →
  (rejected language service false outputPath w
   ↔ ¬ service ∈ ["authorization"; "catalog"; "category"; "dataspec"; "exports";
                  "grants"; "organizations"; "query"; "references"; "search";
                  "sources"; "uploads"; "warehouses"])
  ∧ (rejected language service true outputPath w
     ↔ ¬ service ∈ ["audit"; "jabba"; "parser"; "catalog"; "category";
                    "exports"; "grants"; "organizations"; "query";
                    "references"; "sources"; "warehouses"; "taskrunner"])
  ∧ (IsValidPublicService service = true →
     IsValidPrivateService service = true →
     ∀ private, ¬ rejected language service private outputPath w)
  ∧ (rejected language ServiceJabba false outputPath w
     ∧ created (w_trace (Run language ServiceJabba false outputPath w).2)
       = created (w_trace w)).
Proof.
  intros Hl. repeat split.
  - intros Hr Hin. apply IsValidPublicService_iff in Hin.
    by apply (admitted_not_rejected language service false outputPath w).
  - intros Hn. apply Run_rejects. right; left. split; [done|].
    rewrite <- IsValidPublicService_iff in Hn. by destruct (IsValidPublicService service).
  - intros Hr Hin. apply IsValidPrivateService_iff in Hin.
    by apply (admitted_not_rejected language service true outputPath w).
  - intros Hn. apply Run_rejects. right; right. split; [done|].
    rewrite <- IsValidPrivateService_iff in Hn. by destruct (IsValidPrivateService service).
  - intros Hpub Hpriv private. apply admitted_not_rejected; [done|].
    by destruct private.
  - apply Run_rejects. right; left. done.
  - destruct (Run_rejects language ServiceJabba false outputPath w) as [msg ->].
    { right; left. done. }
    simpl. rewrite created_app. simpl. apply app_nil_r.
Qed.

(** C7: a language with no compiler command makes [GenerateCode] return its
    error with the world untouched: no pipe, no process, no event; java is
    such a language, and the validator accepts it. *)
Theorem GenerateCode_without_profile language service dir w :
  language ∉ [LanguageGo; LanguageRuby; LanguagePython; LanguageJavascript] →
  GenerateCode language service dir w
  = (Done (Some "no command has been implemented for this language"), w)
  ∧ IsValidLanguage LanguageJava = true
  ∧ GenerateCode LanguageJava service dir w
    = (Done (Some "no command has been implemented for this language"), w).
Proof.
  intros Hn. split; [|done].
  assert (∀ x, x ∈ [LanguageGo; LanguageRuby; LanguagePython; LanguageJavascript] →
               case_of language [x] = false) as Hcase.
  { intros x Hx. apply not_true_is_false.
    rewrite case_of_elem, list_elem_of_singleton. intros ->. by apply Hn. }
  unfold GenerateCode, protocCmd_of.
  rewrite !Hcase by repeat constructor. done.
Qed.

(** ** Extraction: [CopyProtobuf] *)

Lemma node_at_snoc (m : fsmap) (d : path) (n : string) :
  node_at m (d ++ [n]) = m !! (d ++ [n]).
Proof. unfold node_at. by destruct d. Qed.

Lemma ReadDir_inv d w o w1 :
  ReadDir d w = (o, w1) →
  w_fs w1 = w_fs w
  ∧ ∃ r, o = Done r
         ∧ match r with
           | Ok files => files = entries d (w_fs w)
                         ∧ node_at (w_fs w) d = Some Dir
           | Err _ => True
           end.
Proof.
  unfold ReadDir. pose proof (pop_fault_fs w) as Hfs.
  destruct (pop_fault w) as [f w0]; simpl in Hfs |- *. rewrite <- Hfs.
  repeat case_match; intros [= <- <-]; simpl;
    (split; [done|]); eexists; (split; [done|]); simpl; eauto.
Qed.

Lemma Open_inv p w o w1 :
  Open p w = (o, w1) →
  w_fs w1 = w_fs w
  ∧ ∃ r, o = Done r
         ∧ match r with
           | Ok h => h = p ∧ is_Some (node_at (w_fs w) p)
           | Err _ => True
           end.
Proof.
  unfold Open. pose proof (pop_fault_fs w) as Hfs.
  destruct (pop_fault w) as [f w0]; simpl in Hfs |- *. rewrite <- Hfs.
  repeat case_match; intros [= <- <-]; simpl;
    (split; [done|]); eexists; (split; [done|]); simpl; eauto.
Qed.

Lemma Create_inv p w o w1 :
  Create p w = (o, w1) →
  ∃ r, o = Done r
       ∧ match r with
         | Ok h => h = p ∧ w_fs w1 = <[p := File ""]> (w_fs w)
         | Err _ => w_fs w1 = w_fs w
         end.
Proof.
  unfold Create. pose proof (pop_fault_fs w) as Hfs.
  destruct (pop_fault w) as [f w0]; simpl in Hfs |- *. rewrite <- Hfs.
  repeat case_match; intros [= <- <-]; simpl;
    eexists; (split; [done|]); simpl; eauto.
Qed.

Lemma Copy_inv dst src w o w1 :
  Copy dst src w = (o, w1) →
  ∃ err, o = Done err
         ∧ match err with
           | None => ∃ data, node_at (w_fs w) src = Some (File data)
                             ∧ w_fs w1 = <[dst := File data]> (w_fs w)
           | Some _ =>
               w_fs w1 = w_fs w
               ∨ ∃ data k, node_at (w_fs w) src = Some (File data)
                           ∧ w_fs w1 = <[dst := File (String.substring 0 k data)]>
                                         (w_fs w)
           end.
Proof.
  unfold Copy. pose proof (pop_fault_fs w) as Hfs.
  destruct (pop_fault w) as [f w0]; simpl in Hfs |- *. rewrite <- Hfs.
  repeat case_match; intros [= <- <-]; simpl;
    eexists; (split; [done|]); simpl; eauto 8.
Qed.

Lemma snoc_ne_canon (srcdir canon : path) (n : string) :
  removelast canon ≠ srcdir → srcdir ++ [n] ≠ canon.
Proof. intros H <-. by rewrite removelast_last in H. Qed.

Lemma last_filter_cons_True {A} (P : A → Prop) `{∀ x, Decision (P x)} x l :
  P x →
  last (filter P (x :: l))
  = match last (filter P l) with Some y => Some y | None => Some x end.
Proof. intros Hx. rewrite filter_cons_True by done. apply last_cons. Qed.

(** A failure in the rest of the loop, seen from before the first file. *)
Lemma range_failure_later (srcdir : path) (f : string) (rest : list string)
    (m m1 m' : fsmap) (canon : path) (msg : string) :
  (∀ n, m1 !! (srcdir ++ [n]) = m !! (srcdir ++ [n])) →
  untouched_or_whole srcdir [f] m m1 canon →
  range_failure srcdir rest m1 m' canon msg →
  range_failure srcdir (f :: rest) m m' canon msg.
Proof.
  intros Hsrc Hfirst Hfail.
  assert (untouched_or_whole srcdir rest m1 m' canon →
          untouched_or_whole srcdir (f :: rest) m m' canon) as Hw.
  { intros [Heq|(n & data & Hn & Hext & Hdata & Hcanon)].
    - destruct Hfirst as [Heq1|(n & data & Hn & Hext & Hdata & Hcanon)].
      + left. congruence.
      + right. exists n, data. apply list_elem_of_singleton in Hn. subst n.
        repeat split; [left|done|done|congruence].
    - right. exists n, data. rewrite Hsrc in Hdata.
      repeat split; [by right|done..]. }
  destruct Hfail as [e Hu|e Hu|e part Hcanon Hcut].
  - apply OpenFailed. auto.
  - apply CreateFailed. auto.
  - apply CopyFailed with part; [done|].
    destruct Hcut as [->|(n & data & k & Hn & Hext & Hdata & ->)]; [by left|].
    right. exists n, data, k. rewrite Hsrc in Hdata.
    repeat split; [by right|done..].
Qed.

Lemma CopyProtobuf_range_spec service (srcdir protoDir : path) files w :
  let canon := Join protoDir [service +:+ ".proto"] in
  Forall (fun n => valid_name n = true) files →
  removelast canon ≠ srcdir →
  ∃ err w',
    CopyProtobuf_range service srcdir protoDir files w = (Done err, w')
    ∧ (∀ p, p ≠ canon → w_fs w' !! p = w_fs w !! p)
    ∧ match err with
      | None =>
          match last (filter (fun n => Ext n = ".proto") files) with
          | Some n => ∃ data, w_fs w !! (srcdir ++ [n]) = Some (File data)
                              ∧ w_fs w' !! canon = Some (File data)
          | None => w_fs w' = w_fs w
          end
      | Some msg => range_failure srcdir files (w_fs w) (w_fs w') canon msg
      end.
Proof.
  intros canon Hvalid Hsep. revert w.
  induction files as [|f rest IH]; intros w.
  { exists None, w. by simpl. }
  apply Forall_cons in Hvalid as [Hf Hrest]. specialize (IH Hrest).
  simpl. destruct (String.eqb_spec (Ext f) ".proto") as [Hext|Hext]; simpl.
  2:{ destruct (IH w) as (err & w' & -> & Hframe & Hres).
      exists err, w'. split; [done|]. split; [done|].
      rewrite filter_cons_False by done. destruct err as [msg|]; [|done].
      apply range_failure_later with (w_fs w); [done|by left|done]. }
  pose proof (snoc_ne_canon srcdir canon f Hsep) as Hne.
  rewrite (Join_name srcdir f Hf). fold canon. unfold bind.
  destruct (Open (srcdir ++ [f]) w) as [o1 w1] eqn:E1.
  apply Open_inv in E1 as (Hfs1 & r1 & -> & Hr1). destruct r1 as [src|e].
  2:{ eexists _, w1. split; [done|]. rewrite Hfs1. split; [done|].
      apply OpenFailed. by left. }
  destruct Hr1 as [-> _].
  destruct (Create canon w1) as [o2 w2] eqn:E2.
  apply Create_inv in E2 as (r2 & -> & Hr2). destruct r2 as [dst|e].
  2:{ eexists _, w2. split; [done|]. rewrite Hr2, Hfs1. split; [done|].
      apply CreateFailed. by left. }
  destruct Hr2 as [-> Hfs2]. rewrite Hfs1 in Hfs2.
  destruct (Copy canon (srcdir ++ [f]) w2) as [o3 w3] eqn:E3.
  apply Copy_inv in E3 as (err3 & -> & Hr3).
  rewrite node_at_snoc, Hfs2, lookup_insert_ne in Hr3 by done.
  destruct err3 as [e|].
  { eexists _, w3. split; [done|].
    destruct Hr3 as [Hfs3|(data & k & Hdata & Hfs3)]; rewrite Hfs3, ?Hfs2.
    - split; [intros p Hp; by rewrite lookup_insert_ne|].
      apply CopyFailed with ""; [by rewrite lookup_insert_eq|by left].
    - split; [intros p Hp; by rewrite !lookup_insert_ne|].
      apply CopyFailed with (String.substring 0 k data);
        [by rewrite lookup_insert_eq|].
      right. exists f, data, k. repeat split; [left|done..]. }
  destruct Hr3 as (data & Hdata & Hfs3).
  rewrite insert_insert_eq in Hfs3.
  destruct (IH w3) as (err & w' & -> & Hframe & Hres).
  rewrite Hfs3 in Hframe, Hres.
  exists err, w'. split; [done|].
  split; [intros p Hp; by rewrite Hframe, lookup_insert_ne|].
  destruct err as [msg|].
  - apply range_failure_later with (<[canon:=File data]> (w_fs w)); [|by right; exists f, data; repeat split; [left|..]; try done; by rewrite lookup_insert_eq|done].
    intros n. apply lookup_insert_ne. by apply not_eq_sym, snoc_ne_canon.
  - rewrite last_filter_cons_True by done.
    destruct (last (filter _ rest)) as [n|].
    + destruct Hres as (data' & Hd & Hc). exists data'. split; [|done].
      rewrite lookup_insert_ne in Hd; [done|]. by apply not_eq_sym, snoc_ne_canon.
    + exists data. split; [done|]. rewrite Hres. apply lookup_insert_eq.
Qed.

Lemma CopyProtobuf_spec service (serviceDir protoDir : path) (private : bool) w :
  let srcdir := if private then Join serviceDir ["proto"; "private"]
                else Join serviceDir ["proto"; "public"] in
  let canon := Join protoDir [service +:+ ".proto"] in
  let names := entries srcdir (w_fs w) in
  removelast canon ≠ srcdir →
  ∃ err w',
    CopyProtobuf service serviceDir protoDir private w = (Done err, w')
    ∧ (∀ p, p ≠ canon → w_fs w' !! p = w_fs w !! p)
    ∧ match err with
      | None =>
          match last (filter (fun n => Ext n = ".proto") names) with
          | Some n => ∃ data, w_fs w !! (srcdir ++ [n]) = Some (File data)
                              ∧ w_fs w' !! canon = Some (File data)
          | None => w_fs w' = w_fs w
          end
      | Some msg => extraction_failure srcdir names (w_fs w) (w_fs w') canon msg
      end.
Proof.
  intros srcdir canon names Hsep. unfold CopyProtobuf. fold srcdir. unfold bind.
  destruct (ReadDir srcdir w) as [o1 w1] eqn:E1.
  apply ReadDir_inv in E1 as (Hfs1 & r & -> & Hr). destruct r as [files|e].
  - destruct Hr as [-> _]. fold names.
    destruct (CopyProtobuf_range_spec service srcdir protoDir names w1)
      as (err & w' & Hrun & Hframe & Hres); [|done|].
    { apply Forall_forall. intros n Hn. by apply elem_of_entries in Hn as [? _]. }
    fold canon in Hframe, Hres. rewrite Hfs1 in Hframe, Hres.
    exists err, w'. split; [done|]. split; [done|].
    destruct err as [msg|]; [by apply RangeFailed|done].
  - eexists _, w1. split; [done|]. rewrite Hfs1. split; [done|].
    by apply ReadDirFailed.
Qed.

(** C5: after a successful extraction nothing but the canonical file has
    changed, the names that count are exactly the entries ending in .proto,
    and the canonical file holds the bytes of the last of them in the order
    of enumeration; with none of them, nothing is staged. *)
Theorem CopyProtobuf_stages_last_proto
    service (serviceDir protoDir : path) (private : bool) w :
  let srcdir := if private then Join serviceDir ["proto"; "private"]
                else Join serviceDir ["proto"; "public"] in
  let canon := Join protoDir [service +:+ ".proto"] in
  let qualifying := filter (fun n => Ext n = ".proto") (entries srcdir (w_fs w)) in
  let r := CopyProtobuf service serviceDir protoDir private w in
  r.1 = Done None →
  removelast canon ≠ srcdir →
  (∀ n, n ∈ qualifying
        ↔ (∃ stem, n = stem +:+ ".proto") ∧ is_Some (w_fs w !! (srcdir ++ [n]))
          ∧ valid_name n = true)
  ∧ (∀ p, p ≠ canon → w_fs r.2 !! p = w_fs w !! p)
  ∧ (∀ n, last qualifying = Some n →
          ∃ data, w_fs w !! (srcdir ++ [n]) = Some (File data)
                  ∧ w_fs r.2 !! canon = Some (File data))
  ∧ (qualifying = [] → w_fs r.2 = w_fs w).
Proof.
  intros srcdir canon qualifying r Hok Hsep.
  destruct (CopyProtobuf_spec service serviceDir protoDir private w Hsep)
    as (err & w' & Hrun & Hframe & Hres).
  fold srcdir canon in Hframe, Hres. subst r. rewrite Hrun in Hok |- *.
  simpl in Hok |- *. injection Hok as ->. fold qualifying in Hres.
  split; [|split; [done|split]].
  - intros n. unfold qualifying. rewrite list_elem_of_filter, elem_of_entries.
    rewrite Ext_proto_iff. tauto.
  - intros n Hlast. by rewrite Hlast in Hres.
  - intros Hnil. by rewrite Hnil in Hres.
Qed.

(** C8, amended: an error of [CopyProtobuf] changes no file but the canonical
    one.  After a directory-read failure nothing has changed; after an open or
    create failure the canonical file is as it was or a whole copy of an
    earlier qualifying file; after a copy failure the canonical file exists
    and holds what was written before the failure. *)
Theorem CopyProtobuf_failure_state
    service (serviceDir protoDir : path) (private : bool) w msg :
  let srcdir := if private then Join serviceDir ["proto"; "private"]
                else Join serviceDir ["proto"; "public"] in
  let canon := Join protoDir [service +:+ ".proto"] in
  let r := CopyProtobuf service serviceDir protoDir private w in
  r.1 = Done (Some msg) →
  removelast canon ≠ srcdir →
  (∀ p, p ≠ canon → w_fs r.2 !! p = w_fs w !! p)
  ∧ extraction_failure srcdir (entries srcdir (w_fs w)) (w_fs w) (w_fs r.2)
      canon msg.
Proof.
  intros srcdir canon r Hfail Hsep.
  destruct (CopyProtobuf_spec service serviceDir protoDir private w Hsep)
    as (err & w' & Hrun & Hframe & Hres).
  fold srcdir canon in Hframe, Hres. subst r. rewrite Hrun in Hfail |- *.
  simpl in Hfail |- *. injection Hfail as ->. done.
Qed.

Lemma CopyProtobuf_range_none service (srcdir protoDir : path) files w :
  (∀ n, n ∈ files → Ext n ≠ ".proto") →
  CopyProtobuf_range service srcdir protoDir files w = (Done None, w).
Proof.
  induction files as [|f rest IH]; intros Hnone; simpl; [done|].
  destruct (String.eqb_spec (Ext f) ".proto") as [Hext|Hext]; simpl.
  - exfalso. by apply (Hnone f); [left|].
  - apply IH. intros n Hn. apply Hnone. by right.
Qed.

Lemma pop_fault_calm n w :
  no_fault_next (S n) w = true →
  (pop_fault w).1 = None ∧ no_fault_next n (pop_fault w).2 = true.
Proof.
  unfold no_fault_next, pop_fault.
  destruct (w_script w) as [|[f|] rest] eqn:E; simpl; [|done|done].
  rewrite E. by destruct n.
Qed.

Lemma last_cmd_arg language service (dir : path) argv :
  protocCmd_of language service dir = Some argv →
  last argv = Some (path_string (Join dir [service +:+ ".proto"])).
Proof.
  unfold protocCmd_of. repeat case_match; intros [= <-]; done.
Qed.

Lemma bind_done {A B} (m : M A) (k : A → M B) w a w1 :
  m w = (Done a, w1) → bind m k w = k a w1.
Proof. intros H. unfold bind. by rewrite H. Qed.

Lemma Pipe_calm n w :
  no_fault_next (S n) w = true →
  ∃ w1, exec.Pipe w = (Done None, w1) ∧ no_fault_next n w1 = true.
Proof.
  intros Hcalm. apply pop_fault_calm in Hcalm as [Hf Hrest].
  unfold exec.Pipe. destruct (pop_fault w) as [f w1]; simpl in Hf, Hrest |- *.
  subst f. by eexists.
Qed.

Lemma Start_emits argv w :
  ∃ r e, (exec.Start argv w).1 = Done r
         ∧ w_trace (exec.Start argv w).2 = w_trace w ++ [EvStart argv e].
Proof.
  unfold exec.Start. pose proof (pop_fault_trace w) as Ht.
  destruct (pop_fault w) as [f w1]; simpl in Ht |- *.
  repeat case_match; simpl; rewrite Ht; by eexists _, _.
Qed.

(** With the pipes and the start unhindered, [GenerateCode] starts the command
    its switch selects. *)
Lemma GenerateCode_starts language service (dir : path) argv w :
  protocCmd_of language service dir = Some argv →
  no_fault_next 2 w = true →
  ∃ e, EvStart argv e ∈ w_trace (GenerateCode language service dir w).2.
Proof.
  intros Hcmd Hcalm. unfold GenerateCode. rewrite Hcmd.
  destruct (Pipe_calm 1 w Hcalm) as (w1 & Hp1 & Hcalm1).
  rewrite (bind_done _ _ _ _ _ Hp1).
  destruct (Pipe_calm 0 w1 Hcalm1) as (w2 & Hp2 & _).
  rewrite (bind_done _ _ _ _ _ Hp2).
  destruct (Start_emits argv w2) as (r & e & Hr & Ht).
  destruct (exec.Start argv w2) as [o w3] eqn:Hs. simpl in Hr, Ht. subst o.
  rewrite (bind_done _ _ _ _ _ Hs). exists e. cbv beta.
  match goal with |- _ ∈ w_trace (?k w3).2 =>
    assert (quiet k) as Hq by (destruct r; quiet_body)
  end.
  destruct (Hq w3) as (evs & Hevs & _).
  assert (EvStart argv e ∈ w_trace w3 ++ evs) as Hin.
  { rewrite Ht. apply elem_of_app. left. apply elem_of_app. right. constructor. }
  rewrite <- Hevs in Hin. exact Hin.
Qed.

(** ** The compiler stage without faults *)

Lemma pop_fault_none n w :
  no_fault_next (S n) w = true →
  ∃ w1, pop_fault w = (None, w1)
        ∧ w_fs w1 = w_fs w ∧ w_spawn w1 = w_spawn w
        ∧ w_trace w1 = w_trace w ∧ no_fault_next n w1 = true.
Proof.
  unfold no_fault_next, pop_fault.
  destruct (w_script w) as [|[f|] rest] eqn:E; simpl; [|done|].
  - intros _. exists w. rewrite E. by destruct n.
  - intros H. by eexists.
Qed.

Lemma Pipe_none n w :
  no_fault_next (S n) w = true →
  ∃ w1, exec.Pipe w = (Done None, w1)
        ∧ w_fs w1 = w_fs w ∧ w_spawn w1 = w_spawn w
        ∧ w_trace w1 = w_trace w ++ [EvPipe None] ∧ no_fault_next n w1 = true.
Proof.
  intros H. destruct (pop_fault_none n w H) as (w1 & Hp & Hfs & Hsp & Ht & Hc).
  unfold exec.Pipe. rewrite Hp. simpl. eexists. split; [done|]. simpl.
  by rewrite Ht.
Qed.

Lemma Start_none n argv w :
  no_fault_next (S n) w = true →
  pr_start (w_spawn w argv (w_fs w)) = None →
  ∃ w1, exec.Start argv w = (Done (Ok (w_spawn w argv (w_fs w))), w1)
        ∧ w_fs w1 = pr_fs (w_spawn w argv (w_fs w))
        ∧ w_trace w1 = w_trace w ++ [EvStart argv None]
        ∧ no_fault_next n w1 = true.
Proof.
  intros H Hs. destruct (pop_fault_none n w H) as (w1 & Hp & Hfs & Hsp & Ht & Hc).
  unfold exec.Start. rewrite Hp, Hfs, Hsp, Hs. eexists. split; [done|]. simpl.
  by rewrite Ht.
Qed.

Lemma ReadAll_none n s w :
  no_fault_next (S n) w = true →
  ∃ w1, exec.ReadAll s w = (Done (Ok s), w1)
        ∧ w_trace w1 = w_trace w ++ [EvReadAll None]
        ∧ no_fault_next n w1 = true.
Proof.
  intros H. destruct (pop_fault_none n w H) as (w1 & Hp & Hfs & Hsp & Ht & Hc).
  unfold exec.ReadAll. rewrite Hp. eexists. split; [done|]. simpl.
  by rewrite Ht.
Qed.

Lemma Wait_none n argv p w :
  no_fault_next (S n) w = true →
  ∃ w1, exec.Wait argv p w = (Done (pr_wait p), w1)
        ∧ w_trace w1 = w_trace w ++ [EvWait argv (pr_wait p)].
Proof.
  intros H. destruct (pop_fault_none n w H) as (w1 & Hp & Hfs & Hsp & Ht & Hc).
  unfold exec.Wait. rewrite Hp. eexists. split; [done|]. simpl.
  by rewrite Ht.
Qed.

(** Logging a stream that is not empty. *)
Lemma log_stream_none (b : bool) msg n w :
  no_fault_next n w = true →
  ∃ w1, (if b then log_Printf msg else ret tt) w = (Done tt, w1)
        ∧ w_trace w1 = w_trace w ++ (if b then [EvLog msg] else [])
        ∧ no_fault_next n w1 = true.
Proof.
  intros H. destruct b; eexists; (split; [done|]); simpl; [done|].
  by rewrite app_nil_r.
Qed.

(** The whole of [GenerateCode] when no system call fails and the command
    starts. *)
Lemma GenerateCode_calm_run language service (dir : path) argv w :
  let p := w_spawn w argv (w_fs w) in
  let r := GenerateCode language service dir w in
  protocCmd_of language service dir = Some argv →
  no_fault_next 6 w = true →
  pr_start p = None →
  r.1 = Done (match pr_wait p with
              | Some e => Some ("failed to run generator command: " +:+ e)
              | None => None
              end)
  ∧ w_trace r.2
    = w_trace w
      ++ [EvPipe None; EvPipe None; EvStart argv None; EvReadAll None]
      ++ (if 0 <? String.length (pr_stdout p)
          then [EvLog (nl +:+ nl +:+ pr_stdout p +:+ nl +:+ nl)] else [])
      ++ [EvReadAll None]
      ++ (if 0 <? String.length (pr_stderr p)
          then [EvLog ("Generator encountered error:" +:+ nl +:+ nl
                       +:+ pr_stderr p +:+ nl)] else [])
      ++ [EvWait argv (pr_wait p)].
Proof.
  intros p r Hcmd Hcalm Hstart. subst r.
  unfold GenerateCode. rewrite Hcmd.
  destruct (Pipe_none _ _ Hcalm) as (w1 & E1 & Hfs1 & Hsp1 & Ht1 & Hc1).
  rewrite (bind_done _ _ _ _ _ E1).
  destruct (Pipe_none _ _ Hc1) as (w2 & E2 & Hfs2 & Hsp2 & Ht2 & Hc2).
  rewrite (bind_done _ _ _ _ _ E2).
  assert (w_spawn w2 argv (w_fs w2) = p) as Hp
    by (by rewrite Hfs2, Hsp2, Hfs1, Hsp1).
  destruct (Start_none _ argv _ Hc2) as (w3 & E3 & _ & Ht3 & Hc3);
    [by rewrite Hp|].
  rewrite Hp in E3. rewrite (bind_done _ _ _ _ _ E3).
  destruct (ReadAll_none _ (pr_stdout p) _ Hc3) as (w4 & E4 & Ht4 & Hc4).
  rewrite (bind_done _ _ _ _ _ E4).
  destruct (log_stream_none (0 <? String.length (pr_stdout p))
              (nl +:+ nl +:+ pr_stdout p +:+ nl +:+ nl) _ _ Hc4)
    as (w5 & E5 & Ht5 & Hc5).
  rewrite (bind_done _ _ _ _ _ E5).
  destruct (ReadAll_none _ (pr_stderr p) _ Hc5) as (w6 & E6 & Ht6 & Hc6).
  rewrite (bind_done _ _ _ _ _ E6).
  destruct (log_stream_none (0 <? String.length (pr_stderr p))
              ("Generator encountered error:" +:+ nl +:+ nl
               +:+ pr_stderr p +:+ nl) _ _ Hc6)
    as (w7 & E7 & Ht7 & Hc7).
  rewrite (bind_done _ _ _ _ _ E7).
  destruct (Wait_none _ argv p _ Hc7) as (w8 & E8 & Ht8).
  rewrite (bind_done _ _ _ _ _ E8).
  assert (w_trace w8
          = w_trace w
            ++ [EvPipe None; EvPipe None; EvStart argv None; EvReadAll None]
            ++ (if 0 <? String.length (pr_stdout p)
                then [EvLog (nl +:+ nl +:+ pr_stdout p +:+ nl +:+ nl)] else [])
            ++ [EvReadAll None]
            ++ (if 0 <? String.length (pr_stderr p)
                then [EvLog ("Generator encountered error:" +:+ nl +:+ nl
                             +:+ pr_stderr p +:+ nl)] else [])
            ++ [EvWait argv (pr_wait p)]) as Htrace.
  { rewrite Ht8, Ht7, Ht6, Ht5, Ht4, Ht3, Ht2, Ht1.
    by rewrite <- !app_assoc. }
  destruct (pr_wait p); simpl; by rewrite Htrace.
Qed.

Lemma protocCmd_of_supported language service (dir : path) :
  language ∈ [LanguageGo; LanguageRuby; LanguagePython; LanguageJavascript] →
  ∃ argv, protocCmd_of language service dir = Some argv.
Proof.
  intros H. repeat (apply elem_of_cons in H as [->|H]; [by eexists|]).
  inversion H.
Qed.

(** C10: when the selected source directory can be read and has no entry
    ending in .proto, extraction returns nil and leaves the file system as it
    was, so a canonical file that was absent stays absent.  For each of the
    four languages that have a compiler command, that command names the
    canonical path as its input file, and [GenerateCode], run after the
    extraction, starts it all the same: it makes no check of its own, and
    when no system call fails its result is the exit status of the
    compiler. *)
Theorem CopyProtobuf_nothing_to_stage
    service (serviceDir protoDir : path) (private : bool) w :
  let srcdir := if private then Join serviceDir ["proto"; "private"]
                else Join serviceDir ["proto"; "public"] in
  let canon := Join protoDir [service +:+ ".proto"] in
  let r := CopyProtobuf service serviceDir protoDir private w in
  node_at (w_fs w) srcdir = Some Dir →
  no_fault_next 1 w = true →
  (∀ n, n ∈ entries srcdir (w_fs w) → Ext n ≠ ".proto") →
  r.1 = Done None
  ∧ w_fs r.2 = w_fs w
  ∧ (w_fs w !! canon = None → w_fs r.2 !! canon = None)
  ∧ (∀ language,
       language ∈ [LanguageGo; LanguageRuby; LanguagePython; LanguageJavascript] →
       ∃ argv,
         let p := w_spawn r.2 argv (w_fs r.2) in
         let g := GenerateCode language service protoDir r.2 in
         protocCmd_of language service protoDir = Some argv
         ∧ last argv = Some (path_string canon)
         ∧ (no_fault_next 2 r.2 = true → ∃ e, EvStart argv e ∈ w_trace g.2)
         ∧ (no_fault_next 6 r.2 = true → pr_start p = None →
            EvStart argv None ∈ w_trace g.2
            ∧ g.1 = Done (match pr_wait p with
                          | Some e =>
                              Some ("failed to run generator command: " +:+ e)
                          | None => None
                          end))).
Proof.
  intros srcdir canon r Hdir Hcalm Hnone.
  assert (r.1 = Done None ∧ w_fs r.2 = w_fs w) as [H1 H2].
  { subst r. unfold CopyProtobuf. fold srcdir. unfold bind, ReadDir.
    apply pop_fault_calm in Hcalm as [Hf _].
    pose proof (pop_fault_fs w) as Hfs.
    destruct (pop_fault w) as [f w1]; simpl in Hf, Hfs |- *. subst f.
    rewrite Hfs, Hdir. simpl. rewrite CopyProtobuf_range_none by done.
    simpl. done. }
  split; [done|]. split; [done|]. split; [by rewrite H2|].
  intros language Hl.
  destruct (protocCmd_of_supported language service protoDir Hl) as [argv Hcmd].
  exists argv. intros p g. split; [done|].
  split; [by apply last_cmd_arg in Hcmd|].
  split; [by apply GenerateCode_starts|].
  intros Hcalm6 Hstart.
  destruct (GenerateCode_calm_run language service protoDir argv r.2
              Hcmd Hcalm6 Hstart) as [Hres Htrace].
  split; [|exact Hres].
  subst g. rewrite Htrace. apply elem_of_app. right. apply elem_of_app. left.
  repeat constructor.
Qed.

(** ** Cleanup: [CleanUpDirectories] *)

Lemma remove_tree_idemp (d : path) (m : fsmap) :
  remove_tree d (remove_tree d m) = remove_tree d m.
Proof. apply map_eq. intros p. rewrite !remove_tree_lookup. by case_decide. Qed.

Lemma remove_tree_absent (d : path) (m : fsmap) :
  (∀ p, d `prefix_of` p → m !! p = None) → remove_tree d m = m.
Proof.
  intros H. apply map_eq. intros p. rewrite remove_tree_lookup.
  case_decide; [by rewrite H|done].
Qed.

Lemma CleanUpDirectories_calm dir w :
  no_fault_next 1 w = true →
  CleanUpDirectories dir w
  = (Done tt, emit (EvRemoveAll dir None)
                   (set_fs (remove_tree dir (w_fs w)) (pop_fault w).2)).
Proof.
  intros Hcalm. apply pop_fault_calm in Hcalm as [Hf _].
  unfold CleanUpDirectories, bind, RemoveAll.
  pose proof (pop_fault_fs w) as Hfs.
  destruct (pop_fault w) as [f w1]; simpl in Hf, Hfs |- *. subst f.
  by rewrite Hfs.
Qed.

(** The removal error, when there is one, is reported by [log.Fatalf]. *)
Lemma CleanUpDirectories_reports dir w flt rest :
  w_script w = Some flt :: rest →
  ∃ w', CleanUpDirectories dir w
        = (Fatal ("Error: Could not remove directory '" +:+ path_string dir
                  +:+ "': " +:+ errno_of flt), w')
        ∧ w_fs w' = w_fs w.
Proof.
  intros Hs. unfold CleanUpDirectories, bind, RemoveAll, pop_fault.
  rewrite Hs. simpl. by eexists.
Qed.

(** C9, amended: whatever is at the path (a whole tree, part of one, or
    nothing), [CleanUpDirectories] removes it and returns when the removal
    reports no error; called again it returns again and changes nothing; on a
    path that is already gone the first call changes nothing either.  When
    the removal reports an error, on the first call or on the second, the
    call does not return: [log.Fatalf] logs
    [Error: Could not remove directory '<dir>': <err>] and ends the
    process. *)
Theorem CleanUpDirectories_idempotent dir w :
  let r1 := CleanUpDirectories dir w in
  let r2 := CleanUpDirectories dir r1.2 in
  let report e :=
    "Error: Could not remove directory '" +:+ path_string dir +:+ "': " +:+ e in
  (no_fault_next 2 w = true →
   r1.1 = Done tt
   ∧ r2.1 = Done tt
   ∧ w_fs r1.2 = remove_tree dir (w_fs w)
   ∧ (∀ p, dir `prefix_of` p → w_fs r1.2 !! p = None)
   ∧ w_fs r2.2 = w_fs r1.2
   ∧ ((∀ p, dir `prefix_of` p → w_fs w !! p = None) → w_fs r1.2 = w_fs w))
  ∧ (∀ flt rest, w_script w = Some flt :: rest →
       r1.1 = Fatal (report (errno_of flt))
       ∧ last (w_trace r1.2) = Some (EvLog (report (errno_of flt))))
  ∧ (∀ flt rest, w_script w = None :: Some flt :: rest →
       r1.1 = Done tt
       ∧ r2.1 = Fatal (report (errno_of flt))
       ∧ last (w_trace r2.2) = Some (EvLog (report (errno_of flt)))).
Proof.
  intros r1 r2 report.
  assert (∀ w0 flt rest, w_script w0 = Some flt :: rest →
            (CleanUpDirectories dir w0).1 = Fatal (report (errno_of flt))
            ∧ last (w_trace (CleanUpDirectories dir w0).2)
              = Some (EvLog (report (errno_of flt)))) as Hfail.
  { intros w0 flt rest Hs.
    unfold CleanUpDirectories, bind, RemoveAll, pop_fault. rewrite Hs. simpl.
    split; [done|apply last_snoc]. }
  split; [|split].
  - intros Hcalm.
    assert (no_fault_next 1 w = true) as Hcalm1.
    { revert Hcalm. unfold no_fault_next.
      destruct (w_script w) as [|[f|] [|g rest]]; simpl; try done. }
    pose proof (CleanUpDirectories_calm dir w Hcalm1) as H1.
    assert (no_fault_next 1 r1.2 = true) as Hcalm2.
    { subst r1. rewrite H1. simpl. by apply pop_fault_calm in Hcalm as [_ ?]. }
    pose proof (CleanUpDirectories_calm dir r1.2 Hcalm2) as H2.
    subst r2. rewrite H2. subst r1. rewrite H1. simpl.
    repeat split.
    + intros p Hp. rewrite remove_tree_lookup. by rewrite decide_True.
    + apply remove_tree_idemp.
    + apply remove_tree_absent.
  - intros flt rest Hs. by apply (Hfail w flt rest).
  - intros flt rest Hs.
    assert (no_fault_next 1 w = true) as Hcalm1
      by (unfold no_fault_next; by rewrite Hs).
    pose proof (CleanUpDirectories_calm dir w Hcalm1) as H1.
    assert (w_script r1.2 = Some flt :: rest) as Hs2.
    { subst r1. rewrite H1. unfold pop_fault. by rewrite Hs. }
    split; [subst r1; by rewrite H1|]. by apply (Hfail r1.2 flt rest).
Qed.

(** ** Collection: [CopyGeneratedFiles] *)

Lemma Getwd_inv w o w1 :
  Getwd w = (o, w1) →
  w_fs w1 = w_fs w
  ∧ ∃ r, o = Done r ∧ match r with Ok c => c = w_cwd w | Err _ => True end.
Proof.
  unfold Getwd, pop_fault.
  destruct (w_script w) as [|[f|] rest]; intros [= <- <-]; simpl;
    (split; [done|]); eexists; (split; [done|]); done.
Qed.

Lemma CopyGeneratedFiles_range_spec (cwd protoDir : path) outputPath files w :
  let outdir := Join cwd [outputPath] in
  Forall (fun n => valid_name n = true) files →
  outdir ≠ protoDir →
  ∃ err w',
    CopyGeneratedFiles_range cwd protoDir outputPath files w = (Done err, w')
    ∧ (∀ p, ¬ collected outdir files p → w_fs w' !! p = w_fs w !! p)
    ∧ (err = None →
       ∀ n, n ∈ files → Ext n ≠ ".proto" →
            ∃ data, w_fs w !! (protoDir ++ [n]) = Some (File data)
                    ∧ w_fs w' !! (outdir ++ [n]) = Some (File data)).
Proof.
  intros outdir Hvalid Hsep. revert w.
  induction files as [|f rest IH]; intros w.
  { exists None, w. split; [done|]. split; [done|]. intros _ n Hn. by inversion Hn. }
  apply Forall_cons in Hvalid as [Hf Hrest]. specialize (IH Hrest).
  simpl. destruct (String.eqb_spec (Ext f) ".proto") as [Hext|Hext]; simpl.
  { destruct (IH w) as (err & w' & -> & Hframe & Hres).
    exists err, w'. split; [done|]. split.
    - intros p Hp. apply Hframe. intros (n & Hn & Hne & ->).
      apply Hp. exists n. split; [by right|done].
    - intros Herr n Hn Hne. apply elem_of_cons in Hn as [->|Hn]; [done|].
      by apply Hres. }
  rewrite (Join_name protoDir f Hf), (Join_snoc cwd outputPath f Hf).
  fold outdir. unfold bind.
  assert (∀ n, protoDir ++ [n] ≠ outdir ++ [f]) as Hsrc.
  { intros n Heq. apply app_inj_tail in Heq as [Heq _]. by apply Hsep. }
  destruct (Open (protoDir ++ [f]) w) as [o1 w1] eqn:E1.
  apply Open_inv in E1 as (Hfs1 & r1 & -> & Hr1). destruct r1 as [src|e].
  2:{ eexists _, w1. split; [done|]. rewrite Hfs1. split; [done|]. done. }
  destruct Hr1 as [-> _].
  destruct (Create (outdir ++ [f]) w1) as [o2 w2] eqn:E2.
  apply Create_inv in E2 as (r2 & -> & Hr2). destruct r2 as [dst|e].
  2:{ eexists _, w2. split; [done|]. rewrite Hr2, Hfs1. split; [done|]. done. }
  destruct Hr2 as [-> Hfs2]. rewrite Hfs1 in Hfs2.
  destruct (Copy (outdir ++ [f]) (protoDir ++ [f]) w2) as [o3 w3] eqn:E3.
  apply Copy_inv in E3 as (err3 & -> & Hr3).
  rewrite node_at_snoc, Hfs2, lookup_insert_ne in Hr3 by (by apply not_eq_sym).
  destruct err3 as [e|].
  { eexists _, w3. split; [done|]. split; [|done].
    intros p Hp.
    assert (outdir ++ [f] ≠ p) as Hpf.
    { intros <-. apply Hp. exists f. split; [left|done]. }
    destruct Hr3 as [->|(data & k & _ & ->)]; rewrite ?Hfs2;
      by rewrite ?lookup_insert_ne. }
  destruct Hr3 as (data & Hdata & Hfs3). rewrite insert_insert_eq in Hfs3.
  destruct (IH w3) as (err & w' & -> & Hframe & Hres).
  rewrite Hfs3 in Hframe, Hres.
  exists err, w'. split; [done|]. split.
  - intros p Hp.
    assert (outdir ++ [f] ≠ p) as Hpf.
    { intros <-. apply Hp. exists f. split; [left|done]. }
    rewrite Hframe, lookup_insert_ne; [done|done|].
    intros (n & Hn & Hne & ->). apply Hp. exists n. split; [by right|done].
  - intros Herr n Hn Hne.
    destruct (decide (n ∈ rest)) as [Hin|Hnin].
    + destruct (Hres Herr n Hin Hne) as (data' & Hd & Hc).
      exists data'. split; [|done].
      rewrite lookup_insert_ne in Hd; [done|]. by apply not_eq_sym.
    + apply elem_of_cons in Hn as [->|Hn]; [|done].
      exists data. split; [done|].
      rewrite Hframe, lookup_insert_eq; [done|].
      intros (n & Hn & _ & Heq). apply app_inj_tail in Heq as [_ <-]. done.
Qed.

(** C6: when collection returns nil, every staged entry whose extension is
    not .proto has its bytes at the path of the same name under the output
    directory, the output directory being the output path joined to the
    working directory; no other path has changed, so no .proto name has
    appeared in the output. *)
Theorem CopyGeneratedFiles_copies_all_but_proto (protoDir : path) outputPath w :
  let outdir := Join (w_cwd w) [outputPath] in
  let staged_names := entries protoDir (w_fs w) in
  let r := CopyGeneratedFiles protoDir outputPath w in
  r.1 = Done None →
  outdir ≠ protoDir →
  (∀ n, n ∈ staged_names → Ext n ≠ ".proto" →
        ∃ data, w_fs w !! (protoDir ++ [n]) = Some (File data)
                ∧ w_fs r.2 !! (outdir ++ [n]) = Some (File data))
  ∧ (∀ n, Ext n = ".proto" →
          w_fs r.2 !! (outdir ++ [n]) = w_fs w !! (outdir ++ [n]))
  ∧ (∀ p, ¬ collected outdir staged_names p → w_fs r.2 !! p = w_fs w !! p).
Proof.
  intros outdir staged_names r Hok Hsep. subst r.
  unfold CopyGeneratedFiles, bind in Hok |- *.
  destruct (Getwd w) as [o0 w0] eqn:E0.
  apply Getwd_inv in E0 as (Hfs0 & r0 & -> & Hr0).
  destruct r0 as [cwd|e]; [subst cwd|done].
  destruct (ReadDir protoDir w0) as [o1 w1] eqn:E1.
  apply ReadDir_inv in E1 as (Hfs1 & r1 & -> & Hr1).
  destruct r1 as [files|e]; [|done]. destruct Hr1 as [-> _].
  rewrite Hfs0 in Hfs1, Hok |- *. fold staged_names in Hok |- *.
  destruct (CopyGeneratedFiles_range_spec (w_cwd w) protoDir outputPath
              staged_names w1) as (err & w' & Hrun & Hframe & Hres); [|done|].
  { apply Forall_forall. intros n Hn. by apply elem_of_entries in Hn as [? _]. }
  fold outdir in Hframe, Hres. rewrite Hfs1 in Hframe, Hres.
  rewrite Hrun in Hok |- *. simpl in Hok |- *. injection Hok as ->.
  split; [by apply Hres|]. split; [|done].
  intros n Hext. apply Hframe. intros (n' & _ & Hne & Heq).
  apply app_inj_tail in Heq as [_ <-]. done.
Qed.

(** ** The pipeline on the scenario machine *)

Import Scenario.

(** In the pipeline the canonical file never lies in the directory it is
    copied from. *)
Lemma workspace_dirs_apart (tmpDir : path) service (private : bool) :
  IsValidPublicService service = true ∨ IsValidPrivateService service = true →
  removelast (Join (Join tmpDir ["proto"]) [service +:+ ".proto"])
  ≠ (if private then Join (Join tmpDir [service]) ["proto"; "private"]
     else Join (Join tmpDir [service]) ["proto"; "public"]).
Proof.
  intros Hs.
  assert (Forall (fun n => valid_name n = true) ["proto"; "public"]) as Hpub
    by (by repeat constructor).
  assert (Forall (fun n => valid_name n = true) ["proto"; "private"]) as Hpriv
    by (by repeat constructor).
  assert (valid_name service = true ∧ valid_name (service +:+ ".proto") = true)
    as [Hv Hvp].
  { destruct Hs as [Hs|Hs];
      [apply IsValidPublicService_iff in Hs|apply IsValidPrivateService_iff in Hs];
      repeat (apply elem_of_cons in Hs as [->|Hs]; [by vm_compute|]);
      inversion Hs. }
  rewrite (Join_name _ _ Hvp), removelast_last, (Join_name _ _ Hv).
  rewrite (Join_names _ _ Hpub), (Join_names _ _ Hpriv).
  rewrite (Join_name tmpDir "proto") by done.
  intros Heq. apply (f_equal length) in Heq. revert Heq.
  destruct private; rewrite !length_app; simpl; lia.
Qed.

(** Scenario A: golang for catalog ends with the generated files in the output
    directory, the interface definition absent from it, and the workspace
    gone. *)
Example scenario_A :
  let r := Run "golang" "catalog" false "./out" (machine []) in
  r.1 = Done tt
  ∧ map_to_list (w_fs r.2)
    = [(["work"; "out"], Dir); (["tmp"], Dir);
       (["work"; "out"; "catalog.twirp.go"], File "package catalog // twirp");
       (["work"; "out"; "catalog.pb.go"], File "package catalog");
       (["work"], Dir)].
Proof. vm_compute. done. Qed.

(** Whichever system call of the run fails, the removals in the trace are the
    workspaces created in it. *)
Example fault_at_every_step :
  forallb (fun k =>
             let t := w_trace (Run "golang" "catalog" false "./out"
                                 (machine (failing_at k))).2 in
             bool_decide (created t = removed t))
          (seq 0 40) = true.
Proof. vm_compute. reflexivity. Qed.

Lemma workspace_destroyed_exactly_once_witness :
  let w' := (Run "golang" "catalog" false "./out" (machine (failing_at 7))).2 in
  created (w_trace w') = [workspace]
  ∧ removed (w_trace w') = [workspace]
  ∧ (EvRemoveAll workspace None ∈ w_trace w' →
     ∀ p, workspace `prefix_of` p → w_fs w' !! p = None).
Proof.
  apply (workspace_destroyed_exactly_once "golang" "catalog" false "./out"
           disk (failing_at 7) ["123"] ["tmp"] ["work"] spawn workspace).
  vm_compute. constructor.
Defined.

Lemma validation_precedes_io_witness :
  rejected "go" "catalog" false "./out" (machine [])
  ∧ w_fs (Run "go" "catalog" false "./out" (machine [])).2 = w_fs (machine [])
  ∧ w_script (Run "go" "catalog" false "./out" (machine [])).2
    = w_script (machine [])
  ∧ created (w_trace (Run "go" "catalog" false "./out" (machine [])).2)
    = created (w_trace (machine [])).
Proof.
  apply (validation_precedes_io "go" "catalog" false "./out" (machine [])).
  left. vm_compute. reflexivity.
Defined.

Lemma service_gate_by_visibility_witness :
  rejected "golang" "jabba" false "./out" (machine [])
  ∧ ¬ rejected "golang" "jabba" true "./out" (machine []).
Proof.
  destruct (service_gate_by_visibility "golang" "jabba" "./out" (machine []))
    as (_ & Hpriv & _ & Hjabba & _); [vm_compute; reflexivity|].
  split; [exact Hjabba|]. intros Hr. apply Hpriv in Hr. apply Hr.
  repeat constructor.
Defined.

Lemma GenerateCode_without_profile_witness :
  GenerateCode "java" "catalog" (workspace ++ ["proto"]) compiled
  = (Done (Some "no command has been implemented for this language"), compiled)
  ∧ IsValidLanguage LanguageJava = true
  ∧ GenerateCode LanguageJava "catalog" (workspace ++ ["proto"]) compiled
    = (Done (Some "no command has been implemented for this language"), compiled).
Proof.
  apply (GenerateCode_without_profile "java" "catalog" (workspace ++ ["proto"])
           compiled).
  intros Hin. repeat (apply elem_of_cons in Hin as [Hin|Hin]; [discriminate|]).
  by inversion Hin.
Defined.

Lemma CopyProtobuf_stages_last_proto_witness :
  let r := CopyProtobuf "catalog" (workspace ++ ["catalog"])
             (workspace ++ ["proto"]) false (cloned []) in
  r.1 = Done None
  ∧ w_fs r.2 !! (workspace ++ ["proto"; "catalog.proto"])
    = Some (File "syntax = proto3; message Item {}")
  ∧ w_fs r.2 !! (workspace ++ ["proto"; "README.md"]) = None.
Proof.
  intros r.
  assert (r.1 = Done None) as Hok by (vm_compute; reflexivity).
  split; [exact Hok|].
  destruct (CopyProtobuf_stages_last_proto "catalog" (workspace ++ ["catalog"])
              (workspace ++ ["proto"]) false (cloned []) Hok)
    as (_ & Hframe & Hlast & _); [by vm_compute|].
  split.
  - destruct (Hlast "types.proto") as (data & Hd & Hc); [vm_compute; reflexivity|].
    vm_compute in Hd. injection Hd as <-. exact Hc.
  - rewrite Hframe; [vm_compute; reflexivity|by vm_compute].
Defined.

Lemma CopyGeneratedFiles_copies_all_but_proto_witness :
  let r := CopyGeneratedFiles (workspace ++ ["proto"]) "./out" compiled in
  r.1 = Done None
  ∧ w_fs r.2 !! ["work"; "out"; "catalog.pb.go"] = Some (File "package catalog")
  ∧ w_fs r.2 !! ["work"; "out"; "catalog.proto"] = None.
Proof.
  intros r.
  assert (r.1 = Done None) as Hok by (vm_compute; reflexivity).
  split; [exact Hok|].
  destruct (CopyGeneratedFiles_copies_all_but_proto (workspace ++ ["proto"])
              "./out" compiled Hok) as (Hcopy & Hproto & _); [by vm_compute|].
  split.
  - destruct (Hcopy "catalog.pb.go") as (data & Hd & Hc);
      [vm_compute; repeat constructor|by vm_compute|].
    vm_compute in Hd. injection Hd as <-. exact Hc.
  - etransitivity; [exact (Hproto "catalog.proto" eq_refl)|].
    vm_compute. reflexivity.
Defined.

(** C8 as stated fails: when the disk fills up during the copy, the canonical
    file is left with the first six bytes of the interface definition. *)
Lemma CopyProtobuf_leaves_half_written :
  (CopyProtobuf "catalog" (workspace ++ ["catalog"]) (workspace ++ ["proto"])
     false disk_full).1
  = Done (Some "cannot copy protobuf file: no space left on device")
  ∧ w_fs (CopyProtobuf "catalog" (workspace ++ ["catalog"])
            (workspace ++ ["proto"]) false disk_full).2
    !! (workspace ++ ["proto"; "catalog.proto"]) = Some (File "syntax")
  ∧ ¬ never_half_written "catalog" (workspace ++ ["catalog"])
        (workspace ++ ["proto"]) false disk_full.
Proof.
  split; [vm_compute; reflexivity|]. split; [vm_compute; reflexivity|].
  intros H.
  destruct (H "cannot copy protobuf file: no space left on device")
    as [Hnone|(n & data & Hin & _ & Hsrc & Hcanon)]; [vm_compute; reflexivity| |].
  - vm_compute in Hnone. discriminate Hnone.
  - assert (entries
              (Join (workspace ++ ["catalog"]) ["proto"; "public"])
              (w_fs disk_full)
            = ["README.md"; "catalog.proto"; "types.proto"]) as Hnames
      by (vm_compute; reflexivity).
    rewrite Hnames in Hin. clear Hnames H.
    repeat (apply elem_of_cons in Hin as [->|Hin];
            [vm_compute in Hsrc; injection Hsrc as <-; vm_compute in Hcanon;
             discriminate Hcanon|]).
    inversion Hin.
Qed.

Lemma CopyProtobuf_failure_state_witness :
  extraction_failure
    (workspace ++ ["catalog"; "proto"; "public"])
    (entries (workspace ++ ["catalog"; "proto"; "public"]) (w_fs disk_full))
    (w_fs disk_full)
    (w_fs (CopyProtobuf "catalog" (workspace ++ ["catalog"])
             (workspace ++ ["proto"]) false disk_full).2)
    (workspace ++ ["proto"; "catalog.proto"])
    "cannot copy protobuf file: no space left on device".
Proof.
  apply (CopyProtobuf_failure_state "catalog" (workspace ++ ["catalog"])
           (workspace ++ ["proto"]) false disk_full
           "cannot copy protobuf file: no space left on device").
  - vm_compute. reflexivity.
  - by vm_compute.
Defined.

Lemma CleanUpDirectories_idempotent_witness :
  let r1 := CleanUpDirectories workspace (cloned []) in
  let r2 := CleanUpDirectories workspace r1.2 in
  r1.1 = Done tt ∧ r2.1 = Done tt ∧ w_fs r2.2 = w_fs r1.2
  ∧ w_fs r1.2 !! (workspace ++ ["proto"]) = None.
Proof.
  intros r1 r2.
  destruct (CleanUpDirectories_idempotent workspace (cloned []))
    as [Hcalm _].
  destruct Hcalm as (H1 & H2 & _ & Hgone & Hsame & _); [vm_compute; reflexivity|].
  split; [exact H1|]. split; [exact H2|]. split; [exact Hsame|].
  apply Hgone. by exists ["proto"].
Defined.

(** C9 as stated fails: when the removal is refused, [CleanUpDirectories]
    ends the process and its caller does not get control back. *)
Lemma CleanUpDirectories_exits_on_error :
  (CleanUpDirectories workspace (cloned [Some (Fault "permission denied")])).1
  = Fatal ("Error: Could not remove directory '/tmp/client-generation-123': "
           +:+ "permission denied")
  ∧ ¬ never_crashes_caller workspace
        (cloned [Some (Fault "permission denied")]).
Proof.
  split; [vm_compute; reflexivity|].
  intros (w1 & w2 & H1 & _). vm_compute in H1. discriminate H1.
Defined.

(** A clone with no interface definition: extraction returns nil, the
    canonical file is absent, the compiler is started on it and the run of
    [GenerateCode] fails on the compiler's exit status. *)
Lemma CopyProtobuf_nothing_to_stage_witness :
  let w := boot (w_fs docs_only) [] [] ["tmp"] ["work"] strict_spawn in
  let r := CopyProtobuf "catalog" (workspace ++ ["catalog"])
             (workspace ++ ["proto"]) false w in
  let argv := goGenerateCmd "catalog" (workspace ++ ["proto"]) in
  let g := GenerateCode "golang" "catalog" (workspace ++ ["proto"]) r.2 in
  r.1 = Done None
  ∧ w_fs r.2 !! (workspace ++ ["proto"; "catalog.proto"]) = None
  ∧ last argv = Some "/tmp/client-generation-123/proto/catalog.proto"
  ∧ EvStart argv None ∈ w_trace g.2
  ∧ g.1 = Done (Some "failed to run generator command: exit status 1").
Proof.
  intros w r argv g.
  destruct (CopyProtobuf_nothing_to_stage "catalog" (workspace ++ ["catalog"])
              (workspace ++ ["proto"]) false w)
    as (Hok & _ & Habsent & Hcmd).
  - vm_compute. reflexivity.
  - vm_compute. reflexivity.
  - intros n Hn.
    assert (entries (Join (workspace ++ ["catalog"]) ["proto"; "public"])
              (w_fs w) = ["README.md"]) as Hnames
      by (vm_compute; reflexivity).
    rewrite Hnames in Hn. clear Hnames.
    apply list_elem_of_singleton in Hn. subst n.
    vm_compute. intros Hext. discriminate Hext.
  - split; [exact Hok|]. split; [apply Habsent; vm_compute; reflexivity|].
    destruct (Hcmd "golang") as (argv' & Ha & Hlast & _ & Hrun);
      [repeat constructor|].
    assert (argv' = argv) as -> by (by injection Ha as <-).
    split; [exact Hlast|].
    destruct Hrun as [Hstarted Hres];
      [vm_compute; reflexivity|vm_compute; reflexivity|].
    split; [exact Hstarted|]. etransitivity; [exact Hres|].
    vm_compute. reflexivity.
Defined.

(** * Further properties *)

(** ** The requests [Run] completes *)

Lemma returns_in_any {A} (m : M A) : returns_in m (fun _ => True).
Proof. by intros w a w' _. Qed.

Lemma returns_in_bind {A B} (m : M A) (k : A → M B) (S : A → Prop)
    (T : B → Prop) :
  returns_in m S → (∀ a, S a → returns_in (k a) T) → returns_in (bind m k) T.
Proof.
  intros Hm Hk w b w'. unfold bind. destruct (m w) as [[a|msg] w1] eqn:E; [|done].
  intros Hb. eapply Hk; [|exact Hb]. by eapply Hm.
Qed.

Lemma returns_in_defer {A} (d : M unit) (body : M A) (T : A → Prop) :
  returns_in body T → returns_in (defer d body) T.
Proof.
  intros Hb w a w'. unfold defer. destruct (body w) as [[b|msg] w1] eqn:E; [|done].
  destruct (d w1) as [[[]|msg] w2]; [|done]. intros [= <- _]. by eapply Hb.
Qed.

Lemma returns_in_Fatalf {A} msg (T : A → Prop) : returns_in (log_Fatalf msg) T.
Proof. by intros w a w'. Qed.

Lemma returns_in_bail {A} dir msg (T : A → Prop) :
  returns_in (CleanUpDirectories dir;; log_Fatalf msg) T.
Proof.
  eapply returns_in_bind; [apply returns_in_any|]. intros _ _.
  apply returns_in_Fatalf.
Qed.

Lemma protocCmd_of_profile language service (dir : path) argv :
  protocCmd_of language service dir = Some argv →
  language ∈ [LanguageGo; LanguageRuby; LanguagePython; LanguageJavascript].
Proof.
  unfold protocCmd_of.
  destruct (case_of language [LanguageGo]) eqn:E1.
  { apply case_of_elem, list_elem_of_singleton in E1. subst. intros _. repeat constructor. }
  destruct (case_of language [LanguageRuby]) eqn:E2.
  { apply case_of_elem, list_elem_of_singleton in E2. subst. intros _. repeat constructor. }
  destruct (case_of language [LanguagePython]) eqn:E3.
  { apply case_of_elem, list_elem_of_singleton in E3. subst. intros _. repeat constructor. }
  destruct (case_of language [LanguageJavascript]) eqn:E4.
  { apply case_of_elem, list_elem_of_singleton in E4. subst. intros _. repeat constructor. }
  done.
Qed.

Lemma GenerateCode_nil_profile language service (dir : path) :
  returns_in (GenerateCode language service dir)
    (fun err => err = None →
       language ∈ [LanguageGo; LanguageRuby; LanguagePython; LanguageJavascript]).
Proof.
  intros w err w'. unfold GenerateCode.
  destruct (protocCmd_of language service dir) as [argv|] eqn:E.
  - intros _ _. by eapply protocCmd_of_profile.
  - by intros [= <- _] [=].
Qed.

Lemma Run_done_gates language service (private : bool) outputPath w :
  (Run language service private outputPath w).1 = Done tt →
  IsValidLanguage language = true
  ∧ (if private then IsValidPrivateService service
     else IsValidPublicService service) = true.
Proof.
  intros Hdone.
  destruct (IsValidLanguage language) eqn:Hl.
  - split; [done|].
    destruct (if private then IsValidPrivateService service
              else IsValidPublicService service) eqn:Hs; [done|].
    destruct (Run_rejects language service private outputPath w) as [msg Hr].
    { right. destruct private; [right|left]; done. }
    by rewrite Hr in Hdone.
  - destruct (Run_rejects language service private outputPath w) as [msg Hr];
      [by left|]. by rewrite Hr in Hdone.
Qed.

(** X1: [Run] returns (exit status 0) only for a request that passes the three
    gates and whose language has a compiler command. *)
Theorem Run_done_only_supported language service (private : bool) outputPath w :
  (Run language service private outputPath w).1 = Done tt →
  language ∈ [LanguageGo; LanguageRuby; LanguagePython; LanguageJavascript]
  ∧ (if private then IsValidPrivateService service
     else IsValidPublicService service) = true.
Proof.
  intros Hdone.
  destruct (Run_done_gates language service private outputPath w Hdone)
    as [Hl Hs].
  split; [|done].
  assert (returns_in (Run language service private outputPath)
            (fun _ => language ∈ [LanguageGo; LanguageRuby; LanguagePython;
                                  LanguageJavascript])) as Hret;
    [|destruct (Run language service private outputPath w) as [o w'] eqn:Hrun;
      simpl in Hdone; subst o; exact (Hret w tt w' Hrun)].
  unfold Run.
  do 5 (eapply returns_in_bind; [apply returns_in_any|intros ? _]).
  match goal with |- returns_in (match ?r with _ => _ end) _ =>
    destruct r as [tmpDir|e] end; [|apply returns_in_Fatalf].
  apply returns_in_defer.
  eapply returns_in_bind; [apply returns_in_any|intros _ _].
  eapply returns_in_bind; [apply returns_in_any|intros [e|] _];
    [apply returns_in_bail|].
  eapply returns_in_bind; [apply returns_in_any|intros [serviceDir|e] _];
    [|apply returns_in_bail].
  eapply returns_in_bind; [apply returns_in_any|intros [e|] _];
    [apply returns_in_bail|].
  eapply returns_in_bind; [apply GenerateCode_nil_profile|].
  intros [e|] Hp; [apply returns_in_bail|].
  intros w0 u w' _. by apply Hp.
Qed.

(** ** How a run ends *)

Lemma ending_prefix o e1 e2 : ending o e2 → ending o (e1 ++ e2).
Proof.
  destruct o as [u|msg]; simpl.
  - intros (pre & t & ->). exists (e1 ++ pre), t. by rewrite app_assoc.
  - intros [(pre & ->) Hmsg]. split; [|done]. exists (e1 ++ pre).
    by rewrite app_assoc.
Qed.

Lemma reported_prefix o e1 e2 : reported o e2 → reported o (e1 ++ e2).
Proof. destruct o; [done|]. apply ending_prefix. Qed.

Lemma Fatalf_reported msg :
  (∃ rest, msg = "Error: " +:+ rest) →
  appends (log_Fatalf (A:=unit) msg) (fun o evs _ => reported o evs).
Proof. intros Hmsg w. exists [EvLog msg]. split; [done|]. split; [by exists []|done]. Qed.

Lemma CleanUpDirectories_ending dir :
  appends (CleanUpDirectories dir)
    (fun o evs _ => match o with
                    | Done _ => evs = [EvRemoveAll dir None]
                    | Fatal msg => ending (Fatal msg) evs
                    end).
Proof.
  intros w. unfold appends_at, CleanUpDirectories, bind, RemoveAll.
  pose proof (pop_fault_trace w) as Ht.
  destruct (pop_fault w) as [[flt|] w1]; simpl in Ht |- *.
  - eexists [_; _]. rewrite Ht, <- app_assoc. split; [done|].
    split; [by eexists [_]|by eexists].
  - eexists [_]. by rewrite Ht.
Qed.

Lemma bail_reported dir msg :
  (∃ rest, msg = "Error: " +:+ rest) →
  appends (CleanUpDirectories dir;; log_Fatalf (A:=unit) msg)
          (fun o evs _ => reported o evs).
Proof.
  intros Hmsg.
  eapply appends_bind; [apply CleanUpDirectories_ending| |].
  - intros [] e1 w1 _. eapply appends_at_weaken; [by apply Fatalf_reported|].
    intros o e2 w2. apply reported_prefix.
  - by intros m0 e1 w1 H.
Qed.

Ltac error_prefix := eexists; reflexivity.

Ltac reported_step lem :=
  apply appends_after_quiet;
  [apply lem|intros ? ? ? ? _; apply reported_prefix|].

Lemma Run_ending language service (private : bool) outputPath :
  appends (Run language service private outputPath)
          (fun o evs _ => ending o evs).
Proof.
  unfold Run.
  assert (∀ (c : bool) msg (k : M unit),
            (∃ rest, msg = "Error: " +:+ rest) →
            appends k (fun o evs _ => ending o evs) →
            appends ((if c then log_Fatalf msg else ret tt);; k)
                    (fun o evs _ => ending o evs)) as Hgate.
  { intros c msg k Hmsg Hk.
    eapply appends_bind
      with (P := fun o e _ => match o with
                              | Done _ => True
                              | Fatal m => ending (Fatal m) e
                              end).
    - destruct c; [|by apply appends_ret].
      intros w. exists [EvLog msg]. split; [done|]. split; [by exists []|done].
    - intros [] e1 w1 _. eapply appends_at_weaken; [apply Hk|].
      intros o e2 w2. apply ending_prefix.
    - by intros m0 e1 w1 H. }
  apply Hgate; [error_prefix|]. apply Hgate; [error_prefix|].
  apply Hgate; [error_prefix|].
  apply appends_after_quiet;
    [apply quiet_TempDir|intros ? ? ? ? _; apply ending_prefix|intros tmp].
  eapply appends_bind with (P := fun o e _ => ∃ r, o = Done r).
  { intros w. unfold appends_at, MkdirTemp. pose proof (pop_fault_trace w) as Ht.
    destruct (pop_fault w) as [f w1]; simpl in Ht |- *.
    repeat case_match; simpl; rewrite Ht; eexists; split; try done; by eexists. }
  2:{ intros msg e1 w1 [r [=]]. }
  intros r e1 w1 _. eapply appends_at_weaken with (P := fun o e _ => ending o e);
    [|intros o e2 w2; apply ending_prefix].
  revert w1. change (appends ?m ?P) with (appends m P).
  match goal with |- ∀ w, appends_at ?m w ?P => change (appends m P) end.
  destruct r as [tmpDir|e].
  2:{ intros w. eexists [EvLog _]. split; [done|]. split; [by exists []|error_prefix]. }
  eapply appends_defer with (P := fun o e _ => reported o e).
  - reported_step quiet_Printf. intros _.
    reported_step quiet_Mkdir. intros [e|]; [apply bail_reported; error_prefix|].
    reported_step quiet_CloneService.
    intros [serviceDir|e]; [|apply bail_reported; error_prefix].
    reported_step quiet_CopyProtobuf.
    intros [e|]; [apply bail_reported; error_prefix|].
    reported_step quiet_GenerateCode.
    intros [e|]; [apply bail_reported; error_prefix|].
    reported_step quiet_CopyGeneratedFiles.
    intros [e|]; [apply bail_reported; error_prefix|].
    by apply appends_ret.
  - intros a e3 w3 _.
    eapply appends_at_weaken; [apply CleanUpDirectories_ending|].
    intros [u|msg] e4 w4 H; cbv beta.
    + subst e4. by exists e3, tmpDir.
    + by apply ending_prefix.
  - by intros msg e3 w3 H.
Qed.

(** X2: when [Run] ends the process, the message has the prefix [Error: ] and
    logging it is the last thing the process did. *)
Theorem Run_fatal_is_reported language service (private : bool) outputPath w msg :
  (Run language service private outputPath w).1 = Fatal msg →
  last (w_trace (Run language service private outputPath w).2) = Some (EvLog msg)
  ∧ ∃ rest, msg = "Error: " +:+ rest.
Proof.
  intros Hf.
  destruct (Run_ending language service private outputPath w) as (evs & Ht & He).
  rewrite Hf in He. destruct He as [(pre & ->) Hmsg]. split; [|done].
  rewrite Ht, app_assoc. apply last_snoc.
Qed.

(** X3: when [Run] returns (exit status 0), it created one workspace, the last
    thing it did was to remove it without error, and nothing is left at or
    below it. *)
Theorem Run_done_leaves_no_workspace
    language service (private : bool) outputPath m script rand tempdir cwd spawn :
  let r := Run language service private outputPath
             (boot m script rand tempdir cwd spawn) in
  r.1 = Done tt →
  ∃ tmpDir, created (w_trace r.2) = [tmpDir]
            ∧ last (w_trace r.2) = Some (EvRemoveAll tmpDir None)
            ∧ ∀ p, tmpDir `prefix_of` p → w_fs r.2 !! p = None.
Proof.
  intros r Hdone. subst r.
  set (w := boot m script rand tempdir cwd spawn) in *.
  destruct (Run_done_gates language service private outputPath w Hdone)
    as [Hl Hs].
  destruct (Run_admits language service private outputPath Hl Hs w)
    as (evs & Ht & r & rest & Hevs & Hcr & Hc & Hsw).
  destruct (Run_ending language service private outputPath w)
    as (evs' & Ht' & He).
  rewrite Ht in Ht'. apply app_inv_head in Ht'. subst evs'.
  rewrite Hdone in He. destruct He as (pre & t & Hlast).
  assert (EvRemoveAll t None ∈ evs) as Hin.
  { rewrite Hlast. apply elem_of_app. right. constructor. }
  pose proof (removed_elem _ _ _ Hin) as Hrem. rewrite <- Hcr, Hc in Hrem.
  destruct r as [tmpDir|e]; [|by inversion Hrem].
  apply list_elem_of_singleton in Hrem. subst t.
  exists tmpDir. rewrite Ht. simpl. split; [done|]. split.
  - rewrite Hlast. apply last_snoc.
  - by apply Hsw.
Qed.

(** ** The stages that hold the workspace *)

Lemma Run_stages language service (private : bool) outputPath :
  Run language service private outputPath
  = ((if negb (IsValidLanguage language)
      then log_Fatalf ("Error: Client code generation is not supported for '"
                       +:+ language +:+ "'" +:+ nl)
      else ret tt);;
     (if negb private && negb (IsValidPublicService service)
      then log_Fatalf ("Error: The service '" +:+ service
                       +:+ "' does not have a public protobuf defined" +:+ nl)
      else ret tt);;
     (if private && negb (IsValidPrivateService service)
      then log_Fatalf ("Error: The service '" +:+ service
                       +:+ "' does not have a private protobuf defined" +:+ nl)
      else ret tt);;
     tmp <- TempDir;;
     r <- MkdirTemp tmp "client-generation-";;
     match r with
     | Err e =>
         log_Fatalf ("Error: Cannot create temporary directory: " +:+ e +:+ nl)
     | Ok tmpDir => stages language service private outputPath tmpDir
     end).
Proof. reflexivity. Qed.

(** With the gates passed, [Run] is [MkdirTemp] and then the stages. *)
Lemma Run_admitted language service (private : bool) outputPath w :
  IsValidLanguage language = true →
  (if private then IsValidPrivateService service
   else IsValidPublicService service) = true →
  Run language service private outputPath w
  = (r <- MkdirTemp (w_tempdir w) "client-generation-";;
     match r with
     | Err e =>
         log_Fatalf ("Error: Cannot create temporary directory: " +:+ e +:+ nl)
     | Ok tmpDir => stages language service private outputPath tmpDir
     end) w.
Proof.
  intros Hl Hs. rewrite Run_stages. rewrite Hl. cbn [negb].
  assert (negb private && negb (IsValidPublicService service) = false) as ->.
  { destruct private; [done|]. by rewrite Hs. }
  assert (private && negb (IsValidPrivateService service) = false) as ->.
  { destruct private; [|done]. by rewrite Hs. }
  reflexivity.
Qed.

Lemma fresh_name_spec (m : fsmap) (dir : path) pattern rand p rest :
  fresh_name m dir pattern rand = Some (p, rest) →
  ∃ suffix, suffix ∈ rand ∧ p = dir ++ [pattern +:+ suffix] ∧ m !! p = None.
Proof.
  induction rand as [|r rand IH]; simpl; [done|].
  destruct (m !! (dir ++ [pattern +:+ r])) eqn:E.
  - intros H. destruct (IH H) as (s & Hs & Hp & Hm).
    exists s. split; [by right|done].
  - intros [= <- <-]. exists r. split; [left|done].
Qed.

Lemma MkdirTemp_inv (dir : path) pattern w o w1 :
  MkdirTemp dir pattern w = (o, w1) →
  ∃ r, o = Done r
       ∧ w_trace w1 = w_trace w ++ [EvMkdirTemp r]
       ∧ match r with
         | Ok p => (∃ suffix, suffix ∈ w_rand w ∧ p = dir ++ [pattern +:+ suffix])
                   ∧ w_fs w !! p = None
                   ∧ w_fs w1 = <[p := Dir]> (w_fs w)
         | Err _ => w_fs w1 = w_fs w
         end.
Proof.
  unfold MkdirTemp, pop_fault.
  destruct (w_script w) as [|[f|] script]; simpl.
  all: try (repeat case_match; intros [= <- <-]; simpl; eexists;
            (split; [done|]); (split; [done|]); simpl; try done).
  all: match goal with H : fresh_name _ _ _ _ = Some _ |- _ =>
         apply fresh_name_spec in H as (s & Hs & -> & Hm); eauto end.
Qed.

(** ** Classes of events *)

Lemma emits_ret {A} ok (a : A) : emits ok (ret a).
Proof. apply appends_ret. intros _. split; [by eexists|constructor]. Qed.

Lemma emits_bind {A B} ok (m : M A) (k : A → M B) :
  emits ok m → (∀ a, emits ok (k a)) → emits ok (bind m k).
Proof.
  intros Hm Hk. eapply appends_bind; [exact Hm| |].
  - intros a e1 w1 [_ H1]. eapply appends_at_weaken; [apply Hk|].
    intros o e2 w2 [Ho H2]. split; [done|]. by apply Forall_app.
  - intros msg e1 w1 [[a [=]] _].
Qed.

Lemma emits_weaken {A} (ok ok' : event → Prop) (m : M A) :
  (∀ ev, ok ev → ok' ev) → emits ok m → emits ok' m.
Proof.
  intros Hsub Hm. eapply appends_weaken; [exact Hm|].
  intros o evs w' [Ho Hall]. split; [done|].
  eapply Forall_impl; [exact Hall|exact Hsub].
Qed.

Lemma emits_step {A} ok (m : M A) :
  (∀ w, ∃ a w1 e, m w = (Done a, emit e w1) ∧ w_trace w1 = w_trace w ∧ ok e) →
  emits ok m.
Proof.
  intros H w. destruct (H w) as (a & w1 & e & Hm & Ht & Hok).
  exists [e]. rewrite Hm. simpl. rewrite Ht. split; [done|].
  split; [by eexists|by repeat constructor].
Qed.

Ltac emits_syscall H :=
  apply emits_step; intros w;
  pose proof (pop_fault_trace w) as Ht;
  destruct (pop_fault w) as [f w1]; simpl in Ht |- *;
  repeat case_match; simpl;
  eexists _, _, _; (split; [reflexivity|]); (split; [simpl; done|apply H]).

Lemma emits_Printf ok msg : ok (EvLog msg) → emits ok (log_Printf msg).
Proof. intros H. apply emits_step. intros w. by eexists _, _, _. Qed.

Lemma emits_Getwd ok : (∀ e, ok (EvGetwd e)) → emits ok Getwd.
Proof. intros H. unfold Getwd. emits_syscall H. Qed.

Lemma emits_Mkdir ok p : (∀ e, ok (EvMkdir p e)) → emits ok (Mkdir p).
Proof. intros H. unfold Mkdir. emits_syscall H. Qed.

Lemma emits_ReadDir ok d : (∀ e, ok (EvReadDir d e)) → emits ok (ReadDir d).
Proof. intros H. unfold ReadDir. emits_syscall H. Qed.

Lemma emits_Open ok p : (∀ e, ok (EvOpen p e)) → emits ok (Open p).
Proof. intros H. unfold Open. emits_syscall H. Qed.

Lemma emits_Create ok p : (∀ e, ok (EvCreate p e)) → emits ok (Create p).
Proof. intros H. unfold Create. emits_syscall H. Qed.

Lemma emits_Copy ok dst src :
  (∀ e, ok (EvCopy dst src e)) → emits ok (Copy dst src).
Proof. intros H. unfold Copy. emits_syscall H. Qed.

Lemma emits_Pipe ok : (∀ e, ok (EvPipe e)) → emits ok exec.Pipe.
Proof. intros H. unfold exec.Pipe. emits_syscall H. Qed.

Lemma emits_Start ok argv : (∀ e, ok (EvStart argv e)) → emits ok (exec.Start argv).
Proof. intros H. unfold exec.Start. emits_syscall H. Qed.

Lemma emits_ReadAll ok s : (∀ e, ok (EvReadAll e)) → emits ok (exec.ReadAll s).
Proof. intros H. unfold exec.ReadAll. emits_syscall H. Qed.

Lemma emits_Wait ok argv p : (∀ e, ok (EvWait argv e)) → emits ok (exec.Wait argv p).
Proof. intros H. unfold exec.Wait. emits_syscall H. Qed.

(** ** What extraction and collection touch *)

Lemma Open_result p w :
  ∀ h w1, Open p w = (Done (Ok h), w1) → h = p.
Proof. intros h w1 H. by apply Open_inv in H as (_ & r & [= <-] & [-> _]). Qed.

Lemma Create_result p w :
  ∀ h w1, Create p w = (Done (Ok h), w1) → h = p.
Proof. intros h w1 H. by apply Create_inv in H as (r & [= <-] & [-> _]). Qed.

(** A system call whose handle is then used: the continuation gets the path
    the handle was opened at. *)
Lemma emits_bind_handle {B} ok (m : M (res handle)) (p : path) (k : res handle → M B) :
  emits ok m →
  (∀ w h w1, m w = (Done (Ok h), w1) → h = p) →
  emits ok (k (Ok p)) → (∀ e, emits ok (k (Err e))) →
  emits ok (bind m k).
Proof.
  intros Hm Hp Hok Herr w. unfold appends_at, bind.
  destruct (Hm w) as (e1 & Ht & [[a Ha] H1]).
  destruct (m w) as [o w1] eqn:E. simpl in *. subst o.
  assert (emits ok (k a)) as Hk.
  { destruct a as [h|e]; [|apply Herr]. by rewrite (Hp w h w1 E). }
  destruct (Hk w1) as (e2 & Ht2 & [Ho H2]).
  exists (e1 ++ e2). rewrite Ht2, Ht, app_assoc. split; [done|].
  split; [done|by apply Forall_app].
Qed.

Lemma creates_CopyProtobuf_range service (srcdir protoDir : path) files :
  emits (creates_only (Join protoDir [service +:+ ".proto"]))
        (CopyProtobuf_range service srcdir protoDir files).
Proof.
  induction files as [|f rest IH]; simpl; [apply emits_ret|].
  destruct (negb (String.eqb (Ext f) ".proto")); [done|].
  apply emits_bind_handle with (Join srcdir [f]);
    [by apply emits_Open|apply Open_result| |intros e; apply emits_ret].
  apply emits_bind_handle with (Join protoDir [service +:+ ".proto"]);
    [by apply emits_Create|apply Create_result| |intros e; apply emits_ret].
  apply emits_bind; [by apply emits_Copy|].
  intros [e|]; [apply emits_ret|done].
Qed.

(** [CopyProtobuf] creates no file but the canonical one. *)
Lemma creates_CopyProtobuf service (serviceDir protoDir : path) (private : bool) :
  emits (creates_only (Join protoDir [service +:+ ".proto"]))
        (CopyProtobuf service serviceDir protoDir private).
Proof.
  unfold CopyProtobuf. apply emits_bind; [by apply emits_ReadDir|].
  intros [files|e]; [apply creates_CopyProtobuf_range|apply emits_ret].
Qed.

Lemma emits_CopyProtobuf_range service (srcdir protoDir : path) names files :
  Forall (fun n => valid_name n = true) files →
  (∀ n, n ∈ files → n ∈ names) →
  emits (extraction_event srcdir (Join protoDir [service +:+ ".proto"]) names)
        (CopyProtobuf_range service srcdir protoDir files).
Proof.
  intros Hvalid. induction Hvalid as [|f rest Hf _ IH]; intros Hsub; simpl;
    [apply emits_ret|].
  assert (∀ n, n ∈ rest → n ∈ names) as Hrest
    by (intros n Hn; apply Hsub; by right).
  destruct (String.eqb_spec (Ext f) ".proto") as [Hext|Hext]; simpl; [|by apply IH].
  assert (f ∈ names) as Hin by (apply Hsub; left).
  rewrite (Join_name srcdir f Hf).
  apply emits_bind_handle with (srcdir ++ [f]);
    [apply emits_Open; intros e; by apply ExtOpen|apply Open_result|
     |intros e; apply emits_ret].
  apply emits_bind_handle with (Join protoDir [service +:+ ".proto"]);
    [apply emits_Create; intros e; by apply ExtCreate|apply Create_result|
     |intros e; apply emits_ret].
  apply emits_bind; [apply emits_Copy; intros e; by apply ExtCopy|].
  intros [e|]; [apply emits_ret|by apply IH].
Qed.

Lemma emits_CopyGeneratedFiles_range (cwd protoDir : path) outputPath names files :
  Forall (fun n => valid_name n = true) files →
  (∀ n, n ∈ files → n ∈ names) →
  emits (collection_event (Join cwd [outputPath]) protoDir names)
        (CopyGeneratedFiles_range cwd protoDir outputPath files).
Proof.
  intros Hvalid. induction Hvalid as [|f rest Hf _ IH]; intros Hsub; simpl;
    [apply emits_ret|].
  assert (∀ n, n ∈ rest → n ∈ names) as Hrest
    by (intros n Hn; apply Hsub; by right).
  destruct (String.eqb_spec (Ext f) ".proto") as [Hext|Hext]; simpl; [by apply IH|].
  assert (f ∈ names) as Hin by (apply Hsub; left).
  rewrite (Join_name protoDir f Hf), (Join_snoc cwd outputPath f Hf).
  apply emits_bind_handle with (protoDir ++ [f]);
    [apply emits_Open; intros e; by apply ColOpen|apply Open_result|
     |intros e; apply emits_ret].
  apply emits_bind_handle with (Join cwd [outputPath] ++ [f]);
    [apply emits_Create; intros e; by apply ColCreate|apply Create_result|
     |intros e; apply emits_ret].
  apply emits_bind; [apply emits_Copy; intros e; by apply ColCopy|].
  intros [e|]; [apply emits_ret|by apply IH].
Qed.

Lemma ReadDir_emits (d : path) w :
  ∃ r e w1, ReadDir d w = (Done r, w1)
            ∧ w_trace w1 = w_trace w ++ [EvReadDir d e]
            ∧ w_fs w1 = w_fs w
            ∧ match r with
              | Ok files => files = entries d (w_fs w)
              | Err _ => True
              end.
Proof.
  unfold ReadDir. pose proof (pop_fault_trace w) as Ht.
  pose proof (pop_fault_fs w) as Hfs.
  destruct (pop_fault w) as [f w0]; simpl in Ht, Hfs |- *. rewrite <- Hfs.
  repeat case_match; simpl; eexists _, _, _; (split; [reflexivity|]); simpl;
    rewrite Ht; done.
Qed.

Lemma entries_valid (d : path) (m : fsmap) :
  Forall (fun n => valid_name n = true) (entries d m).
Proof. apply Forall_forall. intros x Hx. by apply elem_of_entries in Hx as [? _]. Qed.

(** X4: [CopyProtobuf] ends with a return to its caller (it never ends the
    process), and every system call it makes is one of: listing the selected
    directory, which comes first; opening the child of that directory named
    by an entry the listing gave, of extension .proto; creating the canonical
    file; copying from such a child into the canonical file.  It opens and
    writes nothing else. *)
Theorem CopyProtobuf_touches_only
    service (serviceDir protoDir : path) (private : bool) w :
  let srcdir := if private then Join serviceDir ["proto"; "private"]
                else Join serviceDir ["proto"; "public"] in
  let canon := Join protoDir [service +:+ ".proto"] in
  let r := CopyProtobuf service serviceDir protoDir private w in
  ∃ err evs, r.1 = Done err
             ∧ w_trace r.2 = w_trace w ++ evs
             ∧ Forall (extraction_event srcdir canon (entries srcdir (w_fs w)))
                      evs
             ∧ ∃ e rest, evs = EvReadDir srcdir e :: rest.
Proof.
  intros srcdir canon r. subst r. unfold CopyProtobuf. fold srcdir.
  destruct (ReadDir_emits srcdir w) as (r0 & e & w1 & E & Hw1 & Hfs1 & Hr0).
  rewrite (bind_done _ _ _ _ _ E). destruct r0 as [files|e0].
  - subst files.
    destruct (emits_CopyProtobuf_range service srcdir protoDir
                (entries srcdir (w_fs w)) (entries srcdir (w_fs w))
                (entries_valid _ _) (fun n H => H) w1)
      as (evs & Ht & [err Herr] & Hall).
    exists err, (EvReadDir srcdir e :: evs). split; [exact Herr|]. split.
    + etrans; [exact Ht|]. by rewrite Hw1, <- app_assoc.
    + split; [|by eexists _, _]. constructor; [apply ExtReadDir|exact Hall].
  - eexists _, [EvReadDir srcdir e]. simpl. split; [done|]. split; [done|].
    split; [|by eexists _, _]. repeat constructor.
Qed.

(** X5: [CopyGeneratedFiles] ends with a return to its caller (it never ends
    the process), and every system call it makes is one of: asking for the
    working directory; listing staging; opening the child of staging named by
    an entry the listing gave, of an extension other than .proto; creating,
    and copying into, the child of the same name of the output directory (the
    output path joined to the working directory).  It opens nothing outside
    staging and writes nothing outside the output directory. *)
Theorem CopyGeneratedFiles_touches_only (protoDir : path) outputPath w :
  let outdir := Join (w_cwd w) [outputPath] in
  let r := CopyGeneratedFiles protoDir outputPath w in
  ∃ err evs, r.1 = Done err
             ∧ w_trace r.2 = w_trace w ++ evs
             ∧ Forall (collection_event outdir protoDir
                         (entries protoDir (w_fs w))) evs.
Proof.
  intros outdir r. subst r.
  destruct (Getwd w) as [o w0] eqn:E0.
  assert (∃ r e, o = Done r ∧ w_trace w0 = w_trace w ++ [EvGetwd e]
                 ∧ w_fs w0 = w_fs w
                 ∧ match r with Ok c => c = w_cwd w | Err _ => True end)
    as (r0 & e & -> & Hw0 & Hfs0 & Hr0).
  { revert E0. unfold Getwd, pop_fault.
    destruct (w_script w) as [|[f|] rest]; intros [= <- <-]; simpl;
      by eexists _, _. }
  pose proof (bind_done _ _ _ _ _ E0 : CopyGeneratedFiles protoDir outputPath w = _)
    as Heq.
  rewrite Heq. destruct r0 as [cwd|e0].
  2:{ eexists _, [EvGetwd e]. simpl. split; [done|]. split; [done|].
      repeat constructor. }
  subst cwd.
  destruct (ReadDir_emits protoDir w0) as (r1 & e1 & w1 & E1 & Hw1 & Hfs1 & Hr1).
  rewrite (bind_done _ _ _ _ _ E1). destruct r1 as [files|e2].
  - subst files. rewrite Hfs0.
    destruct (emits_CopyGeneratedFiles_range (w_cwd w) protoDir outputPath
                (entries protoDir (w_fs w)) (entries protoDir (w_fs w))
                (entries_valid _ _) (fun n H => H) w1)
      as (evs & Ht & [err Herr] & Hall).
    exists err, (EvGetwd e :: EvReadDir protoDir e1 :: evs).
    split; [exact Herr|]. split.
    + etrans; [exact Ht|]. by rewrite Hw1, Hw0, <- !app_assoc.
    + constructor; [apply ColGetwd|]. constructor; [apply ColReadDir|exact Hall].
  - eexists _, [EvGetwd e; EvReadDir protoDir e1]. simpl. split; [done|].
    split; [by rewrite Hw1, Hw0, <- app_assoc|]. repeat constructor.
Qed.

(** ** The compiler stage: [GenerateCode] *)

Lemma appends_conj {A} (m : M A) (P Q : outcome A → list event → world → Prop) :
  appends m P → appends m Q →
  appends m (fun o evs w' => P o evs w' ∧ Q o evs w').
Proof.
  intros HP HQ w. destruct (HP w) as (e1 & Ht1 & H1).
  destruct (HQ w) as (e2 & Ht2 & H2). exists e1. split; [done|]. split; [done|].
  rewrite Ht1 in Ht2. apply app_inv_head in Ht2. by subst e2.
Qed.

Lemma emits_GenerateCode language service (dir : path) :
  emits no_create (GenerateCode language service dir).
Proof.
  unfold GenerateCode.
  destruct (protocCmd_of language service dir) as [argv|]; [|apply emits_ret].
  repeat first
    [ apply emits_ret
    | apply emits_Printf; exact I
    | apply emits_bind;
      [first [ apply emits_Pipe | apply emits_Start | apply emits_ReadAll
             | apply emits_Wait | idtac ];
       try (intros ?; exact I)
      |intros ?; cbv beta]
    | match goal with
      | |- emits _ (match ?x with _ => _ end) => destruct x
      | |- emits _ (if ?x then _ else _) => destruct x
      end ].
Qed.

Lemma appends_Wait argv p :
  appends (exec.Wait argv p)
          (fun o evs _ => ∃ e, o = Done e ∧ evs = [EvWait argv e]).
Proof.
  intros w. unfold appends_at, exec.Wait. pose proof (pop_fault_trace w) as Ht.
  destruct (pop_fault w) as [f w1]; simpl in Ht |- *.
  eexists. rewrite Ht. split; [done|]. by eexists.
Qed.

(** A nil return of [GenerateCode] comes after the compiler's [Wait] reported
    no error. *)
Lemma GenerateCode_nil_waited language service (dir : path) :
  appends (GenerateCode language service dir)
    (fun o evs _ => o = Done None →
                    ∃ g, compiled_ok language service dir g ∧ g ∈ evs).
Proof.
  unfold GenerateCode.
  destruct (protocCmd_of language service dir) as [argv|] eqn:Hcmd;
    [|by apply appends_ret].
  assert (∀ (o : outcome error) (e1 e2 : list event),
            (o = Done None → ∃ g, compiled_ok language service dir g ∧ g ∈ e2) →
            o = Done None → ∃ g, compiled_ok language service dir g ∧ g ∈ e1 ++ e2)
    as Hpre.
  { intros o e1 e2 H Ho. destruct (H Ho) as (g & Hg & Hin).
    exists g. split; [done|]. apply elem_of_app. by right. }
  apply appends_after_quiet; [apply quiet_Pipe|intros ? ? ? ? _; apply Hpre|].
  intros [e|]; [by apply appends_ret|].
  apply appends_after_quiet; [apply quiet_Pipe|intros ? ? ? ? _; apply Hpre|].
  intros [e|]; [by apply appends_ret|].
  apply appends_after_quiet; [apply quiet_Start|intros ? ? ? ? _; apply Hpre|].
  intros [p|e]; [|by apply appends_ret].
  apply appends_after_quiet; [apply quiet_ReadAll|intros ? ? ? ? _; apply Hpre|].
  intros [logs|e]; [|by apply appends_ret].
  apply appends_after_quiet;
    [destruct (0 <? String.length logs); [apply quiet_Printf|apply quiet_ret]
    |intros ? ? ? ? _; apply Hpre|].
  intros _.
  apply appends_after_quiet; [apply quiet_ReadAll|intros ? ? ? ? _; apply Hpre|].
  intros [logs'|e]; [|by apply appends_ret].
  apply appends_after_quiet;
    [destruct (0 <? String.length logs'); [apply quiet_Printf|apply quiet_ret]
    |intros ? ? ? ? _; apply Hpre|].
  intros _.
  eapply appends_bind; [apply appends_Wait| |].
  - intros e e1 w1 (e' & [= <-] & ->). destruct e as [e|].
    + apply appends_ret. by intros _ [=].
    + apply appends_ret. intros _ _. exists (EvWait argv None).
      split; [by exists argv|]. rewrite app_nil_r. constructor.
  - intros msg e1 w1 (e' & [=] & _).
Qed.

(** ** The order of the stages *)

Lemma app_eq_split {A} (e1 e2 pre post : list A) (x : A) :
  e1 ++ e2 = pre ++ x :: post →
  (∃ mid, e1 = pre ++ x :: mid ∧ post = mid ++ e2)
  ∨ (∃ pre2, pre = e1 ++ pre2 ∧ e2 = pre2 ++ x :: post).
Proof.
  revert pre. induction e1 as [|y e1 IH]; intros pre; simpl.
  - intros ->. right. by exists pre.
  - destruct pre as [|z pre]; simpl.
    + intros [= -> <-]. left. by exists e1.
    + intros [= -> H]. destruct (IH pre H) as [(mid & -> & ->)|(pre2 & -> & ->)].
      * left. by exists mid.
      * right. by exists pre2.
Qed.

Lemma creates_only_elem canon (e1 : list event) pre p e mid :
  Forall (creates_only canon) e1 → e1 = pre ++ EvCreate p e :: mid → p = canon.
Proof.
  intros Hall ->. apply Forall_app in Hall as [_ Hall].
  by apply Forall_cons in Hall as [H _].
Qed.

Lemma guarded_after_only canon guard e1 e2 :
  Forall (creates_only canon) e1 →
  creates_guarded canon guard e2 → creates_guarded canon guard (e1 ++ e2).
Proof.
  intros H1 H2 pre p e post Heq.
  apply app_eq_split in Heq as [(mid & Heq & _)|(pre2 & -> & Heq)].
  - left. by eapply creates_only_elem.
  - destruct (H2 _ _ _ _ Heq) as [->|(g & Hg & Hin)]; [by left|].
    right. exists g. split; [done|]. apply elem_of_app. by right.
Qed.

Lemma guarded_only canon guard e1 :
  Forall (creates_only canon) e1 → creates_guarded canon guard e1.
Proof.
  intros H1 pre p e post Heq. left. by eapply creates_only_elem.
Qed.

Lemma guarded_once_seen canon guard e1 e2 :
  Forall (creates_only canon) e1 → (∃ g, guard g ∧ g ∈ e1) →
  creates_guarded canon guard (e1 ++ e2).
Proof.
  intros H1 (g & Hg & Hin) pre p e post Heq.
  apply app_eq_split in Heq as [(mid & Heq & _)|(pre2 & -> & Heq)].
  - left. by eapply creates_only_elem.
  - right. exists g. split; [done|]. apply elem_of_app. by left.
Qed.

Lemma guarded_before_only canon guard e1 e2 :
  creates_guarded canon guard e1 → Forall (creates_only canon) e2 →
  creates_guarded canon guard (e1 ++ e2).
Proof.
  intros H1 H2 pre p e post Heq.
  apply app_eq_split in Heq as [(mid & Heq & _)|(pre2 & -> & Heq)].
  - by eapply H1.
  - left. by eapply creates_only_elem.
Qed.

Lemma no_create_only canon ev : no_create ev → creates_only canon ev.
Proof. by destruct ev. Qed.

Lemma emits_exec_Run ok argv :
  (∀ e, ok (EvStart argv e)) → (∀ e, ok (EvWait argv e)) →
  emits ok (exec.Run argv).
Proof.
  intros Hs Hw. unfold exec.Run. apply emits_bind; [by apply emits_Start|].
  intros [p|e]; [by apply emits_Wait|apply emits_ret].
Qed.

Lemma emits_CloneService service (dir : path) :
  emits no_create (CloneService service dir).
Proof.
  unfold CloneService. apply emits_bind; [by apply emits_exec_Run|].
  intros [e|]; apply emits_ret.
Qed.

Lemma CleanUpDirectories_no_create dir :
  appends (CleanUpDirectories dir) (fun _ evs _ => Forall no_create evs).
Proof.
  intros w. unfold appends_at, CleanUpDirectories, bind, RemoveAll.
  pose proof (pop_fault_trace w) as Ht.
  destruct (pop_fault w) as [[flt|] w1]; simpl in Ht |- *.
  - eexists [_; _]. rewrite Ht, <- app_assoc. split; [done|]. by repeat constructor.
  - eexists [_]. rewrite Ht. split; [done|]. by repeat constructor.
Qed.

Lemma bail_no_create {A} dir msg :
  appends (CleanUpDirectories dir;; log_Fatalf (A:=A) msg)
          (fun _ evs _ => Forall no_create evs).
Proof.
  eapply appends_bind; [apply CleanUpDirectories_no_create| |].
  - intros [] e1 w1 H1. exists [EvLog msg]. split; [done|].
    apply Forall_app. split; [done|]. by repeat constructor.
  - by intros m0 e1 w1 H.
Qed.

(** The stages create no file but the canonical one until the compiler has
    exited with status zero. *)
Lemma stages_guarded language service (private : bool) outputPath (tmpDir : path) :
  appends (stages language service private outputPath tmpDir)
    (fun _ evs _ =>
       creates_guarded (Join (Join tmpDir ["proto"]) [service +:+ ".proto"])
         (compiled_ok language service (Join tmpDir ["proto"])) evs).
Proof.
  set (protoDir := Join tmpDir ["proto"]).
  set (canon := Join protoDir [service +:+ ".proto"]).
  set (guard := compiled_ok language service protoDir).
  assert (∀ {A} (m : M A) (k : A → M unit),
            emits (creates_only canon) m →
            (∀ a, appends (k a) (fun _ evs _ => creates_guarded canon guard evs)) →
            appends (bind m k) (fun _ evs _ => creates_guarded canon guard evs))
    as Hstep.
  { intros A m k Hm Hk. eapply appends_bind; [exact Hm| |].
    - intros a e1 w1 [_ H1]. eapply appends_at_weaken; [apply Hk|].
      intros o e2 w2. by apply guarded_after_only.
    - intros msg e1 w1 [[a [=]] _]. }
  assert (∀ msg, appends (CleanUpDirectories tmpDir;; log_Fatalf (A:=unit) msg)
                   (fun _ evs _ => creates_guarded canon guard evs)) as Hbail.
  { intros msg. eapply appends_weaken; [apply bail_no_create|].
    intros o evs w' H. apply guarded_only.
    eapply Forall_impl; [exact H|apply no_create_only]. }
  unfold stages. fold protoDir.
  eapply appends_defer
    with (P := fun _ evs _ => creates_guarded canon guard evs).
  2:{ intros a e1 w1 H1.
      eapply appends_at_weaken; [apply CleanUpDirectories_no_create|].
      intros o e2 w2 H2. cbv beta. apply guarded_before_only; [done|].
      eapply Forall_impl; [exact H2|apply no_create_only]. }
  2:{ by intros msg e1 w1 H. }
  apply Hstep; [by apply emits_Printf|intros _].
  apply Hstep;
    [eapply emits_weaken; [apply no_create_only|by apply emits_Mkdir]|].
  intros [e|]; [apply Hbail|].
  apply Hstep;
    [eapply emits_weaken; [apply no_create_only|apply emits_CloneService]|].
  intros [serviceDir|e]; [|apply Hbail].
  apply Hstep;
    [apply creates_CopyProtobuf|].
  intros [e|]; [apply Hbail|]. fold canon.
  eapply appends_bind;
    [apply appends_conj;
       [apply emits_GenerateCode|apply GenerateCode_nil_waited]| |].
  2:{ intros msg e1 w1 [[[a [=]] _] _]. }
  intros err e1 w1 [[_ Hnc] Hnil].
  assert (Forall (creates_only canon) e1) as Honly
    by (eapply Forall_impl; [exact Hnc|apply no_create_only]).
  destruct err as [e|].
  - eapply appends_at_weaken; [apply Hbail|].
    intros o e2 w2. by apply guarded_after_only.
  - assert (appends (err <- CopyGeneratedFiles protoDir outputPath;;
                     match err with
                     | Some e =>
                         CleanUpDirectories tmpDir;;
                         log_Fatalf ("Error: " +:+ e)
                     | None => ret tt
                     end) (fun _ _ _ => True)) as Hrest.
    { apply appends_after_quiet; [apply quiet_CopyGeneratedFiles|done|].
      intros [e|]; [|by apply appends_ret].
      eapply appends_weaken; [apply (bail_no_create (A:=unit))|done]. }
    eapply appends_at_weaken; [apply Hrest|].
    intros o e2 w2 _. apply guarded_once_seen; [done|]. by apply Hnil.
Qed.

Lemma Run_first_event language service (private : bool) outputPath w :
  IsValidLanguage language = true →
  (if private then IsValidPrivateService service
   else IsValidPublicService service) = true →
  ∃ r w1 evs,
    MkdirTemp (w_tempdir w) "client-generation-" w = (Done r, w1)
    ∧ w_trace (Run language service private outputPath w).2
      = w_trace w ++ EvMkdirTemp r :: evs
    ∧ (∀ t, r = Ok t →
            creates_guarded (Join (Join t ["proto"]) [service +:+ ".proto"])
              (compiled_ok language service (Join t ["proto"])) evs)
    ∧ (∀ e, r = Err e → ∃ msg, evs = [EvLog msg]).
Proof.
  intros Hl Hs. rewrite (Run_admitted _ _ _ _ _ Hl Hs).
  destruct (MkdirTemp (w_tempdir w) "client-generation-" w) as [o w1] eqn:E.
  pose proof (MkdirTemp_inv _ _ _ _ _ E) as (r & -> & Ht & _).
  rewrite (bind_done _ _ _ _ _ E). exists r, w1. destruct r as [t|e].
  - destruct (stages_guarded language service private outputPath t w1)
      as (evs & Hevs & Hg).
    exists evs. split; [done|]. split; [|split].
    + etrans; [exact Hevs|]. by rewrite Ht, <- app_assoc.
    + by intros t' [= <-].
    + by intros e [=].
  - eexists [EvLog _]. split; [done|]. split; [|split; [done|]].
    + simpl. by rewrite Ht, <- app_assoc.
    + intros e' _. by eexists.
Qed.


(** X7: the only tree [Run] ever removes is the workspace it created: a
    directory that did not exist, directly under the temporary directory,
    named client-generation- followed by a suffix it drew. *)
Theorem Run_removes_only_its_workspace
    language service (private : bool) outputPath m script rand tempdir cwd spawn p :
  let r := Run language service private outputPath
             (boot m script rand tempdir cwd spawn) in
  p ∈ removed (w_trace r.2) →
  removed (w_trace r.2) = [p]
  ∧ created (w_trace r.2) = [p]
  ∧ m !! p = None
  ∧ ∃ suffix, suffix ∈ rand ∧ p = tempdir ++ ["client-generation-" +:+ suffix].
Proof.
  intros r Hin. subst r.
  set (w := boot m script rand tempdir cwd spawn) in *.
  assert (∀ msg, p ∉ removed (w_trace (emit (EvLog msg) w))) as Hrej.
  { intros msg Hm. inversion Hm. }
  destruct (IsValidLanguage language) eqn:Hl.
  2:{ destruct (Run_rejects language service private outputPath w) as [msg Hr];
        [by left|].
      rewrite Hr in Hin. by apply Hrej in Hin. }
  destruct (if private then IsValidPrivateService service
            else IsValidPublicService service) eqn:Hs.
  2:{ destruct (Run_rejects language service private outputPath w) as [msg Hr].
      { right. destruct private; [right|left]; done. }
      rewrite Hr in Hin. by apply Hrej in Hin. }
  destruct (Run_first_event language service private outputPath w Hl Hs)
    as (r & w1 & evs & Hmk & Ht & _ & _).
  destruct (Run_admits language service private outputPath Hl Hs w)
    as (evs' & Ht' & r' & rest & Hevs' & Hcr & Hc & _).
  rewrite Ht in Ht'. apply app_inv_head in Ht'. subst evs'.
  injection Hevs' as <- <-.
  change (w_trace w) with ([] : list event) in Ht. rewrite app_nil_l in Ht.
  rewrite Ht in Hin |- *. rewrite <- Hcr, Hc in Hin |- *.
  destruct r as [t|e0]; [|by inversion Hin].
  apply list_elem_of_singleton in Hin. subst t.
  apply MkdirTemp_inv in Hmk as (r0 & [= <-] & _ & (suffix & Hs1 & Hs2) & Hfresh & _).
  split; [done|]. split; [done|]. split; [done|]. by exists suffix.
Qed.

(** ** Service names as path components *)

Lemma validated_components service :
  IsValidPublicService service = true ∨ IsValidPrivateService service = true →
  valid_name service = true ∧ valid_name (service +:+ ".proto") = true.
Proof.
  intros [Hs|Hs];
    [apply IsValidPublicService_iff in Hs|apply IsValidPrivateService_iff in Hs];
    repeat (apply elem_of_cons in Hs as [->|Hs]; [by vm_compute|]);
    inversion Hs.
Qed.

(** X8: for a service that passes either validator, the clone destination is
    the entry of that name in the workspace, and the canonical file is the
    entry of that name with .proto appended in the staging directory: a
    validated name has no separator and is not a dot name, so the paths built
    from it stay inside the workspace. *)
Theorem validated_service_stays_inside service (tmpDir : path) :
  IsValidPublicService service = true ∨ IsValidPrivateService service = true →
  Join tmpDir [service] = tmpDir ++ [service]
  ∧ Join (Join tmpDir ["proto"]) [service +:+ ".proto"]
    = tmpDir ++ ["proto"; service +:+ ".proto"]
  ∧ tmpDir `prefix_of` Join (Join tmpDir [service]) ["proto"; "public"]
  ∧ tmpDir `prefix_of` Join (Join tmpDir [service]) ["proto"; "private"].
Proof.
  intros Hs. destruct (validated_components service Hs) as [Hv Hvp].
  assert (Forall (fun n => valid_name n = true) ["proto"; "public"]) as Hpub
    by (by repeat constructor).
  assert (Forall (fun n => valid_name n = true) ["proto"; "private"]) as Hpriv
    by (by repeat constructor).
  rewrite (Join_name _ _ Hv), (Join_name _ _ Hvp).
  rewrite (Join_name tmpDir "proto") by done.
  rewrite (Join_names _ _ Hpub), (Join_names _ _ Hpriv), <- !app_assoc.
  split; [reflexivity|]. split; [reflexivity|]. split; by eexists.
Qed.

(** ** The clone: [CloneService] *)

Lemma Start_inv argv w o w1 :
  exec.Start argv w = (o, w1) →
  (∃ e, o = Done (Err e) ∧ w_fs w1 = w_fs w
        ∧ w_trace w1 = w_trace w ++ [EvStart argv (Some e)])
  ∨ (o = Done (Ok (w_spawn w argv (w_fs w)))
     ∧ w_fs w1 = pr_fs (w_spawn w argv (w_fs w))
     ∧ w_trace w1 = w_trace w ++ [EvStart argv None]).
Proof.
  unfold exec.Start, pop_fault.
  destruct (w_script w) as [|[f|] rest]; simpl;
    try destruct (pr_start (w_spawn w argv (w_fs w))) as [es|];
    intros [= <- <-]; simpl; eauto.
Qed.

Lemma Wait_inv argv p w o w1 :
  exec.Wait argv p w = (o, w1) →
  ∃ e, o = Done e ∧ w_fs w1 = w_fs w ∧ w_trace w1 = w_trace w ++ [EvWait argv e].
Proof.
  unfold exec.Wait, pop_fault.
  destruct (w_script w) as [|[f|] rest]; intros [= <- <-]; simpl; eauto.
Qed.

(** X9: what a return of [CloneService] tells.  When it returns a directory,
    git was started as
    [git clone git@github.com:asmahood/<service>.git <dir>/<service>] and
    exited with status zero, nothing else was started, the directory is
    <dir>/<service> and the file system is the one git left.  When it returns
    an error, the error carries the prefix "failed to clone service: " and
    that one command either could not be started or exited with an error.
    Whether git ever exits is not part of the statement. *)
Theorem CloneService_result service (dir : path) w :
  let argv := ["git"; "clone";
               "git@github.com:asmahood/" +:+ service +:+ ".git";
               path_string (Join dir [service])] in
  let r := CloneService service dir w in
  (∀ src, r.1 = Done (Ok src) →
          src = Join dir [service]
          ∧ w_trace r.2 = w_trace w ++ [EvStart argv None; EvWait argv None]
          ∧ w_fs r.2 = pr_fs (w_spawn w argv (w_fs w)))
  ∧ (∀ e, r.1 = Done (Err e) →
          (∃ cause, e = "failed to clone service: " +:+ cause)
          ∧ ∃ cause, w_trace r.2 = w_trace w ++ [EvStart argv (Some cause)]
                     ∨ w_trace r.2
                       = w_trace w ++ [EvStart argv None; EvWait argv (Some cause)]).
Proof.
  intros argv r. subst r. unfold CloneService, exec.Run. fold argv.
  unfold bind.
  destruct (exec.Start argv w) as [o1 w1] eqn:E1.
  apply Start_inv in E1 as [(e & -> & Hfs1 & Ht1)|(-> & Hfs1 & Ht1)]; simpl.
  - split; [by intros src [=]|].
    intros e' [= <-]. split; [by eexists|]. exists e. by left.
  - destruct (exec.Wait argv (w_spawn w argv (w_fs w)) w1) as [o2 w2] eqn:E2.
    apply Wait_inv in E2 as (e & -> & Hfs2 & Ht2).
    rewrite Ht1, <- app_assoc in Ht2. simpl in Ht2.
    destruct e as [e|]; simpl.
    + split; [by intros src [=]|].
      intros e' [= <-]. split; [by eexists|]. exists e. by right.
    + split; [|by intros e' [=]].
      intros src [= <-]. split; [done|]. split; [done|]. by rewrite Hfs2.
Qed.

(** ** Extraction: edge cases *)

(** X10: when the selected source directory does not exist, [CopyProtobuf]
    makes one system call, the listing, which fails; it changes nothing and
    returns the error of the listing after the prefix
    "failed to read service protobuf directory: ". *)
Theorem CopyProtobuf_missing_directory
    service (serviceDir protoDir : path) (private : bool) w :
  let srcdir := if private then Join serviceDir ["proto"; "private"]
                else Join serviceDir ["proto"; "public"] in
  let r := CopyProtobuf service serviceDir protoDir private w in
  node_at (w_fs w) srcdir = None →
  no_fault_next 1 w = true →
  ∃ cause,
    r.1 = Done (Some ("failed to read service protobuf directory: " +:+ cause))
    ∧ w_fs r.2 = w_fs w
    ∧ w_trace r.2 = w_trace w ++ [EvReadDir srcdir (Some cause)].
Proof.
  intros srcdir r Hnone Hcalm. subst r.
  unfold CopyProtobuf. fold srcdir. unfold bind, ReadDir.
  apply pop_fault_calm in Hcalm as [Hf _].
  pose proof (pop_fault_fs w) as Hfs. pose proof (pop_fault_trace w) as Ht.
  destruct (pop_fault w) as [f w1]; simpl in Hf, Hfs, Ht |- *. subst f.
  rewrite Hfs, Hnone. simpl. eexists. by rewrite Ht.
Qed.

Lemma CopyProtobuf_range_regular service (srcdir protoDir : path) files w w' :
  let canon := Join protoDir [service +:+ ".proto"] in
  Forall (fun n => valid_name n = true) files →
  removelast canon ≠ srcdir →
  CopyProtobuf_range service srcdir protoDir files w = (Done None, w') →
  ∀ n, n ∈ files → Ext n = ".proto" →
       ∃ data, w_fs w !! (srcdir ++ [n]) = Some (File data).
Proof.
  intros canon Hvalid Hsep. revert w.
  induction files as [|f rest IH]; intros w; [by intros _ n Hn; inversion Hn|].
  apply Forall_cons in Hvalid as [Hf Hrest]. specialize (IH Hrest).
  simpl. destruct (String.eqb_spec (Ext f) ".proto") as [Hext|Hext]; simpl.
  2:{ intros Hrun n Hn Hn'. apply elem_of_cons in Hn as [->|Hn]; [done|].
      by eapply IH. }
  pose proof (snoc_ne_canon srcdir canon f Hsep) as Hne.
  rewrite (Join_name srcdir f Hf). fold canon. unfold bind.
  destruct (Open (srcdir ++ [f]) w) as [o1 w1] eqn:E1.
  apply Open_inv in E1 as (Hfs1 & r1 & -> & Hr1).
  destruct r1 as [src|e]; [|done]. destruct Hr1 as [-> _].
  destruct (Create canon w1) as [o2 w2] eqn:E2.
  apply Create_inv in E2 as (r2 & -> & Hr2).
  destruct r2 as [dst|e]; [|done]. destruct Hr2 as [-> Hfs2].
  rewrite Hfs1 in Hfs2.
  destruct (Copy canon (srcdir ++ [f]) w2) as [o3 w3] eqn:E3.
  apply Copy_inv in E3 as (err3 & -> & Hr3).
  rewrite node_at_snoc, Hfs2, lookup_insert_ne in Hr3 by done.
  destruct err3 as [e|]; [done|]. destruct Hr3 as (data & Hdata & Hfs3).
  intros Hrun n Hn Hn'. apply elem_of_cons in Hn as [->|Hn]; [by exists data|].
  destruct (IH w3 Hrun n Hn Hn') as (data' & Hd). exists data'.
  rewrite Hfs3, insert_insert_eq, lookup_insert_ne in Hd; [done|].
  by apply not_eq_sym, snoc_ne_canon.
Qed.

(** X11: [CopyProtobuf] returns nil only when every entry of the selected
    directory whose name has the extension .proto is a regular file: a
    directory of such a name makes it return an error. *)
Theorem CopyProtobuf_needs_regular_files
    service (serviceDir protoDir : path) (private : bool) w n :
  let srcdir := if private then Join serviceDir ["proto"; "private"]
                else Join serviceDir ["proto"; "public"] in
  let canon := Join protoDir [service +:+ ".proto"] in
  (CopyProtobuf service serviceDir protoDir private w).1 = Done None →
  removelast canon ≠ srcdir →
  n ∈ entries srcdir (w_fs w) → Ext n = ".proto" →
  ∃ data, w_fs w !! (srcdir ++ [n]) = Some (File data).
Proof.
  intros srcdir canon Hok Hsep Hn Hext. revert Hok.
  unfold CopyProtobuf. fold srcdir. unfold bind.
  destruct (ReadDir srcdir w) as [o1 w1] eqn:E1.
  apply ReadDir_inv in E1 as (Hfs1 & r & -> & Hr). destruct r as [files|e]; [|done].
  destruct Hr as [-> _].
  destruct (CopyProtobuf_range service srcdir protoDir (entries srcdir (w_fs w)) w1)
    as [o w'] eqn:Hrun.
  simpl. intros ->. rewrite <- Hfs1.
  assert (Forall (fun x => valid_name x = true) (entries srcdir (w_fs w))) as Hv.
  { apply Forall_forall. intros x Hx. by apply elem_of_entries in Hx as [? _]. }
  exact (CopyProtobuf_range_regular service srcdir protoDir _ w1 w' Hv Hsep Hrun
           n Hn Hext).
Qed.

Lemma entries_sorted (d : path) (m : fsmap) :
  StronglySorted String.le (entries d m).
Proof. unfold entries. apply StronglySorted_merge_sort; apply _. Qed.

Lemma last_filter_greatest {A} (R : relation A) `{!Reflexive R}
    (P : A → Prop) `{∀ x, Decision (P x)} (l : list A) (n : A) :
  StronglySorted R l → last (filter P l) = Some n →
  ∀ x, x ∈ filter P l → R x n.
Proof.
  intros Hsorted Hlast x Hx.
  assert (StronglySorted R (filter P l)) as Hs.
  { clear Hlast Hx. induction Hsorted as [|y l Hl IH Hall]; [constructor|].
    destruct (decide (P y)).
    - rewrite filter_cons_True by done. constructor; [done|].
      apply Forall_forall. intros z Hz. apply list_elem_of_filter in Hz as [_ Hz].
      by eapply Forall_forall in Hall.
    - by rewrite filter_cons_False. }
  apply last_Some in Hlast as [l' Hl']. rewrite Hl' in Hs, Hx.
  apply elem_of_app in Hx as [Hx|Hx].
  - eapply StronglySorted_app_1_elem_of; [exact Hs|done|constructor].
  - apply list_elem_of_singleton in Hx. by subst.
Qed.

(** X12: when several entries have the extension .proto, the one whose name
    is greatest in byte order is the one staged: after a nil return the
    canonical file holds the bytes of that entry. *)
Theorem CopyProtobuf_greatest_name_wins
    service (serviceDir protoDir : path) (private : bool) w :
  let srcdir := if private then Join serviceDir ["proto"; "private"]
                else Join serviceDir ["proto"; "public"] in
  let canon := Join protoDir [service +:+ ".proto"] in
  let qualifying := filter (fun n => Ext n = ".proto") (entries srcdir (w_fs w)) in
  let r := CopyProtobuf service serviceDir protoDir private w in
  r.1 = Done None →
  removelast canon ≠ srcdir →
  qualifying ≠ [] →
  ∃ n data, n ∈ qualifying
            ∧ (∀ n', n' ∈ qualifying → String.le n' n)
            ∧ w_fs w !! (srcdir ++ [n]) = Some (File data)
            ∧ w_fs r.2 !! canon = Some (File data).
Proof.
  intros srcdir canon qualifying r Hok Hsep Hne.
  destruct (CopyProtobuf_spec service serviceDir protoDir private w Hsep)
    as (err & w' & Hrun & _ & Hres).
  fold srcdir canon in Hres. subst r. rewrite Hrun in Hok |- *.
  simpl in Hok |- *. injection Hok as ->. fold qualifying in Hres.
  destruct (last qualifying) as [n|] eqn:Hlast; [|by apply last_None in Hlast].
  destruct Hres as (data & Hd & Hc). exists n, data.
  split; [|split; [|done]].
  - apply last_Some in Hlast as [l' ->]. apply elem_of_app. right. constructor.
  - eapply last_filter_greatest; [apply _|apply entries_sorted|exact Hlast].
Qed.

(** ** The compiler stage: what decides, and what changes *)








(** X14: with no failure of a system call and the compiler started, only the
    exit status decides: [GenerateCode] returns nil exactly when the compiler
    exited with status zero, whatever it printed; both streams are read to
    the end before the wait, and each is logged when it is not empty. *)
Theorem GenerateCode_exit_status_decides language service (dir : path) argv w :
  let p := w_spawn w argv (w_fs w) in
  let r := GenerateCode language service dir w in
  protocCmd_of language service dir = Some argv →
  no_fault_next 6 w = true →
  pr_start p = None →
  r.1 = Done (match pr_wait p with
              | Some e => Some ("failed to run generator command: " +:+ e)
              | None => None
              end)
  ∧ w_trace r.2
    = w_trace w
      ++ [EvPipe None; EvPipe None; EvStart argv None; EvReadAll None]
      ++ (if 0 <? String.length (pr_stdout p)
          then [EvLog (nl +:+ nl +:+ pr_stdout p +:+ nl +:+ nl)] else [])
      ++ [EvReadAll None]
      ++ (if 0 <? String.length (pr_stderr p)
          then [EvLog ("Generator encountered error:" +:+ nl +:+ nl
                       +:+ pr_stderr p +:+ nl)] else [])
      ++ [EvWait argv (pr_wait p)].
Proof. apply GenerateCode_calm_run. Qed.

(** ** Collection: edge cases *)

Lemma Create_needs_directory (p : path) w o w1 :
  node_at (w_fs w) (removelast p) ≠ Some Dir →
  Create p w = (o, w1) →
  ∃ e, o = Done (Err e) ∧ w_fs w1 = w_fs w.
Proof.
  intros Hdir. unfold Create. pose proof (pop_fault_fs w) as Hfs.
  destruct (pop_fault w) as [f w0]; simpl in Hfs |- *. rewrite <- Hfs in Hdir.
  destruct f as [flt|]; [intros [= <- <-]; eexists; split; [reflexivity|exact Hfs]|].
  destruct (node_at (w_fs w0) p) as [[d|]|];
    destruct (node_at (w_fs w0) (removelast p)) as [[d'|]|];
    intros [= <- <-]; simpl;
    first [ by destruct Hdir | eexists; split; [reflexivity|exact Hfs] ].
Qed.

Lemma CopyGeneratedFiles_range_no_directory
    (cwd protoDir : path) outputPath files w :
  let outdir := Join cwd [outputPath] in
  Forall (fun n => valid_name n = true) files →
  (∃ n, n ∈ files ∧ Ext n ≠ ".proto") →
  node_at (w_fs w) outdir ≠ Some Dir →
  ∃ msg w', CopyGeneratedFiles_range cwd protoDir outputPath files w
            = (Done (Some msg), w')
            ∧ w_fs w' = w_fs w.
Proof.
  intros outdir Hvalid Hex Hdir. revert w Hdir.
  induction files as [|f rest IH]; intros w Hdir.
  { destruct Hex as (n & Hn & _). inversion Hn. }
  apply Forall_cons in Hvalid as [Hf Hrest]. simpl.
  destruct (String.eqb_spec (Ext f) ".proto") as [Hext|Hext]; simpl.
  { apply IH; [done| |done]. destruct Hex as (n & Hn & Hne).
    apply elem_of_cons in Hn as [->|Hn]; [done|]. by exists n. }
  rewrite (Join_name protoDir f Hf), (Join_snoc cwd outputPath f Hf).
  fold outdir. unfold bind.
  destruct (Open (protoDir ++ [f]) w) as [o1 w1] eqn:E1.
  apply Open_inv in E1 as (Hfs1 & r1 & -> & Hr1). destruct r1 as [src|e].
  2:{ by eexists _, w1. }
  destruct (Create (outdir ++ [f]) w1) as [o2 w2] eqn:E2.
  apply Create_needs_directory in E2 as (e & -> & Hfs2).
  - eexists _, w2. split; [done|]. by rewrite Hfs2.
  - by rewrite removelast_last, Hfs1.
Qed.

(** X15: [CopyGeneratedFiles] does not create the output directory: when the
    output path is not a directory and staging holds an entry to collect, it
    returns an error and changes nothing, whatever else happens. *)
Theorem CopyGeneratedFiles_needs_output_directory (protoDir : path) outputPath w n :
  let r := CopyGeneratedFiles protoDir outputPath w in
  n ∈ entries protoDir (w_fs w) → Ext n ≠ ".proto" →
  node_at (w_fs w) (Join (w_cwd w) [outputPath]) ≠ Some Dir →
  (∃ msg, r.1 = Done (Some msg)) ∧ w_fs r.2 = w_fs w.
Proof.
  intros r Hn Hext Hdir. subst r. unfold CopyGeneratedFiles, bind.
  destruct (Getwd w) as [o0 w0] eqn:E0.
  apply Getwd_inv in E0 as (Hfs0 & r0 & -> & Hr0).
  destruct r0 as [cwd|e]; [subst cwd|by split; [eexists|]].
  destruct (ReadDir protoDir w0) as [o1 w1] eqn:E1.
  apply ReadDir_inv in E1 as (Hfs1 & r1 & -> & Hr1).
  destruct r1 as [files|e]; [|split; [by eexists|simpl; congruence]].
  destruct Hr1 as [-> _]. rewrite Hfs0 in *.
  destruct (CopyGeneratedFiles_range_no_directory (w_cwd w) protoDir outputPath
              (entries protoDir (w_fs w)) w1) as (msg & w' & -> & Hfs').
  - apply Forall_forall. intros x Hx. by apply elem_of_entries in Hx as [? _].
  - by exists n.
  - by rewrite Hfs1.
  - split; [by eexists|]. simpl. congruence.
Qed.

Lemma CopyGeneratedFiles_range_none (cwd protoDir : path) outputPath files w :
  (∀ n, n ∈ files → Ext n = ".proto") →
  CopyGeneratedFiles_range cwd protoDir outputPath files w = (Done None, w).
Proof.
  induction files as [|f rest IH]; intros Hall; simpl; [done|].
  rewrite (Hall f) by left. simpl. apply IH. intros n Hn. apply Hall. by right.
Qed.

(** X16: when staging holds nothing but entries of extension .proto (the
    compiler wrote nothing), [CopyGeneratedFiles] returns nil and changes
    nothing: an empty result is not an error. *)
Theorem CopyGeneratedFiles_nothing_to_collect (protoDir : path) outputPath w :
  let r := CopyGeneratedFiles protoDir outputPath w in
  node_at (w_fs w) protoDir = Some Dir →
  no_fault_next 2 w = true →
  (∀ n, n ∈ entries protoDir (w_fs w) → Ext n = ".proto") →
  r.1 = Done None ∧ w_fs r.2 = w_fs w.
Proof.
  intros r Hdir Hcalm Hall. subst r. unfold CopyGeneratedFiles.
  destruct (pop_fault_none 1 w Hcalm) as (w0 & Hp0 & Hfs0 & _ & _ & Hc0).
  assert (Getwd w = (Done (Ok (w_cwd w0)), emit (EvGetwd None) w0)) as E0
    by (unfold Getwd; by rewrite Hp0).
  rewrite (bind_done _ _ _ _ _ E0).
  assert (no_fault_next 1 (emit (EvGetwd None) w0) = true) as Hc0' by exact Hc0.
  destruct (pop_fault_none 0 _ Hc0') as (w1 & Hp1 & Hfs1 & _ & _ & _).
  simpl in Hfs1.
  assert (ReadDir protoDir (emit (EvGetwd None) w0)
          = (Done (Ok (entries protoDir (w_fs w))),
             emit (EvReadDir protoDir None) w1)) as E1.
  { unfold ReadDir. rewrite Hp1, Hfs1, Hfs0, Hdir. done. }
  rewrite (bind_done _ _ _ _ _ E1).
  rewrite CopyGeneratedFiles_range_none by done. simpl. split; [done|].
  congruence.
Qed.

(** X17: whether it succeeds or fails, [CopyGeneratedFiles] returns to its
    caller, leaves every staged entry as it was (it copies, it does not
    move) and changes no path other than those of the collected names under
    the output directory. *)
Theorem CopyGeneratedFiles_leaves_the_rest (protoDir : path) outputPath w :
  let outdir := Join (w_cwd w) [outputPath] in
  let r := CopyGeneratedFiles protoDir outputPath w in
  outdir ≠ protoDir →
  (∃ err, r.1 = Done err)
  ∧ (∀ n, w_fs r.2 !! (protoDir ++ [n]) = w_fs w !! (protoDir ++ [n]))
  ∧ (∀ p, ¬ collected outdir (entries protoDir (w_fs w)) p →
          w_fs r.2 !! p = w_fs w !! p).
Proof.
  intros outdir r Hsep. subst r.
  assert (∀ n, ¬ collected outdir (entries protoDir (w_fs w)) (protoDir ++ [n]))
    as Hstaged.
  { intros n (n' & _ & _ & Heq). apply app_inj_tail in Heq as [Heq _].
    by apply Hsep. }
  unfold CopyGeneratedFiles, bind.
  destruct (Getwd w) as [o0 w0] eqn:E0.
  apply Getwd_inv in E0 as (Hfs0 & r0 & -> & Hr0).
  destruct r0 as [cwd|e]; [subst cwd|].
  2:{ simpl. rewrite Hfs0. split; [by eexists|done]. }
  destruct (ReadDir protoDir w0) as [o1 w1] eqn:E1.
  apply ReadDir_inv in E1 as (Hfs1 & r1 & -> & Hr1).
  destruct r1 as [files|e].
  2:{ simpl. rewrite Hfs1, Hfs0. split; [by eexists|done]. }
  destruct Hr1 as [-> _]. rewrite Hfs0 in *.
  destruct (CopyGeneratedFiles_range_spec (w_cwd w) protoDir outputPath
              (entries protoDir (w_fs w)) w1) as (err & w' & -> & Hframe & _);
    [|done|].
  { apply Forall_forall. intros x Hx. by apply elem_of_entries in Hx as [? _]. }
  fold outdir in Hframe. rewrite Hfs1 in Hframe. simpl.
  split; [by eexists|]. split; [|done].
  intros n. apply Hframe, Hstaged.
Qed.

(** X18: [CopyGeneratedFiles] does not descend into directories: a staged
    entry that is a directory, with an extension other than .proto, makes it
    return an error. *)
Theorem CopyGeneratedFiles_rejects_directories (protoDir : path) outputPath w n :
  let outdir := Join (w_cwd w) [outputPath] in
  let r := CopyGeneratedFiles protoDir outputPath w in
  outdir ≠ protoDir →
  n ∈ entries protoDir (w_fs w) → Ext n ≠ ".proto" →
  w_fs w !! (protoDir ++ [n]) = Some Dir →
  ∃ msg, r.1 = Done (Some msg).
Proof.
  intros outdir r Hsep Hn Hext Hdir. subst r.
  unfold CopyGeneratedFiles, bind.
  destruct (Getwd w) as [o0 w0] eqn:E0.
  apply Getwd_inv in E0 as (Hfs0 & r0 & -> & Hr0).
  destruct r0 as [cwd|e]; [subst cwd|by eexists].
  destruct (ReadDir protoDir w0) as [o1 w1] eqn:E1.
  apply ReadDir_inv in E1 as (Hfs1 & r1 & -> & Hr1).
  destruct r1 as [files|e]; [|by eexists].
  destruct Hr1 as [-> _]. rewrite Hfs0 in *.
  destruct (CopyGeneratedFiles_range_spec (w_cwd w) protoDir outputPath
              (entries protoDir (w_fs w)) w1) as (err & w' & -> & _ & Hres);
    [|done|].
  { apply Forall_forall. intros x Hx. by apply elem_of_entries in Hx as [? _]. }
  simpl. destruct err as [msg|]; [by eexists|].
  destruct (Hres eq_refl n Hn Hext) as (data & Hd & _).
  rewrite Hfs1, Hdir in Hd. discriminate Hd.
Qed.

(** ** The errors [Run] looks at stop the run *)

Lemma checked_ret {A} (pre : Prop) (good : A → Prop) (a : A) :
  (good a → pre) → checked pre good (ret a).
Proof.
  intros H. apply appends_ret. intros _ a' [=] Hg. subst a'.
  split; [auto|constructor].
Qed.

Lemma checked_Fatalf {A} (pre : Prop) (good : A → Prop) msg :
  checked pre good (log_Fatalf msg).
Proof. intros w. exists [EvLog msg]. split; [done|]. intros a [=]. Qed.

Lemma checked_have {A} (pre : Prop) (good : A → Prop) (m : M A) :
  pre → checked True good m → checked pre good m.
Proof.
  intros Hpre Hm. eapply appends_weaken; [exact Hm|].
  intros o evs w' H a Ho Hg. split; [done|]. by apply (H a Ho Hg).
Qed.

Lemma checked_bind {A B} (pre : Prop) (G : A → Prop) (H : B → Prop)
    (m : M A) (k : A → M B) :
  checked pre G m → (∀ a, checked (G a) H (k a)) → checked pre H (bind m k).
Proof.
  intros Hm Hk. eapply appends_bind; [exact Hm| |].
  - intros a e1 w1 HP. eapply appends_at_weaken; [apply Hk|].
    intros o e2 w2 Hq b Hb Hgood. cbv beta in *.
    destruct (Hq b Hb Hgood) as [Ha H2]. destruct (HP a eq_refl Ha) as [Hpre H1].
    split; [done|]. by apply Forall_app.
  - intros msg e1 w1 _ b [=].
Qed.

Lemma checked_defer {A} (pre : Prop) (G : A → Prop) (d : M unit) (body : M A) :
  checked pre G body → checked True (fun _ => True) d →
  checked pre G (defer d body).
Proof.
  intros Hb Hd. eapply appends_defer; [exact Hb| |].
  - intros a e1 w1 HP. eapply appends_at_weaken; [apply Hd|].
    intros o e2 w2 Hq b Hb' Hgood. cbv beta in *.
    destruct o as [u|msg]; [|discriminate Hb']. injection Hb' as <-.
    destruct (HP a eq_refl Hgood) as [Hpre H1].
    destruct (Hq u eq_refl I) as [_ H2]. split; [done|]. by apply Forall_app.
  - intros msg e1 w1 _ b [=].
Qed.

Lemma checked_step {A} (good : A → Prop) (m : M A) :
  (∀ w, ∃ a w1 e, m w = (Done a, emit e w1) ∧ w_trace w1 = w_trace w
                  ∧ (good a → event_error e = None)) →
  checked True good m.
Proof.
  intros H w. destruct (H w) as (a & w1 & e & Hm & Ht & Hok).
  exists [e]. rewrite Hm. simpl. rewrite Ht. split; [done|].
  intros a' [=] Hg. subst a'. split; [done|]. repeat constructor. by apply Hok.
Qed.

Ltac checked_syscall :=
  apply checked_step; intros w;
  pose proof (pop_fault_trace w) as Ht;
  destruct (pop_fault w) as [f w1]; simpl in Ht |- *;
  repeat case_match; simpl;
  eexists _, _, _; (split; [reflexivity|]); (split; [simpl; done|]);
  unfold is_nil, is_ok; simpl; intros Hgood;
  first [ done | discriminate Hgood | destruct Hgood | exact Hgood ].

Lemma checked_Printf msg : checked True (fun _ => True) (log_Printf msg).
Proof. apply checked_step. intros w. by eexists _, _, _. Qed.

Lemma checked_TempDir : checked True (fun _ => True) TempDir.
Proof. intros w. exists []. simpl. rewrite app_nil_r. split; [done|]. by split; [|constructor]. Qed.

Lemma checked_MkdirTemp dir pattern : checked True is_ok (MkdirTemp dir pattern).
Proof. unfold MkdirTemp. checked_syscall. Qed.

Lemma checked_Getwd : checked True is_ok Getwd.
Proof. unfold Getwd. checked_syscall. Qed.

Lemma checked_Mkdir p : checked True is_nil (Mkdir p).
Proof. unfold Mkdir. checked_syscall. Qed.

Lemma checked_RemoveAll p : checked True is_nil (RemoveAll p).
Proof. unfold RemoveAll. checked_syscall. Qed.

Lemma checked_ReadDir d : checked True is_ok (ReadDir d).
Proof. unfold ReadDir. checked_syscall. Qed.

Lemma checked_Open p : checked True is_ok (Open p).
Proof. unfold Open. checked_syscall. Qed.

Lemma checked_Create p : checked True is_ok (Create p).
Proof. unfold Create. checked_syscall. Qed.

Lemma checked_Copy dst src : checked True is_nil (Copy dst src).
Proof. unfold Copy. checked_syscall. Qed.

Lemma checked_Pipe : checked True is_nil exec.Pipe.
Proof. unfold exec.Pipe. checked_syscall. Qed.

Lemma checked_Start argv : checked True is_ok (exec.Start argv).
Proof. unfold exec.Start. checked_syscall. Qed.

Lemma checked_ReadAll s : checked True is_ok (exec.ReadAll s).
Proof. unfold exec.ReadAll. checked_syscall. Qed.

Lemma checked_Wait argv p : checked True is_nil (exec.Wait argv p).
Proof. unfold exec.Wait. checked_syscall. Qed.

(** The shape of every [if err != nil { return ... }]. *)
Ltac checked_nil next :=
  intros [?|]; [apply checked_ret; unfold is_nil; intros Hnil; discriminate Hnil
               |apply checked_have; [reflexivity|next]].

Ltac checked_ok next :=
  intros [?|?]; [apply checked_have; [exact I|next]
                |apply checked_ret; unfold is_nil; intros Hnil; discriminate Hnil].

Lemma checked_exec_Run argv : checked True is_nil (exec.Run argv).
Proof.
  unfold exec.Run. eapply checked_bind; [apply checked_Start|].
  checked_ok ltac:(apply checked_Wait).
Qed.

Lemma checked_CloneService service (dir : path) :
  checked True is_ok (CloneService service dir).
Proof.
  unfold CloneService. eapply checked_bind; [apply checked_exec_Run|].
  intros [e|]; [by apply checked_ret|by apply checked_ret].
Qed.

Lemma checked_CopyProtobuf_range service (srcdir protoDir : path) files :
  checked True is_nil (CopyProtobuf_range service srcdir protoDir files).
Proof.
  induction files as [|f rest IH]; simpl; [by apply checked_ret|].
  destruct (negb (String.eqb (Ext f) ".proto")); [exact IH|].
  eapply checked_bind; [apply checked_Open|].
  checked_ok ltac:(idtac).
  eapply checked_bind; [apply checked_Create|].
  checked_ok ltac:(idtac).
  eapply checked_bind; [apply checked_Copy|].
  checked_nil ltac:(exact IH).
Qed.

Lemma checked_CopyProtobuf service (serviceDir protoDir : path) (private : bool) :
  checked True is_nil (CopyProtobuf service serviceDir protoDir private).
Proof.
  unfold CopyProtobuf. eapply checked_bind; [apply checked_ReadDir|].
  checked_ok ltac:(apply checked_CopyProtobuf_range).
Qed.

Lemma checked_GenerateCode language service (dir : path) :
  checked True is_nil (GenerateCode language service dir).
Proof.
  unfold GenerateCode.
  destruct (protocCmd_of language service dir) as [argv|];
    [|apply checked_ret; unfold is_nil; intros Hnil; discriminate Hnil].
  eapply checked_bind; [apply checked_Pipe|]. checked_nil ltac:(idtac).
  eapply checked_bind; [apply checked_Pipe|]. checked_nil ltac:(idtac).
  eapply checked_bind; [apply checked_Start|]. checked_ok ltac:(idtac).
  eapply checked_bind; [apply checked_ReadAll|]. checked_ok ltac:(idtac).
  eapply checked_bind with (G := fun _ => True).
  { case_match; [apply checked_Printf|by apply checked_ret]. }
  intros u. cbv beta.
  eapply checked_bind; [apply checked_ReadAll|]. checked_ok ltac:(idtac).
  eapply checked_bind with (G := fun _ => True).
  { case_match; [apply checked_Printf|by apply checked_ret]. }
  intros u'. cbv beta.
  eapply checked_bind; [apply checked_Wait|].
  checked_nil ltac:(by apply checked_ret).
Qed.

Lemma checked_CopyGeneratedFiles_range (cwd protoDir : path) outputPath files :
  checked True is_nil (CopyGeneratedFiles_range cwd protoDir outputPath files).
Proof.
  induction files as [|f rest IH]; simpl; [by apply checked_ret|].
  destruct (String.eqb (Ext f) ".proto"); [exact IH|].
  eapply checked_bind; [apply checked_Open|].
  checked_ok ltac:(idtac).
  eapply checked_bind; [apply checked_Create|].
  checked_ok ltac:(idtac).
  eapply checked_bind; [apply checked_Copy|].
  checked_nil ltac:(exact IH).
Qed.

Lemma checked_CopyGeneratedFiles (protoDir : path) outputPath :
  checked True is_nil (CopyGeneratedFiles protoDir outputPath).
Proof.
  unfold CopyGeneratedFiles. eapply checked_bind; [apply checked_Getwd|].
  checked_ok ltac:(idtac).
  eapply checked_bind; [apply checked_ReadDir|].
  checked_ok ltac:(apply checked_CopyGeneratedFiles_range).
Qed.

Lemma checked_CleanUpDirectories dir :
  checked True (fun _ => True) (CleanUpDirectories dir).
Proof.
  unfold CleanUpDirectories. eapply checked_bind; [apply checked_RemoveAll|].
  intros [e|]; [apply checked_Fatalf|by apply checked_ret].
Qed.

Lemma checked_bail {A} (pre : Prop) (good : A → Prop) dir msg :
  checked pre good (CleanUpDirectories dir;; log_Fatalf msg).
Proof.
  eapply appends_weaken; [apply (appends_bail (A:=A))|].
  intros o evs w' [[m0 ->] Hrest] a [=].
Qed.

Lemma checked_stages language service (private : bool) outputPath tmpDir :
  checked True (fun _ => True) (stages language service private outputPath tmpDir).
Proof.
  unfold stages. apply checked_defer; [|apply checked_CleanUpDirectories].
  eapply checked_bind; [apply checked_Printf|]. intros u. cbv beta.
  eapply checked_bind; [apply checked_Mkdir|].
  intros [e|]; [apply checked_bail|apply checked_have; [reflexivity|]].
  eapply checked_bind; [apply checked_CloneService|].
  intros [serviceDir|e]; [apply checked_have; [exact I|]|apply checked_bail].
  eapply checked_bind; [apply checked_CopyProtobuf|].
  intros [e|]; [apply checked_bail|apply checked_have; [reflexivity|]].
  eapply checked_bind; [apply checked_GenerateCode|].
  intros [e|]; [apply checked_bail|apply checked_have; [reflexivity|]].
  eapply checked_bind; [apply checked_CopyGeneratedFiles|].
  intros [e|]; [apply checked_bail|by apply checked_ret].
Qed.

Lemma checked_Run language service (private : bool) outputPath :
  checked True (fun _ => True) (Run language service private outputPath).
Proof.
  rewrite Run_stages.
  do 3 (eapply checked_bind with (G := fun _ => True);
        [case_match; [apply checked_Fatalf|by apply checked_ret]
        |intros ?; cbv beta]).
  eapply checked_bind; [apply checked_TempDir|]. intros tmp. cbv beta.
  eapply checked_bind; [apply checked_MkdirTemp|].
  intros [tmpDir|e]; [apply checked_stages|apply checked_Fatalf].
Qed.

(** X19: every error that [Run] and the functions it calls receive from
    [MkdirTemp], [Mkdir], [ReadDir], [Open], [Create], [io.Copy], [Getwd], the
    pipes, [Start], [ReadAll], [Wait] and [RemoveAll] stops the run: when
    [Run] returns (exit status 0), none of these calls reported an error and
    both commands exited with status zero.  The deferred [Close] calls of
    [CopyProtobuf], whose results the source discards, are not among these
    calls and not part of the statement. *)
Theorem Run_done_every_checked_call_succeeded
    language service (private : bool) outputPath m script rand tempdir cwd spawn :
  let r := Run language service private outputPath
             (boot m script rand tempdir cwd spawn) in
  r.1 = Done tt →
  ∀ ev, ev ∈ w_trace r.2 → event_error ev = None.
Proof.
  intros r Hdone. subst r.
  destruct (checked_Run language service private outputPath
              (boot m script rand tempdir cwd spawn)) as (evs & Ht & H).
  destruct (H tt Hdone I) as [_ Hall]. rewrite Ht. simpl.
  by apply Forall_forall.
Qed.

(** ** A failed removal takes over the message *)

Lemma decides_none {A} (o : outcome A) evs :
  removed evs = [] → removal_decides o evs.
Proof.
  intros Hr p e Hin. apply removed_elem in Hin. rewrite Hr in Hin.
  by inversion Hin.
Qed.

Lemma decides_prefix {A} (o : outcome A) e1 e2 :
  removed e1 = [] → removal_decides o e2 → removal_decides o (e1 ++ e2).
Proof.
  intros Hr H p e Hin. apply elem_of_app in Hin as [Hin|Hin]; [|by apply H].
  apply removed_elem in Hin. rewrite Hr in Hin. by inversion Hin.
Qed.

Lemma pending_prefix {A} (o : outcome A) e1 e2 :
  plain e1 → removal_pending o e2 → removal_pending o (e1 ++ e2).
Proof.
  intros [_ Hr]. destruct o as [a|msg]; simpl.
  - intros H. by rewrite removed_app, Hr, H.
  - by apply decides_prefix.
Qed.

Lemma CleanUpDirectories_decides dir :
  appends (CleanUpDirectories dir)
    (fun o evs _ => match o with
                    | Done _ => evs = [EvRemoveAll dir None]
                    | Fatal msg => removal_decides (Fatal (A:=unit) msg) evs
                    end).
Proof.
  intros w. unfold appends_at, CleanUpDirectories, bind, RemoveAll.
  pose proof (pop_fault_trace w) as Ht.
  destruct (pop_fault w) as [[flt|] w1]; simpl in Ht |- *.
  - eexists [_; _]. rewrite Ht, <- app_assoc. split; [done|].
    intros p e Hin.
    apply elem_of_cons in Hin as [Hin|Hin]; [by injection Hin as -> ->|].
    apply list_elem_of_singleton in Hin. discriminate Hin.
  - eexists [_]. by rewrite Ht.
Qed.

Lemma bail_pending dir msg :
  appends (CleanUpDirectories dir;; log_Fatalf (A:=unit) msg)
          (fun o evs _ => removal_pending o evs).
Proof.
  eapply appends_bind; [apply CleanUpDirectories_decides| |].
  - intros [] e1 w1 ->. exists [EvLog msg]. split; [done|]. simpl.
    intros p e Hin.
    apply elem_of_cons in Hin as [Hin|Hin]; [discriminate Hin|].
    apply list_elem_of_singleton in Hin. discriminate Hin.
  - by intros m0 e1 w1 H.
Qed.

Ltac pending_step lem :=
  apply appends_after_quiet;
  [apply lem|intros ? ? ? ?; apply pending_prefix|].

Lemma stages_decides language service (private : bool) outputPath tmpDir :
  appends (stages language service private outputPath tmpDir)
          (fun o evs _ => removal_decides o evs).
Proof.
  unfold stages.
  eapply appends_defer with (P := fun o e _ => removal_pending o e).
  - pending_step quiet_Printf. intros _.
    pending_step quiet_Mkdir. intros [e|]; [apply bail_pending|].
    pending_step quiet_CloneService.
    intros [serviceDir|e]; [|apply bail_pending].
    pending_step quiet_CopyProtobuf. intros [e|]; [apply bail_pending|].
    pending_step quiet_GenerateCode. intros [e|]; [apply bail_pending|].
    pending_step quiet_CopyGeneratedFiles. intros [e|]; [apply bail_pending|].
    by apply appends_ret.
  - intros a e1 w1 Hrem. simpl in Hrem.
    eapply appends_at_weaken; [apply CleanUpDirectories_decides|].
    intros [u|msg] e2 w2 H; cbv beta.
    + subst e2. apply decides_prefix; [done|]. intros p e Hin.
      apply list_elem_of_singleton in Hin. discriminate Hin.
    + by apply decides_prefix.
  - by intros msg e1 w1 H.
Qed.

Lemma Run_decides language service (private : bool) outputPath :
  appends (Run language service private outputPath)
          (fun o evs _ => removal_decides o evs).
Proof.
  rewrite Run_stages.
  assert (∀ (c : bool) msg (k : M unit),
            appends k (fun o evs _ => removal_decides o evs) →
            appends ((if c then log_Fatalf msg else ret tt);; k)
                    (fun o evs _ => removal_decides o evs)) as Hgate.
  { intros c msg k Hk.
    eapply appends_bind with (P := fun _ e _ => removed e = []).
    - destruct c; [|by apply appends_ret]. intros w. by exists [EvLog msg].
    - intros [] e1 w1 Hr. eapply appends_at_weaken; [apply Hk|].
      intros o e2 w2. by apply decides_prefix.
    - intros m0 e1 w1 Hr. by apply decides_none. }
  do 3 apply Hgate.
  apply appends_after_quiet; [apply quiet_TempDir| |intros tmp].
  { intros o e1 e2 w [_ Hr]. by apply decides_prefix. }
  eapply appends_bind with (P := fun _ e _ => removed e = []).
  - intros w. unfold appends_at, MkdirTemp. pose proof (pop_fault_trace w) as Ht.
    destruct (pop_fault w) as [f w1]; simpl in Ht |- *.
    repeat case_match; simpl; rewrite Ht; by eexists.
  - intros r e1 w1 Hr.
    eapply appends_at_weaken
      with (P := fun o e _ => removal_decides o e);
      [|intros o e2 w2; by apply decides_prefix].
    destruct r as [tmpDir|e]; [apply stages_decides|].
    eexists [EvLog _]. split; [reflexivity|]. by apply decides_none.
  - intros m0 e1 w1 Hr. by apply decides_none.
Qed.

(** X20: a failed removal of the workspace takes over the message: whenever the
    removal reports an error, [Run] exits on the message
    [Error: Could not remove directory '<dir>': <err>], also when the removal
    was called because a stage had failed, whose own error is then not
    reported. *)
Theorem Run_failed_removal_decides
    language service (private : bool) outputPath m script rand tempdir cwd spawn
    p e :
  let r := Run language service private outputPath
             (boot m script rand tempdir cwd spawn) in
  EvRemoveAll p (Some e) ∈ w_trace r.2 →
  r.1 = Fatal (removal_message p e)
  ∧ last (w_trace r.2) = Some (EvLog (removal_message p e))
  ∧ created (w_trace r.2) = [p].
Proof.
  intros r Hin. subst r.
  set (w := boot m script rand tempdir cwd spawn) in *.
  destruct (Run_decides language service private outputPath w)
    as (evs & Ht & Hd).
  assert (w_trace w = []) as Hw by done.
  rewrite Ht, Hw in Hin. simpl in Hin. pose proof (Hd p e Hin) as Hf.
  split; [exact Hf|].
  destruct (Run_ending language service private outputPath w)
    as (evs' & Ht' & He).
  rewrite Hf in He. destruct He as [(pre & Hlast) _].
  split; [rewrite Ht', Hlast, app_assoc; apply last_snoc|].
  destruct (IsValidLanguage language) eqn:Hl.
  2:{ destruct (Run_rejects language service private outputPath w) as [msg Hr];
        [by left|].
      rewrite Hr in Ht.
      change (w_trace w ++ [EvLog msg] = w_trace w ++ evs) in Ht.
      apply app_inv_head in Ht. subst evs.
      apply list_elem_of_singleton in Hin. discriminate Hin. }
  destruct (if private then IsValidPrivateService service
            else IsValidPublicService service) eqn:Hs.
  2:{ destruct (Run_rejects language service private outputPath w) as [msg Hr].
      { right. destruct private; [right|left]; done. }
      rewrite Hr in Ht.
      change (w_trace w ++ [EvLog msg] = w_trace w ++ evs) in Ht.
      apply app_inv_head in Ht. subst evs.
      apply list_elem_of_singleton in Hin. discriminate Hin. }
  destruct (Run_admits language service private outputPath Hl Hs w)
    as (evs2 & Ht2 & r & rest & Hevs & Hcr & Hc & Hsw).
  rewrite Ht in Ht2. apply app_inv_head in Ht2. subst evs2.
  rewrite Ht, Hw. simpl.
  pose proof (removed_elem _ _ _ Hin) as Hrem. rewrite <- Hcr, Hc in Hrem.
  destruct r as [tmpDir|e0]; [|by inversion Hrem].
  apply list_elem_of_singleton in Hrem. by subst.
Qed.

(** ** When extraction and collection succeed *)

Lemma calm_step n w :
  no_fault_next (S n) w = true →
  ∃ w1, pop_fault w = (None, w1)
        ∧ w_fs w1 = w_fs w ∧ w_cwd w1 = w_cwd w ∧ w_trace w1 = w_trace w
        ∧ no_fault_next n w1 = true.
Proof.
  unfold no_fault_next, pop_fault.
  destruct (w_script w) as [|[f|] rest] eqn:E; simpl; [|done|].
  - intros _. exists w. rewrite E. by destruct n.
  - intros H. by eexists.
Qed.

Lemma node_at_insert_ne (m : fsmap) (p q : path) (x : node) :
  p ≠ q → node_at (<[p := x]> m) q = node_at m q.
Proof. intros H. destruct q; [done|]. simpl. by rewrite lookup_insert_ne. Qed.

Lemma node_at_insert_eq (m : fsmap) (p : path) (x : node) :
  p ≠ [] → node_at (<[p := x]> m) p = Some x.
Proof. intros H. destruct p; [done|]. simpl. by rewrite lookup_insert_eq. Qed.

Lemma removelast_ne (p : path) : p ≠ [] → p ≠ removelast p.
Proof.
  intros Hp Heq. destruct (exists_last Hp) as (d & n & ->).
  rewrite removelast_last in Heq. apply (f_equal length) in Heq.
  rewrite length_app in Heq. simpl in Heq. lia.
Qed.

Lemma Getwd_calm n w :
  no_fault_next (S n) w = true →
  ∃ w1, Getwd w = (Done (Ok (w_cwd w)), w1)
        ∧ w_fs w1 = w_fs w ∧ w_cwd w1 = w_cwd w ∧ no_fault_next n w1 = true.
Proof.
  intros H. destruct (calm_step n w H) as (w1 & Hp & Hfs & Hcwd & _ & Hc).
  unfold Getwd. rewrite Hp, Hcwd. by eexists.
Qed.

Lemma ReadDir_calm n (d : path) w :
  no_fault_next (S n) w = true →
  node_at (w_fs w) d = Some Dir →
  ∃ w1, ReadDir d w = (Done (Ok (entries d (w_fs w))), w1)
        ∧ w_fs w1 = w_fs w ∧ w_cwd w1 = w_cwd w ∧ no_fault_next n w1 = true.
Proof.
  intros H Hd. destruct (calm_step n w H) as (w1 & Hp & Hfs & Hcwd & _ & Hc).
  unfold ReadDir. rewrite Hp, Hfs, Hd. by eexists.
Qed.

Lemma Open_calm n (p : path) w :
  no_fault_next (S n) w = true →
  is_Some (node_at (w_fs w) p) →
  ∃ w1, Open p w = (Done (Ok p), w1)
        ∧ w_fs w1 = w_fs w ∧ w_cwd w1 = w_cwd w ∧ no_fault_next n w1 = true.
Proof.
  intros H [x Hx]. destruct (calm_step n w H) as (w1 & Hp & Hfs & Hcwd & _ & Hc).
  unfold Open. rewrite Hp, Hfs, Hx. by eexists.
Qed.

Lemma Create_calm n (p : path) w :
  no_fault_next (S n) w = true →
  node_at (w_fs w) p ≠ Some Dir →
  node_at (w_fs w) (removelast p) = Some Dir →
  ∃ w1, Create p w = (Done (Ok p), w1)
        ∧ w_fs w1 = <[p := File ""]> (w_fs w) ∧ w_cwd w1 = w_cwd w
        ∧ no_fault_next n w1 = true.
Proof.
  intros H Hn Hd. destruct (calm_step n w H) as (w1 & Hp & Hfs & Hcwd & _ & Hc).
  unfold Create. rewrite Hp, Hfs, Hd.
  destruct (node_at (w_fs w) p) as [[data|]|]; [|done|]; by eexists.
Qed.

Lemma Copy_calm n (dst src : path) data w :
  no_fault_next (S n) w = true →
  node_at (w_fs w) src = Some (File data) →
  ∃ w1, Copy dst src w = (Done None, w1)
        ∧ w_fs w1 = <[dst := File data]> (w_fs w) ∧ w_cwd w1 = w_cwd w
        ∧ no_fault_next n w1 = true.
Proof.
  intros H Hs. destruct (calm_step n w H) as (w1 & Hp & Hfs & Hcwd & _ & Hc).
  unfold Copy. rewrite Hp, Hfs, Hs. by eexists.
Qed.

Lemma CopyProtobuf_range_succeeds service (srcdir protoDir : path) files :
  let canon := Join protoDir [service +:+ ".proto"] in
  removelast canon ≠ srcdir →
  Forall (fun n => valid_name n = true) files →
  ∀ w,
    node_at (w_fs w) (removelast canon) = Some Dir →
    node_at (w_fs w) canon ≠ Some Dir →
    (∀ n, n ∈ files → Ext n = ".proto" →
          ∃ data, w_fs w !! (srcdir ++ [n]) = Some (File data)) →
    no_fault_next (length (filter (fun n => Ext n = ".proto") files) * 3) w
    = true →
    ∃ w', CopyProtobuf_range service srcdir protoDir files w = (Done None, w').
Proof.
  intros canon Hsep Hvalid.
  induction Hvalid as [|f rest Hf _ IH]; intros w Hparent Hcanon Hreg Hcalm.
  { by eexists. }
  simpl. destruct (String.eqb_spec (Ext f) ".proto") as [Hext|Hext]; simpl.
  2:{ rewrite filter_cons_False in Hcalm by done.
      apply IH; [done|done| |done]. intros n Hn. apply Hreg. by right. }
  rewrite filter_cons_True in Hcalm by done. simpl in Hcalm.
  assert (canon ≠ []) as Hne by (intros Hnil; by rewrite Hnil in Hcanon).
  destruct (Hreg f) as [data Hdata]; [by left|done|].
  rewrite (Join_name srcdir f Hf). fold canon.
  destruct (Open_calm _ (srcdir ++ [f]) w Hcalm) as (w1 & E1 & Hfs1 & _ & Hc1).
  { rewrite node_at_snoc, Hdata. by eexists. }
  rewrite (bind_done _ _ _ _ _ E1).
  destruct (Create_calm _ canon w1 Hc1) as (w2 & E2 & Hfs2 & _ & Hc2).
  { by rewrite Hfs1. } { by rewrite Hfs1. }
  rewrite (bind_done _ _ _ _ _ E2).
  destruct (Copy_calm _ canon (srcdir ++ [f]) data w2 Hc2)
    as (w3 & E3 & Hfs3 & _ & Hc3).
  { rewrite Hfs2, node_at_insert_ne, Hfs1, node_at_snoc; [done|].
    intros Heq. by apply (snoc_ne_canon srcdir canon f). }
  rewrite (bind_done _ _ _ _ _ E3).
  apply IH; [| | |done].
  - rewrite Hfs3, Hfs2, !node_at_insert_ne, Hfs1 by by apply removelast_ne.
    done.
  - rewrite Hfs3, node_at_insert_eq by done. by intros [=].
  - intros n Hn Hp. destruct (Hreg n) as [d Hd]; [by right|done|].
    exists d. rewrite Hfs3, Hfs2, !lookup_insert_ne, Hfs1; [done| |];
      intros Heq; by apply (snoc_ne_canon srcdir canon n).
Qed.

(** X21: [CopyProtobuf] succeeds whenever it can: when the selected directory
    and the staging directory exist, the canonical path is not a directory,
    every entry of extension .proto is a regular file and no system call
    fails for an outside reason, it returns nil. *)
Theorem CopyProtobuf_succeeds
    service (serviceDir protoDir : path) (private : bool) w :
  let srcdir := if private then Join serviceDir ["proto"; "private"]
                else Join serviceDir ["proto"; "public"] in
  let canon := Join protoDir [service +:+ ".proto"] in
  let qualifying := filter (fun n => Ext n = ".proto") (entries srcdir (w_fs w)) in
  removelast canon ≠ srcdir →
  node_at (w_fs w) srcdir = Some Dir →
  node_at (w_fs w) (removelast canon) = Some Dir →
  node_at (w_fs w) canon ≠ Some Dir →
  (∀ n, n ∈ qualifying → ∃ data, w_fs w !! (srcdir ++ [n]) = Some (File data)) →
  no_fault_next (S (length qualifying * 3)) w = true →
  (CopyProtobuf service serviceDir protoDir private w).1 = Done None.
Proof.
  intros srcdir canon qualifying Hsep Hsrc Hparent Hcanon Hreg Hcalm.
  unfold CopyProtobuf. fold srcdir.
  destruct (ReadDir_calm _ srcdir w Hcalm Hsrc) as (w1 & E1 & Hfs1 & _ & Hc1).
  rewrite (bind_done _ _ _ _ _ E1).
  destruct (CopyProtobuf_range_succeeds service srcdir protoDir
              (entries srcdir (w_fs w)) Hsep) with (w := w1) as [w' ->].
  - apply Forall_forall. intros x Hx. by apply elem_of_entries in Hx as [? _].
  - by rewrite Hfs1.
  - by rewrite Hfs1.
  - intros n Hn Hext. rewrite Hfs1. apply Hreg.
    apply list_elem_of_filter. by split.
  - exact Hc1.
  - done.
Qed.

Lemma CopyGeneratedFiles_range_succeeds
    (cwd protoDir : path) outputPath files :
  let outdir := Join cwd [outputPath] in
  outdir ≠ protoDir →
  Forall (fun n => valid_name n = true) files →
  ∀ w,
    node_at (w_fs w) outdir = Some Dir →
    (∀ n, n ∈ files → Ext n ≠ ".proto" →
          (∃ data, w_fs w !! (protoDir ++ [n]) = Some (File data))
          ∧ w_fs w !! (outdir ++ [n]) ≠ Some Dir) →
    no_fault_next (length (filter (fun n => Ext n ≠ ".proto") files) * 3) w
    = true →
    ∃ w', CopyGeneratedFiles_range cwd protoDir outputPath files w
          = (Done None, w').
Proof.
  intros outdir Hsep Hvalid.
  induction Hvalid as [|f rest Hf _ IH]; intros w Hout Hreg Hcalm.
  { by eexists. }
  simpl. destruct (String.eqb_spec (Ext f) ".proto") as [Hext|Hext]; simpl.
  { rewrite filter_cons_False in Hcalm by (intros H; by apply H).
    apply IH; [done| |done]. intros n Hn. apply Hreg. by right. }
  rewrite filter_cons_True in Hcalm by done. simpl in Hcalm.
  destruct (Hreg f) as [[data Hdata] Hdst]; [by left|done|].
  rewrite (Join_name protoDir f Hf), (Join_snoc cwd outputPath f Hf).
  fold outdir.
  assert (∀ n n', outdir ++ [n] ≠ protoDir ++ [n']) as Hapart.
  { intros n n' Heq. apply app_inj_tail in Heq as [Heq _]. by apply Hsep. }
  destruct (Open_calm _ (protoDir ++ [f]) w Hcalm) as (w1 & E1 & Hfs1 & _ & Hc1).
  { rewrite node_at_snoc, Hdata. by eexists. }
  rewrite (bind_done _ _ _ _ _ E1).
  destruct (Create_calm _ (outdir ++ [f]) w1 Hc1) as (w2 & E2 & Hfs2 & _ & Hc2).
  { by rewrite Hfs1, node_at_snoc. }
  { by rewrite removelast_last, Hfs1. }
  rewrite (bind_done _ _ _ _ _ E2).
  destruct (Copy_calm _ (outdir ++ [f]) (protoDir ++ [f]) data w2 Hc2)
    as (w3 & E3 & Hfs3 & _ & Hc3).
  { rewrite Hfs2, node_at_insert_ne, Hfs1, node_at_snoc; [done|apply Hapart]. }
  rewrite (bind_done _ _ _ _ _ E3).
  assert (outdir ++ [f] ≠ outdir) as Hself.
  { intros Heq. apply (f_equal length) in Heq. rewrite length_app in Heq.
    simpl in Heq. lia. }
  apply IH; [| |done].
  - by rewrite Hfs3, Hfs2, !node_at_insert_ne, Hfs1.
  - intros n Hn Hp. destruct (Hreg n) as [[d Hd] Hnd]; [by right|done|].
    split.
    + exists d. rewrite Hfs3, Hfs2, !lookup_insert_ne, Hfs1; [done| |];
        apply Hapart.
    + rewrite Hfs3. destruct (decide (outdir ++ [f] = outdir ++ [n])) as [<-|Hd'].
      * rewrite lookup_insert_eq. by intros [=].
      * rewrite Hfs2, !lookup_insert_ne, Hfs1; done.
Qed.

(** X22: [CopyGeneratedFiles] succeeds whenever it can: when staging and the
    output directory exist, every staged entry to collect is a regular file,
    no directory stands where a file is to be written and no system call
    fails for an outside reason, it returns nil. *)
Theorem CopyGeneratedFiles_succeeds (protoDir : path) outputPath w :
  let outdir := Join (w_cwd w) [outputPath] in
  let wanted := filter (fun n => Ext n ≠ ".proto") (entries protoDir (w_fs w)) in
  outdir ≠ protoDir →
  node_at (w_fs w) protoDir = Some Dir →
  node_at (w_fs w) outdir = Some Dir →
  (∀ n, n ∈ wanted →
        (∃ data, w_fs w !! (protoDir ++ [n]) = Some (File data))
        ∧ w_fs w !! (outdir ++ [n]) ≠ Some Dir) →
  no_fault_next (S (S (length wanted * 3))) w = true →
  (CopyGeneratedFiles protoDir outputPath w).1 = Done None.
Proof.
  intros outdir wanted Hsep Hstaging Hout Hreg Hcalm.
  unfold CopyGeneratedFiles.
  destruct (Getwd_calm _ w Hcalm) as (w0 & E0 & Hfs0 & Hcwd0 & Hc0).
  rewrite (bind_done _ _ _ _ _ E0).
  destruct (ReadDir_calm _ protoDir w0 Hc0) as (w1 & E1 & Hfs1 & _ & Hc1).
  { by rewrite Hfs0. }
  rewrite (bind_done _ _ _ _ _ E1). rewrite Hfs0.
  destruct (CopyGeneratedFiles_range_succeeds (w_cwd w) protoDir outputPath
              (entries protoDir (w_fs w)) Hsep) with (w := w1) as [w' ->].
  - apply Forall_forall. intros x Hx. by apply elem_of_entries in Hx as [? _].
  - by rewrite Hfs1, Hfs0.
  - intros n Hn Hext. rewrite Hfs1, Hfs0. apply Hreg.
    apply list_elem_of_filter. by split.
  - exact Hc1.
  - done.
Qed.

(** ** The further properties on the scenario machine *)

Lemma Run_done_only_supported_witness :
  (Run "golang" "catalog" false "./out" (machine [])).1 = Done tt
  ∧ "golang" ∈ [LanguageGo; LanguageRuby; LanguagePython; LanguageJavascript]
  ∧ IsValidPublicService "catalog" = true.
Proof.
  assert ((Run "golang" "catalog" false "./out" (machine [])).1 = Done tt)
    as Hdone by (vm_compute; reflexivity).
  split; [exact Hdone|].
  exact (Run_done_only_supported "golang" "catalog" false "./out" (machine [])
           Hdone).
Defined.

(** java passes the language gate and has no compiler command. *)
Lemma Run_fatal_is_reported_witness :
  let r := Run "java" "catalog" false "./out" (machine []) in
  let msg := "Error: no command has been implemented for this language" in
  r.1 = Fatal msg
  ∧ last (w_trace r.2) = Some (EvLog msg)
  ∧ ∃ rest, msg = "Error: " +:+ rest.
Proof.
  intros r msg.
  assert (r.1 = Fatal msg) as Hf by (vm_compute; reflexivity).
  split; [exact Hf|].
  exact (Run_fatal_is_reported "java" "catalog" false "./out" (machine []) msg Hf).
Defined.

Lemma Run_done_leaves_no_workspace_witness :
  let r := Run "golang" "catalog" false "./out" (machine []) in
  r.1 = Done tt
  ∧ ∃ tmpDir, created (w_trace r.2) = [tmpDir]
              ∧ last (w_trace r.2) = Some (EvRemoveAll tmpDir None)
              ∧ ∀ p, tmpDir `prefix_of` p → w_fs r.2 !! p = None.
Proof.
  intros r.
  assert (r.1 = Done tt) as Hdone by (vm_compute; reflexivity).
  split; [exact Hdone|].
  exact (Run_done_leaves_no_workspace "golang" "catalog" false "./out"
           disk [] ["123"] ["tmp"] ["work"] spawn Hdone).
Defined.


Lemma Run_removes_only_its_workspace_witness :
  let r := Run "golang" "catalog" false "./out" (machine (failing_at 7)) in
  removed (w_trace r.2) = [workspace]
  ∧ created (w_trace r.2) = [workspace]
  ∧ disk !! workspace = None
  ∧ ∃ suffix, suffix ∈ ["123"]
              ∧ workspace = ["tmp"] ++ ["client-generation-" +:+ suffix].
Proof.
  apply (Run_removes_only_its_workspace "golang" "catalog" false "./out"
           disk (failing_at 7) ["123"] ["tmp"] ["work"] spawn workspace).
  vm_compute. constructor.
Defined.

Lemma validated_service_stays_inside_witness :
  Join workspace ["catalog"] = workspace ++ ["catalog"]
  ∧ Join (Join workspace ["proto"]) ["catalog" +:+ ".proto"]
    = workspace ++ ["proto"; "catalog" +:+ ".proto"]
  ∧ workspace `prefix_of` Join (Join workspace ["catalog"]) ["proto"; "public"]
  ∧ workspace `prefix_of` Join (Join workspace ["catalog"]) ["proto"; "private"].
Proof.
  apply (validated_service_stays_inside "catalog" workspace).
  left. vm_compute. reflexivity.
Defined.

(** The clone of the scenario has no private directory. *)
Lemma CopyProtobuf_missing_directory_witness :
  let srcdir := Join (workspace ++ ["catalog"]) ["proto"; "private"] in
  let r := CopyProtobuf "catalog" (workspace ++ ["catalog"])
             (workspace ++ ["proto"]) true (cloned []) in
  ∃ cause,
    r.1 = Done (Some ("failed to read service protobuf directory: " +:+ cause))
    ∧ w_fs r.2 = w_fs (cloned [])
    ∧ w_trace r.2 = w_trace (cloned []) ++ [EvReadDir srcdir (Some cause)].
Proof.
  apply (CopyProtobuf_missing_directory "catalog" (workspace ++ ["catalog"])
           (workspace ++ ["proto"]) true (cloned [])).
  - vm_compute. reflexivity.
  - vm_compute. reflexivity.
Defined.

Lemma CopyProtobuf_needs_regular_files_witness :
  (CopyProtobuf "catalog" (workspace ++ ["catalog"]) (workspace ++ ["proto"])
     false (cloned [])).1 = Done None
  ∧ ∃ data,
      w_fs (cloned [])
        !! (Join (workspace ++ ["catalog"]) ["proto"; "public"] ++ ["types.proto"])
      = Some (File data).
Proof.
  assert ((CopyProtobuf "catalog" (workspace ++ ["catalog"])
             (workspace ++ ["proto"]) false (cloned [])).1 = Done None)
    as Hok by (vm_compute; reflexivity).
  split; [exact Hok|].
  apply (CopyProtobuf_needs_regular_files "catalog" (workspace ++ ["catalog"])
           (workspace ++ ["proto"]) false (cloned []) "types.proto" Hok).
  - vm_compute. intros H. discriminate H.
  - assert (entries (Join (workspace ++ ["catalog"]) ["proto"; "public"])
              (w_fs (cloned []))
            = ["README.md"; "catalog.proto"; "types.proto"]) as Hnames
      by (vm_compute; reflexivity).
    rewrite Hnames. repeat constructor.
  - vm_compute. reflexivity.
Defined.

(** Of catalog.proto and types.proto the second is staged. *)
Lemma CopyProtobuf_greatest_name_wins_witness :
  let srcdir := Join (workspace ++ ["catalog"]) ["proto"; "public"] in
  let canon := Join (workspace ++ ["proto"]) ["catalog" +:+ ".proto"] in
  let qualifying :=
    filter (fun n => Ext n = ".proto") (entries srcdir (w_fs (cloned []))) in
  let r := CopyProtobuf "catalog" (workspace ++ ["catalog"])
             (workspace ++ ["proto"]) false (cloned []) in
  qualifying = ["catalog.proto"; "types.proto"]
  ∧ ∃ n data, n ∈ qualifying
              ∧ (∀ n', n' ∈ qualifying → String.le n' n)
              ∧ w_fs (cloned []) !! (srcdir ++ [n]) = Some (File data)
              ∧ w_fs r.2 !! canon = Some (File data).
Proof.
  intros srcdir canon qualifying r.
  assert (qualifying = ["catalog.proto"; "types.proto"]) as Hq
    by (vm_compute; reflexivity).
  split; [exact Hq|].
  apply (CopyProtobuf_greatest_name_wins "catalog" (workspace ++ ["catalog"])
           (workspace ++ ["proto"]) false (cloned [])).
  - vm_compute. reflexivity.
  - vm_compute. intros H. discriminate H.
  - fold srcdir qualifying. rewrite Hq. intros H. discriminate H.
Defined.


Lemma GenerateCode_exit_status_decides_witness :
  let dir := workspace ++ ["proto"] in
  let argv := goGenerateCmd "catalog" dir in
  let r := GenerateCode "golang" "catalog" dir compiled in
  r.1 = Done None
  ∧ w_trace r.2
    = [EvPipe None; EvPipe None; EvStart argv None; EvReadAll None;
       EvReadAll None; EvWait argv None].
Proof.
  intros dir argv r.
  destruct (GenerateCode_exit_status_decides "golang" "catalog" dir argv compiled)
    as [Hr Ht].
  - reflexivity.
  - vm_compute. reflexivity.
  - vm_compute. reflexivity.
  - split.
    + etransitivity; [exact Hr|]. vm_compute. reflexivity.
    + etransitivity; [exact Ht|]. vm_compute. reflexivity.
Defined.

(** The output path of the scenario names no directory. *)
Lemma CopyGeneratedFiles_needs_output_directory_witness :
  let r := CopyGeneratedFiles (workspace ++ ["proto"]) "./missing" compiled in
  (∃ msg, r.1 = Done (Some msg)) ∧ w_fs r.2 = w_fs compiled.
Proof.
  apply (CopyGeneratedFiles_needs_output_directory (workspace ++ ["proto"])
           "./missing" compiled "catalog.pb.go").
  - assert (entries (workspace ++ ["proto"]) (w_fs compiled)
            = ["catalog.pb.go"; "catalog.proto"; "catalog.twirp.go"]) as Hnames
      by (vm_compute; reflexivity).
    rewrite Hnames. repeat constructor.
  - vm_compute. intros H. discriminate H.
  - vm_compute. intros H. discriminate H.
Defined.

(** Staging right after extraction holds the canonical file only. *)
Lemma CopyGeneratedFiles_nothing_to_collect_witness :
  let w := (CopyProtobuf "catalog" (workspace ++ ["catalog"])
              (workspace ++ ["proto"]) false (cloned [])).2 in
  let r := CopyGeneratedFiles (workspace ++ ["proto"]) "./out" w in
  entries (workspace ++ ["proto"]) (w_fs w) = ["catalog.proto"]
  ∧ r.1 = Done None ∧ w_fs r.2 = w_fs w.
Proof.
  intros w r.
  assert (entries (workspace ++ ["proto"]) (w_fs w) = ["catalog.proto"])
    as Hnames by (vm_compute; reflexivity).
  split; [exact Hnames|].
  apply (CopyGeneratedFiles_nothing_to_collect (workspace ++ ["proto"]) "./out" w).
  - vm_compute. reflexivity.
  - vm_compute. reflexivity.
  - intros n Hn. rewrite Hnames in Hn. apply list_elem_of_singleton in Hn.
    subst n. vm_compute. reflexivity.
Defined.

Lemma CopyGeneratedFiles_leaves_the_rest_witness :
  let r := CopyGeneratedFiles (workspace ++ ["proto"]) "./out" compiled in
  (∃ err, r.1 = Done err)
  ∧ (∀ n, w_fs r.2 !! ((workspace ++ ["proto"]) ++ [n])
          = w_fs compiled !! ((workspace ++ ["proto"]) ++ [n]))
  ∧ (∀ p, ¬ collected (Join (w_cwd compiled) ["./out"])
              (entries (workspace ++ ["proto"]) (w_fs compiled)) p →
          w_fs r.2 !! p = w_fs compiled !! p).
Proof.
  apply (CopyGeneratedFiles_leaves_the_rest (workspace ++ ["proto"]) "./out"
           compiled).
  vm_compute. intros H. discriminate H.
Defined.

(** A directory among the generated files. *)
Lemma CopyGeneratedFiles_rejects_directories_witness :
  let w := set_fs (<[workspace ++ ["proto"; "google"] := Dir]> (w_fs compiled))
             compiled in
  let r := CopyGeneratedFiles (workspace ++ ["proto"]) "./out" w in
  w_fs w !! ((workspace ++ ["proto"]) ++ ["google"]) = Some Dir
  ∧ ∃ msg, r.1 = Done (Some msg).
Proof.
  intros w r.
  assert (w_fs w !! ((workspace ++ ["proto"]) ++ ["google"]) = Some Dir)
    as Hdir by (vm_compute; reflexivity).
  split; [exact Hdir|].
  apply (CopyGeneratedFiles_rejects_directories (workspace ++ ["proto"]) "./out"
           w "google").
  - vm_compute. intros H. discriminate H.
  - assert (entries (workspace ++ ["proto"]) (w_fs w)
            = ["catalog.pb.go"; "catalog.proto"; "catalog.twirp.go"; "google"])
      as Hnames by (vm_compute; reflexivity).
    rewrite Hnames. repeat constructor.
  - vm_compute. intros H. discriminate H.
  - exact Hdir.
Defined.

Lemma Run_done_every_checked_call_succeeded_witness :
  let r := Run "golang" "catalog" false "./out" (machine []) in
  r.1 = Done tt
  ∧ ∀ ev, ev ∈ w_trace r.2 → event_error ev = None.
Proof.
  intros r.
  assert (r.1 = Done tt) as Hdone by (vm_compute; reflexivity).
  split; [exact Hdone|].
  exact (Run_done_every_checked_call_succeeded "golang" "catalog" false "./out"
           disk [] ["123"] ["tmp"] ["work"] spawn Hdone).
Defined.

(** The listing of the clone fails, and then the removal: the process exits
    on the removal's message. *)
Lemma Run_failed_removal_decides_witness :
  let script := failing_at 4 ++ [Some (Fault "device or resource busy")] in
  let r := Run "golang" "catalog" false "./out" (machine script) in
  let msg := removal_message workspace "device or resource busy" in
  EvReadDir (Join (workspace ++ ["catalog"]) ["proto"; "public"])
            (Some "input/output error") ∈ w_trace r.2
  ∧ r.1 = Fatal msg
  ∧ last (w_trace r.2) = Some (EvLog msg)
  ∧ created (w_trace r.2) = [workspace].
Proof.
  intros script r msg. split; [vm_compute; repeat constructor|].
  apply (Run_failed_removal_decides "golang" "catalog" false "./out"
           disk script ["123"] ["tmp"] ["work"] spawn workspace
           "device or resource busy").
  vm_compute. repeat constructor.
Defined.

Lemma CopyProtobuf_succeeds_witness :
  (CopyProtobuf "catalog" (workspace ++ ["catalog"]) (workspace ++ ["proto"])
     false (cloned [])).1 = Done None.
Proof.
  apply (CopyProtobuf_succeeds "catalog" (workspace ++ ["catalog"])
           (workspace ++ ["proto"]) false (cloned [])).
  - vm_compute. intros H. discriminate H.
  - vm_compute. reflexivity.
  - vm_compute. reflexivity.
  - vm_compute. intros H. discriminate H.
  - assert (filter (fun n => Ext n = ".proto")
              (entries (Join (workspace ++ ["catalog"]) ["proto"; "public"])
                 (w_fs (cloned [])))
            = ["catalog.proto"; "types.proto"]) as Hq
      by (vm_compute; reflexivity).
    rewrite Hq. clear Hq. intros n Hn.
    apply elem_of_cons in Hn as [->|Hn];
      [eexists; vm_compute; reflexivity|].
    apply list_elem_of_singleton in Hn. subst n.
    eexists. vm_compute. reflexivity.
  - vm_compute. reflexivity.
Defined.

Lemma CopyGeneratedFiles_succeeds_witness :
  (CopyGeneratedFiles (workspace ++ ["proto"]) "./out" compiled).1 = Done None.
Proof.
  apply (CopyGeneratedFiles_succeeds (workspace ++ ["proto"]) "./out" compiled).
  - vm_compute. intros H. discriminate H.
  - vm_compute. reflexivity.
  - vm_compute. reflexivity.
  - assert (filter (fun n => Ext n ≠ ".proto")
              (entries (workspace ++ ["proto"]) (w_fs compiled))
            = ["catalog.pb.go"; "catalog.twirp.go"]) as Hq
      by (vm_compute; reflexivity).
    rewrite Hq. clear Hq. intros n Hn.
    apply elem_of_cons in Hn as [->|Hn].
    { split; [eexists; vm_compute; reflexivity|].
      vm_compute. intros H. discriminate H. }
    apply list_elem_of_singleton in Hn. subst n.
    split; [eexists; vm_compute; reflexivity|].
    vm_compute. intros H. discriminate H.
  - vm_compute. reflexivity.
Defined.
